(** * Devora API: commit evidence pipeline and verdict extraction

    A shallow embedding of [api.py]: the two helpers [get_commits] and
    [call_llm], the string and regular-expression operations they use, and
    the properties of the pipeline.

    Conventions of the model.
    - A Python [str] is a [list ascii]: a string of code points below
      256, the character of code [n] being [ascii_of_nat n]. Whitespace,
      digits, word characters and lower case are those of Python on
      these code points. Code points of 256 and more are outside the
      model (among them U+017F, which [re.IGNORECASE] pairs with [s]).
    - An HTTP status is a [Z].
    - [requests.get] is a function of the URL and the bearer token: the
      remote side answers the same request the same way during one call.
    - [model.generate_content] is a function from the prompt to either a
      text or a raised error with its message; [genai.configure] and the
      construction of the model do not bear on the result and are left
      out.
    - A raised Python exception is a value of [exn]; the [while] loop of
      [get_commits] runs on fuel, [None] meaning that the fuel ran out.
    - [print] calls are not modelled. *)

From Stdlib Require Import Strings.Ascii Strings.String.
From Stdlib Require Import Bool Arith ZArith QArith Lia List.
Import ListNotations.

Close Scope Q_scope.
Set Implicit Arguments.

(** ** Python strings *)

Module PyStr.

Definition str := list ascii.

Definition lit (s : string) : str := list_ascii_of_string s.

Definition code (c : ascii) : nat := nat_of_ascii c.

(** [chr(n)] for a code point below 256. *)
Definition chr (n : nat) : ascii := ascii_of_nat n.

Definition str_eqb (a b : str) : bool :=
  if list_eq_dec ascii_dec a b then true else false.

(** [x in l] for a list of strings. *)
Definition mem (x : str) (l : list str) : bool := existsb (str_eqb x) l.

(** Character classes on the code points below 256. *)

(** [c.isspace()], which is also [\s] and what [str.strip()] removes:
    the ASCII whitespace, U+0085 and U+00A0. *)
Definition is_space (c : ascii) : bool :=
  let n := code c in
  ((9 <=? n) && (n <=? 13)) || ((28 <=? n) && (n <=? 32)) ||
  (n =? 133) || (n =? 160).

(** [\d]: the decimal digits. *)
Definition is_digit (c : ascii) : bool :=
  let n := code c in (48 <=? n) && (n <=? 57).

(** [c.isdigit()]: the decimal digits and the superscripts 2, 3 and 1. *)
Definition isdigit_char (c : ascii) : bool :=
  let n := code c in
  is_digit c || (n =? 178) || (n =? 179) || (n =? 185).

(** [c.isupper()]: the letters that [lower] changes. *)
Definition is_upper (c : ascii) : bool :=
  let n := code c in
  ((65 <=? n) && (n <=? 90)) || ((192 <=? n) && (n <=? 214)) ||
  ((216 <=? n) && (n <=? 222)).

(** [c.isalnum()]: letters and numeric characters. *)
Definition is_alnum (c : ascii) : bool :=
  let n := code c in
  ((48 <=? n) && (n <=? 57)) || ((65 <=? n) && (n <=? 90)) ||
  ((97 <=? n) && (n <=? 122)) || (n =? 170) ||
  ((178 <=? n) && (n <=? 179)) || (n =? 181) ||
  ((185 <=? n) && (n <=? 186)) || ((188 <=? n) && (n <=? 190)) ||
  ((192 <=? n) && (n <=? 214)) || ((216 <=? n) && (n <=? 246)) ||
  (248 <=? n).

(** [\w], which also decides [\b]: alphanumeric or the underscore. *)
Definition is_word (c : ascii) : bool :=
  is_alnum c || (code c =? 95).

(** [c.lower()] *)
Definition lower_char (c : ascii) : ascii :=
  if is_upper c then ascii_of_nat (code c + 32) else c.

(** [s.lower()] *)
Definition lower (s : str) : str := map lower_char s.

(** [s.lstrip()], [s.rstrip()] and [s.strip()], over a set of characters. *)
Fixpoint lstrip_by (p : ascii -> bool) (s : str) : str :=
  match s with
  | c :: s' => if p c then lstrip_by p s' else s
  | [] => []
  end.

Definition rstrip_by (p : ascii -> bool) (s : str) : str :=
  rev (lstrip_by p (rev s)).

Definition strip_by (p : ascii -> bool) (s : str) : str :=
  rstrip_by p (lstrip_by p s).

(** [s.strip()] *)
Definition strip (s : str) : str := strip_by is_space s.

(** [s.strip(c)] for a single character [c]. *)
Definition strip_char (c : ascii) (s : str) : str :=
  strip_by (Ascii.eqb c) s.

(** [s.split(sep)] for a single character [sep]: never empty. *)
Fixpoint split (sep : ascii) (s : str) : list str :=
  match s with
  | [] => [[]]
  | c :: s' =>
      if Ascii.eqb c sep then [] :: split sep s'
      else match split sep s' with
           | w :: ws => (c :: w) :: ws
           | [] => [[c]]
           end
  end.

(** [sep.join(l)] *)
Fixpoint join (sep : str) (l : list str) : str :=
  match l with
  | [] => []
  | [x] => x
  | x :: (_ :: _) as l' => x ++ sep ++ join sep l'
  end.

Fixpoint starts_with (p s : str) : bool :=
  match p, s with
  | [], _ => true
  | a :: p', b :: s' => Ascii.eqb a b && starts_with p' s'
  | _ :: _, [] => false
  end.

(** [p in s] for strings. *)
Fixpoint contains (p s : str) : bool :=
  starts_with p s ||
  match s with
  | [] => false
  | _ :: s' => contains p s'
  end.

(** [s.replace(c, '', 1)]: drop the first occurrence of [c]. *)
Fixpoint remove_first (c : ascii) (s : str) : str :=
  match s with
  | [] => []
  | x :: s' => if Ascii.eqb x c then s' else x :: remove_first c s'
  end.

(** [s.isdigit()] *)
Definition isdigit (s : str) : bool :=
  match s with
  | [] => false
  | _ => forallb isdigit_char s
  end.

(** [xs[i]] on a list: [None] stands for the [IndexError]. *)
Definition index {A : Type} (l : list A) (i : nat) : option A := nth_error l i.

End PyStr.
Export PyStr.

(** ** Regular expressions: the fragment of [re] the patterns use

    A backtracking matcher with Python's priorities: a repetition is
    greedy, an alternation tries its branches in order, [search] takes the
    leftmost start. One capturing group is tracked. *)

Module Re.

Inductive regex : Type :=
| Chr (c : ascii)                (* a literal character *)
| Class (p : ascii -> bool)      (* a character class *)
| Seq (r1 r2 : regex)
| Alt (r1 r2 : regex)
| Star (r : regex)               (* r*, greedy *)
| Opt (r : regex)                (* r?, greedy *)
| Group (r : regex)              (* the capturing group *)
| WordB.                         (* \b *)

Definition Plus (r : regex) : regex := Seq r (Star r).

Fixpoint Word (s : str) : regex :=
  match s with
  | [] => Star (Class (fun _ => false))
  | [c] => Chr c
  | c :: s' => Seq (Chr c) (Word s')
  end.

(** A position in the subject: the characters before it, nearest first,
    and the characters from it on. *)
Record pos : Type := { before : str; rest : str }.

Definition start_of (s : str) : pos := {| before := []; rest := s |}.

Definition advance (p : pos) : option (ascii * pos) :=
  match rest p with
  | [] => None
  | c :: s' => Some (c, {| before := c :: before p; rest := s' |})
  end.

Definition word_at (o : option ascii) : bool :=
  match o with
  | Some c => is_word c
  | None => false
  end.

Definition at_boundary (p : pos) : bool :=
  xorb (word_at (hd_error (before p))) (word_at (hd_error (rest p))).

(** A literal character [a] of the pattern against a character [b] of
    the subject. Under [re.IGNORECASE] two code points below 256 match
    when their lower-case forms are the same. *)
Definition chr_eqb (ignorecase : bool) (a b : ascii) : bool :=
  if ignorecase then Ascii.eqb (lower_char a) (lower_char b)
  else Ascii.eqb a b.

(** A text that a literal word of the pattern matches, character by
    character. *)
Fixpoint word_eqb (ignorecase : bool) (s w : str) : bool :=
  match s, w with
  | [], [] => true
  | c :: s', x :: w' => chr_eqb ignorecase c x && word_eqb ignorecase s' w'
  | _, _ => false
  end.

(** The text between two positions of one subject. *)
Definition between (p q : pos) : str :=
  firstn (length (rest p) - length (rest q)) (rest p).

Section Matcher.

Variable ignorecase : bool.
Variable R : Type.

(** [step r p g k]: match [r] at [p], the group being [g] so far, and
    hand the end position and the group to [k]; [None] makes the matcher
    backtrack. *)
Fixpoint step (r : regex) (p : pos) (g : option str)
    (k : pos -> option str -> option R) {struct r} : option R :=
  match r with
  | Chr c =>
      match advance p with
      | Some (x, p') => if chr_eqb ignorecase c x then k p' g else None
      | None => None
      end
  | Class f =>
      match advance p with
      | Some (x, p') => if f x then k p' g else None
      | None => None
      end
  | Seq r1 r2 => step r1 p g (fun p' g' => step r2 p' g' k)
  | Alt r1 r2 =>
      match step r1 p g k with
      | Some x => Some x
      | None => step r2 p g k
      end
  | Star r1 =>
      (fix loop (fuel : nat) (p : pos) (g : option str) {struct fuel}
         : option R :=
         match fuel with
         | O => k p g
         | S fuel' =>
             match step r1 p g (fun p' g' =>
                     if length (rest p') <? length (rest p)
                     then loop fuel' p' g' else None) with
             | Some x => Some x
             | None => k p g
             end
         end) (length (rest p)) p g
  | Opt r1 =>
      match step r1 p g k with
      | Some x => Some x
      | None => k p g
      end
  | Group r1 => step r1 p g (fun p' _ => k p' (Some (between p p')))
  | WordB => if at_boundary p then k p g else None
  end.

End Matcher.

(** A match: where it ends and what the group holds. *)
Record match_ : Type := { m_end : pos; m_group : option str }.

Definition match_at (ic : bool) (r : regex) (p : pos) : option match_ :=
  step ic r p None (fun p' g => Some {| m_end := p'; m_group := g |}).

(** [pattern.search] from a position on: the leftmost start that matches. *)
Fixpoint search_from (ic : bool) (r : regex) (fuel : nat) (p : pos)
  : option match_ :=
  match match_at ic r p with
  | Some m => Some m
  | None =>
      match fuel with
      | O => None
      | S fuel' =>
          match advance p with
          | Some (_, p') => search_from ic r fuel' p'
          | None => None
          end
      end
  end.

(** [pattern.search(s)], giving [match.group(1)]. *)
Definition search (ic : bool) (r : regex) (s : str) : option str :=
  match search_from ic r (length s) (start_of s) with
  | Some m => Some (match m_group m with Some g => g | None => [] end)
  | None => None
  end.

(** [re.findall] for a pattern with one group: the group of every match,
    left to right, the scan resuming where the last match ended (one
    character further after an empty match). *)
Fixpoint findall_from (ic : bool) (r : regex) (fuel : nat) (p : pos)
  : list str :=
  match fuel with
  | O => []
  | S fuel' =>
      match match_at ic r p with
      | Some m =>
          let g := match m_group m with Some g => g | None => [] end in
          if length (rest (m_end m)) <? length (rest p)
          then g :: findall_from ic r fuel' (m_end m)
          else g :: match advance p with
                    | Some (_, p') => findall_from ic r fuel' p'
                    | None => []
                    end
      | None =>
          match advance p with
          | Some (_, p') => findall_from ic r fuel' p'
          | None => []
          end
      end
  end.

Definition findall (ic : bool) (r : regex) (s : str) : list str :=
  findall_from ic r (S (length s)) (start_of s).

End Re.

(** ** Python numbers

    [float(tok)] for a decimal numeral [tok] (digits with at most one
    point, the only strings the code converts) is the binary64 nearest to
    its value, ties to even, [inf] from [2^1024 - 2^970] on. A finite
    float is kept as the rational it is equal to, in lowest terms. *)

Module PyNum.

Inductive pyfloat : Type :=
| FInf
| FFinite (q : Q).

Inductive pynum : Type :=
| PyInt (z : Z)
| PyFloat (f : pyfloat).

Definition digit_val (c : ascii) : Z := Z.of_nat (code c - 48).

Definition digits_val (s : str) : Z :=
  fold_left (fun acc c => 10 * acc + digit_val c)%Z s 0%Z.

(** The value of a decimal numeral, as numerator and denominator. *)
Definition decimal_of (tok : str) : Z * Z :=
  match split "."%char tok with
  | i :: f :: _ => (digits_val (i ++ f), 10 ^ Z.of_nat (length f))%Z
  | [i] => (digits_val i, 1%Z)
  | [] => (0%Z, 1%Z)
  end.

(** Round [n / d] (with [0 <= n], [0 < d]) to binary64. *)
Definition round_binary64 (n d : Z) : pyfloat :=
  if (n =? 0)%Z then FFinite 0 else
  let e0 := (Z.log2 n - Z.log2 d)%Z in
  let ge_pow (e : Z) : bool :=          (* 2^e <= n / d *)
    if (0 <=? e)%Z then (d * 2 ^ e <=? n)%Z else (d <=? n * 2 ^ (- e))%Z in
  let e := if ge_pow e0 then e0 else (e0 - 1)%Z in
  let p := Z.max (e - 52) (-1074) in    (* the exponent of the last place *)
  let num := if (0 <=? p)%Z then n else (n * 2 ^ (- p))%Z in
  let den := if (0 <=? p)%Z then (d * 2 ^ p)%Z else d in
  let m := (num / den)%Z in
  let r := (num mod den)%Z in
  let m' := match (2 * r ?= den)%Z with
            | Gt => (m + 1)%Z
            | Eq => if Z.odd m then (m + 1)%Z else m
            | Lt => m
            end in
  if (0 <=? p)%Z
  then if (2 ^ 1024 <=? m' * 2 ^ p)%Z then FInf
       else FFinite (inject_Z (m' * 2 ^ p))
  else FFinite (Qred (Qmake m' (Z.to_pos (2 ^ (- p))))).

(** [float(tok)] *)
Definition float (tok : str) : pyfloat :=
  let '(n, d) := decimal_of tok in round_binary64 n d.

(** [x == 0] *)
Definition is_zero (x : pynum) : bool :=
  match x with
  | PyInt z => (z =? 0)%Z
  | PyFloat (FFinite q) => Qeq_bool q 0
  | PyFloat FInf => false
  end.

End PyNum.
Export PyNum.

(** ** Exceptions *)

Inductive exn : Type :=
| IndexError                    (* list index out of range *)
| OverflowError                 (* int() of an infinite float *)
| JudgeError (msg : str).       (* raised by the judge service *)

(** [str(e)] *)
Definition exn_str (e : exn) : str :=
  match e with
  | IndexError => lit "list index out of range"
  | OverflowError => lit "cannot convert float infinity to integer"
  | JudgeError msg => msg
  end.

Inductive result (A : Type) : Type :=
| Ok (a : A)
| Raise (e : exn).

Arguments Ok {A} a.
Arguments Raise {A} e.

Definition bind {A B : Type} (x : result A) (f : A -> result B) : result B :=
  match x with
  | Ok a => f a
  | Raise e => Raise e
  end.

Notation "x <- c ;; k" := (bind c (fun x => k))
  (at level 61, c at next level, right associativity).

(** [xs[i]] *)
Definition item {A : Type} (l : list A) (i : nat) : result A :=
  match index l i with
  | Some a => Ok a
  | None => Raise IndexError
  end.

(** [int(x)] for a float that is not negative. *)
Definition int_of_float (x : pyfloat) : result Z :=
  match x with
  | FInf => Raise OverflowError
  | FFinite q => Ok (Qnum q / Zpos (Qden q))%Z
  end.

(** ** Data *)

Module Data.

(** A commit of the history source: [hash], [message], [author.raw]. *)
Record Commit : Type := {
  commit_hash : str;
  commit_message : str;
  author_raw : str
}.

(** [response.json()] of a history page: [values] (default empty) and
    [next] (absent, [null] or a URL). *)
Record Page : Type := {
  values : list Commit;
  next : option str
}.

Record Response : Type := {
  status_code : Z;
  json : Page;
  text : str
}.

(** The dictionary [commit_document]. *)
Record CommitDocument : Type := {
  hash : str;
  message : str;
  author_username : str;
  author_email : str;
  function_id : str;
  code_diff : option str
}.

End Data.
Export Data.

Definition nl : ascii := ascii_of_nat 10.

(** ** Helper: call the judge *)

Module Llm.

(** What [model.generate_content(prompt)] followed by [response.text]
    does: a text, or a raised error with its message. *)
Inductive judge_result : Type :=
| Returned (text : str)
| Raised (msg : str).

(** [estimate_token_count] *)
Definition estimate_token_count (text : str) : nat := length text / 4.

(** An f-string field holding [None] or a string. *)
Definition fmt_opt (o : option str) : str :=
  match o with
  | Some s => s
  | None => lit "None"
  end.

(** The author as the prompt shows it:
    [{commit['author_username']} <{commit['author_email']}>]. *)
Definition author_shown (commit : CommitDocument) : str :=
  author_username commit ++ lit " <" ++ author_email commit ++ lit ">".

Definition commit_info (commit : CommitDocument) : str :=
  lit "Commit message: " ++ message commit ++ [nl] ++
  lit "Author: " ++ author_shown commit ++ [nl] ++
  lit "Code diff:" ++ [nl] ++ fmt_opt (code_diff commit).

Definition build_prompt (filtered_commits : list CommitDocument)
    (description : str) : str :=
  let all_commit_info := map commit_info filtered_commits in
  let all_commit_info_str := join [nl; nl] all_commit_info in
  [nl] ++
  lit "    Based on the above commit details, provide a single overall answer for the following:" ++ [nl] ++
  lit "Does the combined work in these commits align with the description above? Output only 'yes' or 'no'." ++ [nl] ++
  lit "How much time would an industrial developer take for following code work? Output only a number." ++ [nl] ++
  lit "Description: " ++ description ++ [nl; nl] ++
  lit "Commit Details (all relevant commits):" ++ [nl] ++
  all_commit_info_str ++ [nl; nl].

(** [r'\b(yes|no|\d+(?:\.\d+)?)\b'], compiled with [re.IGNORECASE]. *)
Definition token_pattern : Re.regex :=
  Re.Seq Re.WordB
    (Re.Seq
       (Re.Group
          (Re.Alt (Re.Word (lit "yes"))
             (Re.Alt (Re.Word (lit "no"))
                (Re.Seq (Re.Plus (Re.Class is_digit))
                   (Re.Opt (Re.Seq (Re.Chr "."%char)
                                   (Re.Plus (Re.Class is_digit))))))))
       Re.WordB).

(** [n.lower() in ["yes", "no"]] *)
Definition is_yes_no (n : str) : bool :=
  mem (lower n) [lit "yes"; lit "no"].

(** [n.replace('.', '', 1).isdigit()] *)
Definition is_number (n : str) : bool :=
  isdigit (remove_first "."%char n).

(** The [for n in numbers] loop with its [break]. *)
Fixpoint find_progress (numbers : list str) (progress : str) : str :=
  match numbers with
  | [] => progress
  | n :: numbers' =>
      if is_yes_no n then lower n else find_progress numbers' progress
  end.

(** The local variables the parse leaves. *)
Record parsed : Type := {
  progress : str;
  est_hours : pynum;
  llm_token_count : option Z
}.

(** The statements between [ans = ...] and the [return] of the [try]
    block. *)
Definition parse (ans : str) : result parsed :=
  let progress0 := lit "None" in
  let est_hours0 := PyInt 0 in
  let numbers := Re.findall true token_pattern ans in
  match numbers with
  | [] =>
      Ok {| progress := progress0; est_hours := est_hours0;
            llm_token_count := None |}
  | _ :: _ =>
      let progress1 := find_progress numbers progress0 in
      let num_values := map float (filter is_number numbers) in
      let est_hours1 :=
        match num_values with
        | x :: _ => PyFloat x
        | [] => est_hours0
        end in
      match num_values with
      | _ :: y :: _ =>
          c <- int_of_float y ;;
          Ok {| progress := progress1; est_hours := est_hours1;
                llm_token_count := Some c |}
      | _ =>
          Ok {| progress := progress1; est_hours := est_hours1;
                llm_token_count := None |}
      end
  end.

Section CallLlm.

Variable generate_content : str -> judge_result.

(** The body of the [try] block. *)
Definition try_block (prompt : str) : result (Z * str * pynum) :=
  let token_count := estimate_token_count prompt in
  match generate_content prompt with
  | Raised msg => Raise (JudgeError msg)
  | Returned text =>
      let ans := strip text in
      p <- parse ans ;;
      Ok (200%Z, progress p, est_hours p)
  end.

(** ['context window' in str(e) or 'token' in str(e)] *)
Definition limit_indicator (e : exn) : bool :=
  contains (lit "context window") (exn_str e)
  || contains (lit "token") (exn_str e).

(** The [except Exception as e] handler. *)
Definition handler (e : exn) : Z * str * pynum :=
  if limit_indicator e
  then (413%Z, lit "None", PyInt 0)
  else (500%Z, lit "None", PyInt 0).

Definition call_llm (filtered_commits : list CommitDocument)
    (description : str) : Z * str * pynum :=
  let prompt := build_prompt filtered_commits description in
  match try_block prompt with
  | Ok r => r
  | Raise e => handler e
  end.

End CallLlm.

End Llm.

(** ** Helper: get the commits *)

Module Collector.

(** A call of [requests.get], by its call site. *)
Inductive request : Type :=
| PageRequest (url : str)
| DiffRequest (url : str).

Definition is_page_request (r : request) : bool :=
  match r with
  | PageRequest _ => true
  | DiffRequest _ => false
  end.

(** [r"testcase\s*:\s*\[([^\]]+)\]"], compiled with [re.IGNORECASE]. *)
Definition function_id_pattern : Re.regex :=
  Re.Seq (Re.Word (lit "testcase"))
    (Re.Seq (Re.Star (Re.Class is_space))
       (Re.Seq (Re.Chr ":"%char)
          (Re.Seq (Re.Star (Re.Class is_space))
             (Re.Seq (Re.Chr "["%char)
                (Re.Seq
                   (Re.Group
                      (Re.Plus
                         (Re.Class (fun c => negb (Ascii.eqb c "]"%char)))))
                   (Re.Chr "]"%char)))))).

(** [[x.strip() for x in s.split(",")]] *)
Definition split_ids (s : str) : list str := map strip (split ","%char s).

(** [any(fid in testcase_ids for fid in filter_ids)] *)
Definition any_in (filter_ids testcase_ids : list str) : bool :=
  existsb (fun fid => mem fid testcase_ids) filter_ids.

(** [[fid for fid in testcase_ids if fid in filter_ids]] *)
Definition common_ids (testcase_ids filter_ids : list str) : list str :=
  filter (fun fid => mem fid filter_ids) testcase_ids.

(** [raw.split("<")[0].strip()] *)
Definition username_of (raw : str) : result str :=
  name <- item (split "<"%char raw) 0 ;; Ok (strip name).

(** [raw.split("<")[1].strip().strip('>')] *)
Definition email_of (raw : str) : result str :=
  email <- item (split "<"%char raw) 1 ;;
  Ok (strip_char ">"%char (strip email)).

(** A Python object used as a condition: [None] and the empty string
    are false. *)
Definition truthy (o : option str) : option str :=
  match o with
  | Some [] => None
  | _ => o
  end.

Section GetCommits.

(** [requests.get(url, headers=headers)], by the URL and the token of the
    [Authorization] header. *)
Variable requests_get : str -> str -> Response.

Variables function_id repo_slug repo_token workspace : str.

Definition API_URL : str :=
  lit "https://api.bitbucket.org/2.0/repositories/" ++ workspace ++
  lit "/" ++ repo_slug ++ lit "/commits".

Definition diff_url_of (commit : Commit) : str :=
  lit "https://api.bitbucket.org/2.0/repositories/" ++ workspace ++
  lit "/" ++ repo_slug ++ lit "/diff/" ++ commit_hash commit.

(** The state the loops thread: the requests made so far and
    [filtered_commits]. *)
Definition state : Type := list request * list CommitDocument.

(** The body of [for commit in commits]. *)
Definition commit_body (commit : Commit) (st : state) : state * result unit :=
  let '(trace, filtered_commits) := st in
  let message := strip (commit_message commit) in
  match Re.search true function_id_pattern message with
  | Some group1 =>
      let testcase_ids := split_ids group1 in
      let filter_ids := split_ids function_id in
      if any_in filter_ids testcase_ids then
        let diff_url := diff_url_of commit in
        let diff_response := requests_get diff_url repo_token in
        let trace := trace ++ [DiffRequest diff_url] in
        let code_diff :=
          if (status_code diff_response =? 200)%Z
          then Some (text diff_response) else None in
        match
          (username <- username_of (author_raw commit) ;;
           email <- email_of (author_raw commit) ;;
           Ok {| hash := commit_hash commit;
                 message := message;
                 author_username := username;
                 author_email := email;
                 Data.function_id :=
                   join (lit ", ") (common_ids testcase_ids filter_ids);
                 code_diff := code_diff |})
        with
        | Ok commit_document =>
            ((trace, filtered_commits ++ [commit_document]), Ok tt)
        | Raise e => ((trace, filtered_commits), Raise e)
        end
      else (st, Ok tt)
  | None => (st, Ok tt)
  end.

Fixpoint for_commits (commits : list Commit) (st : state)
  : state * result unit :=
  match commits with
  | [] => (st, Ok tt)
  | commit :: commits' =>
      match commit_body commit st with
      | (st', Ok _) => for_commits commits' st'
      | (st', Raise e) => (st', Raise e)
      end
  end.

(** What a call leaves: the requests it made, and the returned pair or
    the exception that ended it. *)
Definition outcome : Type := list request * result (Z * list CommitDocument).

(** The [while next_url] loop and the [return] after it; [None] when the
    fuel runs out before the loop ends. *)
Fixpoint while_next_url (fuel : nat) (next_url : option str)
    (first_connection : bool) (st : state) : option outcome :=
  match truthy next_url with
  | None =>
      match snd st with
      | _ :: _ => Some (fst st, Ok (200%Z, snd st))
      | [] => Some (fst st, Ok (404%Z, []))
      end
  | Some url =>
      match fuel with
      | O => None
      | S fuel' =>
          let response := requests_get url repo_token in
          let st := (fst st ++ [PageRequest url], snd st) in
          if first_connection && negb (status_code response =? 200)%Z
          then Some (fst st, Ok (status_code response, []))
          else
            if (status_code response =? 200)%Z then
              let data := json response in
              match for_commits (values data) st with
              | (st', Ok _) => while_next_url fuel' (next data) false st'
              | (st', Raise e) => Some (fst st', Raise e)
              end
            else while_next_url fuel' None false st
      end
  end.

Definition get_commits (fuel : nat) : option outcome :=
  while_next_url fuel (Some API_URL) true ([], []).

End GetCommits.

End Collector.

(** ** The endpoint *)

Module Endpoint.

(** The body of a request: [AnalyzeRequest]. *)
Record AnalyzeRequest : Type := {
  function_id : str;
  repo_slug : str;
  repo_token : str;
  workspace : str;
  description : str
}.

(** What a call of [analyze] ends with: an exception that nothing
    catches, a raised [HTTPException], or the returned dictionary
    [{"status": "success", "progress": ..., "estimated_hours": ...}]. *)
Inductive response : Type :=
| Uncaught (e : exn)
| HTTPException (status_code : Z) (detail : str)
| Success (progress : str) (estimated_hours : pynum).

Section Analyze.

Variable requests_get : str -> str -> Response.
Variable generate_content : str -> Llm.judge_result.

(** [analyze]; the fuel is that of the loop of [get_commits]. *)
Definition analyze (fuel : nat) (req : AnalyzeRequest) : option response :=
  match
    Collector.get_commits requests_get (function_id req) (repo_slug req)
      (repo_token req) (workspace req) fuel
  with
  | None => None
  | Some (_, Raise e) => Some (Uncaught e)
  | Some (_, Ok (code_status, filtered_commits)) =>
      if (code_status =? 404)%Z then
        Some (HTTPException 404
                (lit "No commits found for the given function ID(s)."))
      else if negb (code_status =? 200)%Z then
        Some (HTTPException code_status
                (lit "Failed to connect to Bitbucket."))
      else
        let '(llm_status, progress, est_hours) :=
          Llm.call_llm generate_content filtered_commits (description req) in
        if (llm_status =? 413)%Z then
          Some (HTTPException 413 (lit "LLM input too large."))
        else if negb (llm_status =? 200)%Z then
          Some (HTTPException llm_status (lit "LLM processing failed."))
        else Some (Success progress est_hours)
  end.

End Analyze.

End Endpoint.

Unset Implicit Arguments.

(** * The model on sample inputs *)

Module Samples.

Import Llm Collector.

(** The code points below 256, and the classes among them. *)
Definition code_points : list ascii := map chr (seq 0 256).

Example is_space_codes :
  map code (filter is_space code_points) =
  seq 9 5 ++ seq 28 5 ++ [133; 160].
Proof. vm_compute. reflexivity. Qed.

Example is_digit_codes :
  map code (filter is_digit code_points) = seq 48 10 /\
  map code (filter isdigit_char code_points) = seq 48 10 ++ [178; 179; 185].
Proof. split; vm_compute; reflexivity. Qed.

Example is_word_codes :
  map code (filter is_word code_points) =
  seq 48 10 ++ seq 65 26 ++ [95] ++ seq 97 26 ++
  [170; 178; 179; 181; 185; 186; 188; 189; 190] ++
  seq 192 23 ++ seq 216 31 ++ seq 248 8.
Proof. vm_compute. reflexivity. Qed.

Example lower_char_codes :
  map code (filter (fun c => negb (Ascii.eqb (lower_char c) c)) code_points) =
  seq 65 26 ++ seq 192 23 ++ seq 216 7 /\
  forallb (fun c => Ascii.eqb (lower_char c) c
                    || (code (lower_char c) =? code c + 32)) code_points =
  true.
Proof. split; vm_compute; reflexivity. Qed.

Example strip_sample : strip (lit "  a b  ") = lit "a b".
Proof. reflexivity. Qed.

(** U+00A0 and U+0085 are whitespace. *)
Example strip_wide :
  strip (chr 160 :: lit "Jane" ++ [chr 133; chr 160]) = lit "Jane" /\
  split_ids (lit "A ," ++ [chr 160] ++ lit "B" ++ [chr 160]) =
  [lit "A"; lit "B"].
Proof. split; vm_compute; reflexivity. Qed.

Example strip_char_sample : strip_char ">"%char (lit ">>a>b>") = lit "a>b".
Proof. reflexivity. Qed.

Example split_sample :
  split ","%char (lit "a,b,,c") = [lit "a"; lit "b"; []; lit "c"].
Proof. reflexivity. Qed.

Example split_no_separator : split "<"%char (lit "build-bot") = [lit "build-bot"].
Proof. reflexivity. Qed.

Example tag_block_sample :
  Re.search true function_id_pattern
    (lit "fix TestCase  :[TC1000, TC1001 ] and testcase: [x]") =
  Some (lit "TC1000, TC1001 ").
Proof. vm_compute. reflexivity. Qed.

Example tag_block_empty :
  Re.search true function_id_pattern (lit "testcase: []") = None.
Proof. vm_compute. reflexivity. Qed.

(** [\s] takes U+00A0: the first block is the one that is read. *)
Example tag_block_wide :
  Re.search true function_id_pattern
    (lit "testcase" ++ [chr 160] ++ lit ": [X] testcase: [B]") =
  Some (lit "X").
Proof. vm_compute. reflexivity. Qed.

(** The word boundaries, the greedy fraction and its backtracking. *)
Example tokens_sample :
  Re.findall true token_pattern
    (lit "12.5abc 123abc 12.5.3 YES nope no_1 7. .5 1.25") =
  [lit "12"; lit "12.5"; lit "3"; lit "YES"; lit "7"; lit "5"; lit "1.25"].
Proof. vm_compute. reflexivity. Qed.

(** A letter of code 233 is a word character: no boundary next to it. *)
Example tokens_wide :
  Re.findall true token_pattern (lit "yes" ++ [chr 233] ++ lit " 5") =
  [lit "5"] /\
  Re.findall true token_pattern (lit "12.5" ++ [chr 233]) = [lit "12"] /\
  Re.findall true token_pattern (chr 233 :: lit "yes 3") = [lit "3"].
Proof. repeat split; vm_compute; reflexivity. Qed.

Example float_eight : float (lit "8") = FFinite 8.
Proof. vm_compute. reflexivity. Qed.

Example float_tenth :
  float (lit "0.1") = FFinite (3602879701896397 # 36028797018963968).
Proof. vm_compute. reflexivity. Qed.

(** Ties go to the even neighbour: [2^53 + 1] becomes [2^53]. *)
Example float_tie :
  float (lit "9007199254740993") = FFinite 9007199254740992.
Proof. vm_compute. reflexivity. Qed.

(** The largest finite float is [2^1024 - 2^971]; a numeral of
    [2^1024 - 2^970] or more becomes [inf]. *)
Example float_largest :
  float (lit "179769313486231580793728971405303415079934132710037826936173778980444968292764750946649017977587207096330286416692887910946555547851940402630657488671505820681908902000708383676273854845817711531764475730270069855571366959622842914819860834936475292719074168444365510704342711559699508093042880177904174497791") =
  FFinite (inject_Z (2 ^ 1024 - 2 ^ 971)).
Proof. vm_compute. reflexivity. Qed.

Example float_overflow :
  float (lit "179769313486231580793728971405303415079934132710037826936173778980444968292764750946649017977587207096330286416692887910946555547851940402630657488671505820681908902000708383676273854845817711531764475730270069855571366959622842914819860834936475292719074168444365510704342711559699508093042880177904174497792") =
  FInf /\
  float (lit "1" ++ repeat "0"%char 309) = FInf.
Proof. split; vm_compute; reflexivity. Qed.

Example estimate_sample : estimate_token_count (lit "0123456789") = 2.
Proof. reflexivity. Qed.

(** The samples of the specification. *)
Example verdict_sample_yes :
  call_llm
    (fun _ => Returned (lit "The work looks complete. Answer: yes. Hours: 12."))
    [] [] =
  (200%Z, lit "yes", PyFloat (FFinite 12)).
Proof. vm_compute. reflexivity. Qed.

Example verdict_sample_no :
  call_llm (fun _ => Returned (lit "no, 8, 450")) [] [] =
  (200%Z, lit "no", PyFloat (FFinite 8)).
Proof. vm_compute. reflexivity. Qed.

End Samples.

(** * Facts on the verdict extraction *)

Module LlmFacts.

Import Llm.

(** The tokens the scan finds in a response text: [numbers]. *)
Definition numbers (text : str) : list str :=
  Re.findall true token_pattern (strip text).

(** The first yes/no token, lowered, or the default. *)
Definition first_yes_no (tokens : list str) : str :=
  match find is_yes_no tokens with
  | Some t => lower t
  | None => lit "None"
  end.

(** The numeric tokens, in order of appearance. *)
Definition numeric_tokens (tokens : list str) : list str :=
  filter is_number tokens.

(** The first numeric token as a float, or the default. *)
Definition first_number (tokens : list str) : pynum :=
  match numeric_tokens tokens with
  | t :: _ => PyFloat (float t)
  | [] => PyInt 0
  end.

(** The second numeric token is there and converts to [inf]. *)
Definition second_overflows (tokens : list str) : bool :=
  match numeric_tokens tokens with
  | _ :: y :: _ => match float y with FInf => true | FFinite _ => false end
  | _ => false
  end.

Lemma find_progress_find (tokens : list str) (d : str) :
  find_progress tokens d =
  match find is_yes_no tokens with
  | Some t => lower t
  | None => d
  end.
Proof.
  induction tokens as [|t ts IH]; simpl.
  - reflexivity.
  - destruct (is_yes_no t); [reflexivity | exact IH].
Qed.

Lemma parse_finite (ans : str) :
  let tokens := Re.findall true token_pattern ans in
  second_overflows tokens = false ->
  exists c,
    parse ans = Ok {| progress := first_yes_no tokens;
                      est_hours := first_number tokens;
                      llm_token_count := c |}.
Proof.
  intros tokens. unfold parse, second_overflows, first_yes_no, first_number,
    numeric_tokens. fold tokens.
  destruct tokens as [|t ts] eqn:E.
  - intros _. simpl. eexists. reflexivity.
  - rewrite find_progress_find.
    destruct (filter is_number (t :: ts)) as [|x [|y l]]; simpl.
    + intros _. eexists. reflexivity.
    + intros _. eexists. reflexivity.
    + destruct (float y); [discriminate|]. intros _. simpl.
      eexists. reflexivity.
Qed.

Lemma parse_overflow (ans : str) :
  second_overflows (Re.findall true token_pattern ans) = true ->
  parse ans = Raise OverflowError.
Proof.
  unfold parse, second_overflows, numeric_tokens.
  destruct (Re.findall true token_pattern ans) as [|t ts].
  - discriminate.
  - destruct (filter is_number (t :: ts)) as [|x [|y l]]; simpl;
      try discriminate.
    destruct (float y); [reflexivity | discriminate].
Qed.

Section Judge.

Variable generate_content : str -> judge_result.
Variable filtered_commits : list CommitDocument.
Variable description : str.

Let prompt := build_prompt filtered_commits description.

(** The verdict of a returned text whose second numeric token, if any,
    is a finite float: the first yes/no token and the first numeric
    token, each on its own. *)
Lemma call_llm_returned (text : str) :
  generate_content prompt = Returned text ->
  second_overflows (numbers text) = false ->
  call_llm generate_content filtered_commits description =
  (200%Z, first_yes_no (numbers text), first_number (numbers text)).
Proof.
  intros Hj Hf. unfold call_llm, try_block. fold prompt. rewrite Hj.
  destruct (parse_finite (strip text) Hf) as [c Hc].
  rewrite Hc. reflexivity.
Qed.

(** The verdict of a returned text whose second numeric token converts
    to [inf]: [int] raises inside the [try] block. *)
Lemma call_llm_overflow (text : str) :
  generate_content prompt = Returned text ->
  second_overflows (numbers text) = true ->
  call_llm generate_content filtered_commits description =
  (500%Z, lit "None", PyInt 0).
Proof.
  intros Hj Hf. unfold call_llm, try_block. fold prompt. rewrite Hj.
  rewrite (parse_overflow (strip text) Hf). reflexivity.
Qed.

Lemma call_llm_raised (msg : str) :
  generate_content prompt = Raised msg ->
  call_llm generate_content filtered_commits description =
  if limit_indicator (JudgeError msg)
  then (413%Z, lit "None", PyInt 0)
  else (500%Z, lit "None", PyInt 0).
Proof.
  intros Hj. unfold call_llm, try_block. fold prompt. rewrite Hj.
  reflexivity.
Qed.

End Judge.

End LlmFacts.

(** * Facts on strings *)

Module StrFacts.

(** [c in s] for a character. *)
Definition has_char (c : ascii) (s : str) : bool := existsb (Ascii.eqb c) s.

Lemma str_eqb_eq (a b : str) : str_eqb a b = true <-> a = b.
Proof.
  unfold str_eqb. destruct (list_eq_dec ascii_dec a b); split; congruence.
Qed.

Lemma str_eqb_refl (a : str) : str_eqb a a = true.
Proof. now apply str_eqb_eq. Qed.

Lemma mem_In (x : str) (l : list str) : mem x l = true <-> In x l.
Proof.
  unfold mem. rewrite existsb_exists. split.
  - intros [y [Hy He]]. apply str_eqb_eq in He. now subst.
  - intros H. exists x. split; [assumption | apply str_eqb_refl].
Qed.

Lemma has_char_app (c : ascii) (a b : str) :
  has_char c (a ++ b) = has_char c a || has_char c b.
Proof. apply existsb_app. Qed.

Lemma split_nonempty (sep : ascii) (s : str) : split sep s <> [].
Proof.
  destruct s as [|c s]; simpl; [discriminate|].
  destruct (Ascii.eqb c sep); [discriminate|].
  destruct (split sep s); discriminate.
Qed.

Lemma split_without (sep : ascii) (s : str) :
  has_char sep s = false -> split sep s = [s].
Proof.
  induction s as [|c s IH]; simpl; [reflexivity|].
  rewrite Ascii.eqb_sym. destruct (Ascii.eqb c sep); simpl; [discriminate|].
  intros H. rewrite (IH H). reflexivity.
Qed.

Lemma split_app (sep : ascii) (a b : str) :
  has_char sep a = false -> split sep (a ++ sep :: b) = a :: split sep b.
Proof.
  induction a as [|c a IH]; simpl.
  - intros _. rewrite Ascii.eqb_refl. reflexivity.
  - rewrite Ascii.eqb_sym. destruct (Ascii.eqb c sep); simpl; [discriminate|].
    intros H. rewrite (IH H). reflexivity.
Qed.

Lemma split_with (sep : ascii) (s : str) :
  has_char sep s = true ->
  exists a b l, split sep s = a :: b :: l.
Proof.
  induction s as [|c s IH]; simpl; [discriminate|].
  rewrite Ascii.eqb_sym. destruct (Ascii.eqb c sep); simpl.
  - intros _. destruct (split sep s) as [|b l] eqn:E.
    + now apply split_nonempty in E.
    + now exists [], b, l.
  - intros H. destruct (IH H) as [a [b [l E]]]. rewrite E.
    now exists (c :: a), b, l.
Qed.

(** Stripping. *)
Lemma lstrip_by_app_keep (p : ascii -> bool) (a b : str) :
  lstrip_by p a <> [] -> lstrip_by p (a ++ b) = lstrip_by p a ++ b.
Proof.
  induction a as [|c a IH]; simpl; [congruence|].
  destruct (p c); [exact IH | reflexivity].
Qed.

Lemma lstrip_by_all (p : ascii -> bool) (a b : str) :
  lstrip_by p a = [] -> lstrip_by p (a ++ b) = lstrip_by p b.
Proof.
  induction a as [|c a IH]; simpl; [reflexivity|].
  destruct (p c); [exact IH | discriminate].
Qed.

Lemma lstrip_by_length (p : ascii -> bool) (s : str) :
  length (lstrip_by p s) <= length s.
Proof.
  induction s as [|c s IH]; simpl; [lia|].
  destruct (p c); simpl; lia.
Qed.

Lemma lstrip_by_fixed (p : ascii -> bool) (s : str) :
  length (lstrip_by p s) = length s -> lstrip_by p s = s.
Proof.
  destruct s as [|c s]; simpl; [reflexivity|].
  destruct (p c); [|reflexivity].
  intros H. pose proof (lstrip_by_length p s). lia.
Qed.

Lemma rstrip_by_length (p : ascii -> bool) (s : str) :
  length (rstrip_by p s) <= length s.
Proof.
  unfold rstrip_by. rewrite length_rev.
  pose proof (lstrip_by_length p (rev s)). rewrite length_rev in H. exact H.
Qed.

(** A string that [strip_by] leaves alone is left alone by each side. *)
Lemma strip_by_fixed (p : ascii -> bool) (s : str) :
  strip_by p s = s -> lstrip_by p s = s /\ rstrip_by p s = s.
Proof.
  intros H.
  assert (L : lstrip_by p s = s).
  { apply lstrip_by_fixed. apply Nat.le_antisymm.
    - apply lstrip_by_length.
    - rewrite <- H at 1. apply rstrip_by_length. }
  split; [exact L|]. unfold strip_by in H. rewrite L in H. exact H.
Qed.

Lemma rstrip_by_snoc_drop (p : ascii -> bool) (s : str) (c : ascii) :
  p c = true -> rstrip_by p (s ++ [c]) = rstrip_by p s.
Proof.
  intros H. unfold rstrip_by. rewrite rev_unit. simpl. rewrite H. reflexivity.
Qed.

Lemma rstrip_by_snoc_keep (p : ascii -> bool) (s : str) (c : ascii) :
  p c = false -> rstrip_by p (s ++ [c]) = s ++ [c].
Proof.
  intros H. unfold rstrip_by. rewrite rev_unit. simpl. rewrite H.
  simpl. rewrite rev_involutive. reflexivity.
Qed.

Lemma lstrip_by_without (p : ascii -> bool) (s : str) :
  existsb p s = false -> lstrip_by p s = s.
Proof.
  destruct s as [|c s]; simpl; [reflexivity|].
  destruct (p c); [discriminate | reflexivity].
Qed.

Lemma existsb_rev_eq (p : ascii -> bool) (s : str) :
  existsb p (rev s) = existsb p s.
Proof.
  induction s as [|c s IH]; simpl; [reflexivity|].
  rewrite existsb_app, IH. simpl. rewrite orb_false_r. apply orb_comm.
Qed.

Lemma rstrip_by_without (p : ascii -> bool) (s : str) :
  existsb p s = false -> rstrip_by p s = s.
Proof.
  intros H. unfold rstrip_by. rewrite lstrip_by_without.
  - apply rev_involutive.
  - rewrite existsb_rev_eq. exact H.
Qed.

End StrFacts.

(** * Facts on the collector *)

Module CollectorFacts.

Import Collector StrFacts.

Arguments Collector.commit_body : simpl never.
Arguments Collector.for_commits : simpl nomatch.

Lemma username_of_ok (raw : str) :
  exists name, username_of raw = Ok name.
Proof.
  unfold username_of, item, index.
  destruct (split "<"%char raw) as [|a l] eqn:E.
  - now apply split_nonempty in E.
  - simpl. eexists. reflexivity.
Qed.

Lemma email_of_with (raw : str) :
  has_char "<"%char raw = true -> exists email, email_of raw = Ok email.
Proof.
  intros H. destruct (split_with _ _ H) as [a [b [l E]]].
  unfold email_of, item, index. rewrite E. simpl. eexists. reflexivity.
Qed.

Lemma email_of_without (raw : str) :
  has_char "<"%char raw = false -> email_of raw = Raise IndexError.
Proof.
  intros H. unfold email_of, item, index. rewrite (split_without _ _ H).
  reflexivity.
Qed.

Section Facts.

Variable requests_get : str -> str -> Response.
Variables function_id repo_slug repo_token workspace : str.

Local Abbreviation commit_body :=
  (commit_body requests_get function_id repo_slug repo_token workspace).
Local Abbreviation for_commits :=
  (for_commits requests_get function_id repo_slug repo_token workspace).
Local Abbreviation while_next_url :=
  (while_next_url requests_get function_id repo_slug repo_token workspace).
Local Abbreviation get_commits :=
  (get_commits requests_get function_id repo_slug repo_token workspace).
Local Abbreviation API_URL := (API_URL repo_slug workspace).
Local Abbreviation diff_url_of := (diff_url_of repo_slug workspace).

(** The tag block of a message: what [match.group(1)] holds. *)
Definition tag_block (message : str) : option str :=
  Re.search true function_id_pattern message.

(** The commit passes the filter: its message has a tag block and one of
    the requested ids is among its tag ids. *)
Definition is_match (commit : Commit) : bool :=
  match tag_block (strip (commit_message commit)) with
  | Some group1 => any_in (split_ids function_id) (split_ids group1)
  | None => false
  end.

(** The commit passes the filter and its author has no ["<"]. *)
Definition aborts (commit : Commit) : bool :=
  is_match commit && negb (has_char "<"%char (author_raw commit)).

(** The requests a commit causes and the documents it adds. *)
Definition diffs (commit : Commit) : list request :=
  if is_match commit then [DiffRequest (diff_url_of commit)] else [].

Definition emits (commit : Commit) : list CommitDocument :=
  snd (fst (commit_body commit ([], []))).

Lemma commit_body_frame (commit : Commit) (trace : list request)
    (filtered_commits : list CommitDocument) :
  commit_body commit (trace, filtered_commits) =
  ((trace ++ diffs commit, filtered_commits ++ emits commit),
   if aborts commit then Raise IndexError else Ok tt).
Proof.
  unfold emits, diffs, aborts, is_match, tag_block, Collector.commit_body.
  destruct (Re.search true function_id_pattern (strip (commit_message commit)))
    as [group1|]; simpl.
  2: { now rewrite !app_nil_r. }
  destruct (any_in (split_ids function_id) (split_ids group1)); simpl.
  2: { now rewrite !app_nil_r. }
  destruct (username_of_ok (author_raw commit)) as [name Hn]. rewrite Hn.
  destruct (has_char "<"%char (author_raw commit)) eqn:Hc; simpl.
  - destruct (email_of_with _ Hc) as [email He]. rewrite He. reflexivity.
  - rewrite (email_of_without _ Hc). simpl. now rewrite app_nil_r.
Qed.

Lemma emits_skip (commit : Commit) :
  is_match commit = false -> emits commit = [].
Proof.
  unfold emits, is_match, tag_block, Collector.commit_body.
  destruct (Re.search true function_id_pattern (strip (commit_message commit)))
    as [group1|]; [|reflexivity].
  intros H. rewrite H. reflexivity.
Qed.

Lemma for_commits_cons (commit : Commit) (commits : list Commit)
    (st : state) :
  for_commits (commit :: commits) st =
  match commit_body commit st with
  | (st', Ok _) => for_commits commits st'
  | (st', Raise e) => (st', Raise e)
  end.
Proof. reflexivity. Qed.

(** The documents a list of commits adds when none aborts. *)
Lemma for_commits_ok (commits : list Commit) :
  forall trace filtered_commits,
  existsb aborts commits = false ->
  for_commits commits (trace, filtered_commits) =
  ((trace ++ flat_map diffs commits,
    filtered_commits ++ flat_map emits commits), Ok tt).
Proof.
  induction commits as [|c cs IH]; intros trace filtered_commits; simpl.
  - intros _. now rewrite !app_nil_r.
  - intros H. apply orb_false_iff in H. destruct H as [Hc Hcs].
    rewrite for_commits_cons, commit_body_frame, Hc. rewrite (IH _ _ Hcs).
    now rewrite <- !app_assoc.
Qed.

(** A commit that aborts ends the loop with the [IndexError]. *)
Lemma for_commits_abort (commits : list Commit) :
  forall st,
  existsb aborts commits = true ->
  exists st', for_commits commits st = (st', Raise IndexError).
Proof.
  induction commits as [|c cs IH]; intros [trace filtered_commits]; simpl.
  - discriminate.
  - intros H. rewrite for_commits_cons, commit_body_frame.
    destruct (aborts c) eqn:Hc.
    + eexists. reflexivity.
    + simpl in H. apply IH. exact H.
Qed.

(** ** Pagination *)

Definition page_of (url : str) : Page := json (requests_get url repo_token).

(** [follow next_url urls]: starting with [next_url], the history source
    serves the pages at [urls] one after the other, each with status 200
    and each reached by the [next] pointer of the one before; the result
    is the [next] pointer of the last of them. *)
Fixpoint follow (next_url : option str) (urls : list str)
  : option (option str) :=
  match urls with
  | [] => Some next_url
  | url :: urls' =>
      match truthy next_url with
      | Some u =>
          if str_eqb u url
             && (status_code (requests_get url repo_token) =? 200)%Z
          then follow (next (page_of url)) urls'
          else None
      | None => None
      end
  end.

Definition commits_of (urls : list str) : list Commit :=
  flat_map (fun url => values (page_of url)) urls.

(** The requests a run over the pages at [urls] makes, in order. *)
Definition trace_of (urls : list str) : list request :=
  flat_map (fun url => PageRequest url :: flat_map diffs (values (page_of url)))
    urls.

(** The [return] after the loop. *)
Definition finish (filtered_commits : list CommitDocument)
  : Z * list CommitDocument :=
  match filtered_commits with
  | _ :: _ => (200%Z, filtered_commits)
  | [] => (404%Z, [])
  end.

Lemma while_stop (fuel : nat) (next_url : option str) (first : bool)
    (st : state) :
  truthy next_url = None ->
  while_next_url fuel next_url first st = Some (fst st, Ok (finish (snd st))).
Proof.
  intros H. destruct fuel; simpl; rewrite H; unfold finish;
    destruct (snd st); reflexivity.
Qed.

Lemma while_step (fuel : nat) (next_url : option str) (first : bool)
    (st : state) (url : str) :
  truthy next_url = Some url ->
  while_next_url (S fuel) next_url first st =
  let response := requests_get url repo_token in
  let st := (fst st ++ [PageRequest url], snd st) in
  if first && negb (status_code response =? 200)%Z
  then Some (fst st, Ok (status_code response, []))
  else
    if (status_code response =? 200)%Z then
      match for_commits (values (json response)) st with
      | (st', Ok _) => while_next_url fuel (next (json response)) false st'
      | (st', Raise e) => Some (fst st', Raise e)
      end
    else while_next_url fuel None false st.
Proof. intros H. simpl. rewrite H. reflexivity. Qed.

Lemma follow_cons (next_url : option str) (url : str) (urls : list str)
    (nxt : option str) :
  follow next_url (url :: urls) = Some nxt ->
  truthy next_url = Some url /\
  (status_code (requests_get url repo_token) =? 200)%Z = true /\
  follow (next (page_of url)) urls = Some nxt.
Proof.
  simpl. destruct (truthy next_url) as [u|]; [|discriminate].
  destruct (str_eqb u url) eqn:E; simpl; [|discriminate].
  apply str_eqb_eq in E. subst u.
  destruct (status_code (requests_get url repo_token) =? 200)%Z;
    [|discriminate].
  auto.
Qed.

(** A run over pages none of whose commits aborts. *)
Lemma while_follow (urls : list str) :
  forall next_url nxt first trace filtered_commits fuel,
  follow next_url urls = Some nxt ->
  existsb aborts (commits_of urls) = false ->
  while_next_url (length urls + fuel) next_url first
    (trace, filtered_commits) =
  while_next_url fuel nxt
    (first && match urls with [] => true | _ :: _ => false end)
    (trace ++ trace_of urls,
     filtered_commits ++ flat_map emits (commits_of urls)).
Proof.
  induction urls as [|url urls IH];
    intros next_url nxt first trace filtered_commits fuel Hf Ha.
  - simpl in Hf. injection Hf as <-. simpl.
    now rewrite !app_nil_r, andb_true_r.
  - apply follow_cons in Hf. destruct Hf as [Hu [Hs Hf]].
    unfold commits_of in Ha. simpl in Ha. rewrite existsb_app in Ha.
    apply orb_false_iff in Ha. destruct Ha as [Ha1 Ha2].
    change (length (url :: urls) + fuel) with (S (length urls + fuel)).
    rewrite (while_step _ _ _ _ _ Hu). cbv zeta. rewrite Hs.
    rewrite andb_false_r. simpl fst. simpl snd.
    fold (page_of url). rewrite (for_commits_ok _ _ _ Ha1).
    rewrite (IH _ _ _ _ _ _ Hf Ha2). rewrite andb_false_r.
    unfold commits_of, trace_of. simpl flat_map.
    rewrite flat_map_app. rewrite <- !app_assoc. simpl.
    destruct urls; reflexivity.
Qed.

(** A run over pages one of whose commits aborts. *)
Lemma while_abort (urls : list str) :
  forall next_url nxt first st fuel,
  follow next_url urls = Some nxt ->
  existsb aborts (commits_of urls) = true ->
  length urls <= fuel ->
  exists trace,
    while_next_url fuel next_url first st = Some (trace, Raise IndexError).
Proof.
  induction urls as [|url urls IH];
    intros next_url nxt first st fuel Hf Ha Hl.
  - discriminate.
  - apply follow_cons in Hf. destruct Hf as [Hu [Hs Hf]].
    unfold commits_of in Ha. simpl in Ha. rewrite existsb_app in Ha.
    destruct fuel as [|fuel]; [simpl in Hl; lia|].
    rewrite (while_step _ _ _ _ _ Hu). cbv zeta. rewrite Hs.
    rewrite andb_false_r. fold (page_of url).
    destruct (existsb aborts (values (page_of url))) eqn:Ha1.
    + destruct (for_commits_abort _
                  (fst st ++ [PageRequest url], snd st) Ha1) as [st' E].
      rewrite E. eexists. reflexivity.
    + destruct st as [trace filtered_commits]. simpl fst. simpl snd.
      rewrite (for_commits_ok _ _ _ Ha1).
      apply (IH _ nxt); [exact Hf | exact Ha | simpl in Hl; lia].
Qed.

Lemma API_URL_truthy : truthy (Some API_URL) = Some API_URL.
Proof. reflexivity. Qed.

Lemma page_requests_of_diffs (commits : list Commit) :
  filter is_page_request (flat_map diffs commits) = [].
Proof.
  induction commits as [|c cs IH]; simpl; [reflexivity|].
  rewrite filter_app, IH, app_nil_r. unfold diffs.
  destruct (is_match c); reflexivity.
Qed.

(** The page requests of a run are the pages' URLs, in order. *)
Lemma page_requests_of_trace (urls : list str) :
  filter is_page_request (trace_of urls) = map PageRequest urls.
Proof.
  induction urls as [|url urls IH]; simpl; [reflexivity|].
  rewrite filter_app, page_requests_of_diffs, IH. reflexivity.
Qed.

(** A first page that fails ends the call with its status. *)
Lemma first_page_failure (fuel : nat) :
  (status_code (requests_get API_URL repo_token) =? 200)%Z = false ->
  get_commits (S fuel) =
  Some ([PageRequest API_URL],
        Ok (status_code (requests_get API_URL repo_token), [])).
Proof.
  intros H. unfold Collector.get_commits.
  rewrite (while_step _ _ _ _ _ API_URL_truthy). cbv zeta.
  rewrite H. reflexivity.
Qed.

(** A run over complete pages. *)
Lemma get_commits_complete (urls : list str) (nxt : option str) (fuel : nat) :
  follow (Some API_URL) urls = Some nxt ->
  truthy nxt = None ->
  existsb aborts (commits_of urls) = false ->
  length urls <= fuel ->
  get_commits fuel =
  Some (trace_of urls, Ok (finish (flat_map emits (commits_of urls)))).
Proof.
  intros Hf Hn Ha Hl. unfold Collector.get_commits.
  replace fuel with (length urls + (fuel - length urls)) by lia.
  rewrite (while_follow _ _ _ _ _ _ _ Hf Ha).
  rewrite (while_stop _ _ _ _ Hn). reflexivity.
Qed.






(** ** What a document holds *)

(** The document comes from a message with a tag block, one of whose ids
    is requested, and its [function_id] joins the requested ids of the
    block, in the block's order. *)
Definition tagged (doc : CommitDocument) : Prop :=
  exists group1,
    tag_block (message doc) = Some group1 /\
    any_in (split_ids function_id) (split_ids group1) = true /\
    Data.function_id doc =
    join (lit ", ") (common_ids (split_ids group1) (split_ids function_id)).

Lemma emits_tagged (commit : Commit) (doc : CommitDocument) :
  In doc (emits commit) -> tagged doc.
Proof.
  unfold emits, Collector.commit_body.
  destruct (Re.search true function_id_pattern (strip (commit_message commit)))
    as [group1|] eqn:Es; [|intros []].
  destruct (any_in (split_ids function_id) (split_ids group1)) eqn:Ea;
    [|intros []].
  destruct (username_of (author_raw commit)) as [name|]; [|intros []].
  destruct (email_of (author_raw commit)) as [email|]; [|intros []].
  simpl. intros [<-|[]]. exists group1. simpl. auto.
Qed.

Lemma emits_author (commit : Commit) (doc : CommitDocument) :
  In doc (emits commit) ->
  username_of (author_raw commit) = Ok (author_username doc) /\
  email_of (author_raw commit) = Ok (author_email doc).
Proof.
  unfold emits, Collector.commit_body.
  destruct (Re.search true function_id_pattern (strip (commit_message commit)))
    as [group1|] eqn:Es; [|intros []].
  destruct (any_in (split_ids function_id) (split_ids group1)) eqn:Ea;
    [|intros []].
  destruct (username_of (author_raw commit)) as [name|]; [|intros []].
  destruct (email_of (author_raw commit)) as [email|]; [|intros []].
  simpl. intros [<-|[]]. simpl. auto.
Qed.

Lemma for_commits_tagged (commits : list Commit) :
  forall st,
  Forall tagged (snd st) -> Forall tagged (snd (fst (for_commits commits st))).
Proof.
  induction commits as [|c cs IH]; intros [trace filtered_commits] H.
  - exact H.
  - rewrite for_commits_cons, commit_body_frame.
    assert (H' : Forall tagged (filtered_commits ++ emits c)).
    { apply Forall_app. split; [exact H|].
      apply Forall_forall. intros doc. apply emits_tagged. }
    destruct (aborts c).
    + exact H'.
    + apply IH. exact H'.
Qed.

Lemma while_tagged (fuel : nat) :
  forall next_url first st trace status docs,
  Forall tagged (snd st) ->
  while_next_url fuel next_url first st = Some (trace, Ok (status, docs)) ->
  Forall tagged docs.
Proof.
  induction fuel as [|fuel IH]; intros next_url first st trace status docs Hst.
  - simpl. destruct (truthy next_url); [discriminate|].
    destruct (snd st) eqn:E; intros H; injection H as _ _ <-;
      [constructor | exact Hst].
  - destruct (truthy next_url) as [url|] eqn:Hu.
    + rewrite (while_step _ _ _ _ _ Hu). cbv zeta.
      destruct (first && negb (status_code (requests_get url repo_token) =? 200)%Z).
      { intros H. injection H as _ _ <-. constructor. }
      destruct (status_code (requests_get url repo_token) =? 200)%Z.
      * pose proof (for_commits_tagged
          (values (json (requests_get url repo_token)))
          (fst st ++ [PageRequest url], snd st) Hst) as Hc.
        destruct (for_commits (values (json (requests_get url repo_token)))
                    (fst st ++ [PageRequest url], snd st)) as [st' [u|e]].
        -- apply IH. exact Hc.
        -- discriminate.
      * apply IH. exact Hst.
    + rewrite (while_stop _ _ _ _ Hu). unfold finish.
      destruct (snd st) eqn:E; intros H; injection H as _ _ <-;
        [constructor | exact Hst].
Qed.

End Facts.

(** ** Two sources that agree *)



(** ** Joined lists *)

Fixpoint total_length (sep : str) (l : list str) : nat :=
  match l with
  | [] => 0
  | x :: l' => length x + length sep + total_length sep l'
  end.

Lemma join_length (sep : str) (l : list str) :
  l <> [] -> length (join sep l) + length sep = total_length sep l.
Proof.
  induction l as [|x l IH]; [congruence|]. intros _.
  destruct l as [|y l].
  - simpl. lia.
  - change (join sep (x :: y :: l)) with (x ++ sep ++ join sep (y :: l)).
    rewrite !length_app. simpl total_length in *.
    assert (y :: l <> []) by discriminate. specialize (IH H). lia.
Qed.

Lemma total_length_filter (sep : str) (f : str -> bool) (l : list str) :
  total_length sep (filter f l) <= total_length sep l.
Proof.
  induction l as [|x l IH]; simpl; [lia|].
  destruct (f x); simpl; lia.
Qed.

Lemma total_length_filter_lt (sep : str) (f : str -> bool) (l : list str) :
  sep <> [] -> forallb f l = false ->
  total_length sep (filter f l) < total_length sep l.
Proof.
  intros Hs. induction l as [|x l IH]; simpl; [discriminate|].
  destruct (f x); simpl.
  - intros H. specialize (IH H). lia.
  - intros _. pose proof (total_length_filter sep f l).
    destruct sep; [congruence|]. simpl. lia.
Qed.

Lemma filter_all (f : str -> bool) (l : list str) :
  forallb f l = true -> filter f l = l.
Proof.
  induction l as [|x l IH]; simpl; [reflexivity|].
  destruct (f x); simpl; [|discriminate].
  intros H. now rewrite IH.
Qed.

(** The joined requested ids are the joined tag ids exactly when every
    tag id is requested. *)
Lemma join_common_full (tags requested : list str) :
  common_ids tags requested <> [] ->
  (join (lit ", ") (common_ids tags requested) = join (lit ", ") tags <->
   forallb (fun fid => mem fid requested) tags = true).
Proof.
  intros Hne. split.
  - intros E.
    destruct (forallb (fun fid => mem fid requested) tags) eqn:F;
      [reflexivity|].
    exfalso.
    assert (Ht : tags <> []) by (intros ->; discriminate).
    pose proof (join_length (lit ", ") _ Hne) as L1.
    pose proof (join_length (lit ", ") _ Ht) as L2.
    assert (Hs : lit ", " <> []) by discriminate.
    pose proof (total_length_filter_lt (lit ", ") _ tags Hs F) as L3.
    unfold common_ids in *. rewrite E in L1. lia.
  - intros F. unfold common_ids. now rewrite filter_all.
Qed.

Lemma any_in_common (requested tags : list str) :
  any_in requested tags = true -> common_ids tags requested <> [].
Proof.
  unfold any_in, common_ids. intros H.
  apply existsb_exists in H. destruct H as [fid [Hr Ht]].
  apply mem_In in Ht. intros E.
  assert (In fid (filter (fun fid => mem fid requested) tags)).
  { apply filter_In. split; [exact Ht|]. now apply mem_In. }
  rewrite E in H. exact H.
Qed.

End CollectorFacts.

(** * A history source to run the collector on *)

Module Scenario.

Import Collector.

Definition workspace : str := lit "acme".
Definition repo_slug : str := lit "shop".
Definition repo_token : str := lit "secret".

Definition page1 : str := API_URL repo_slug workspace.
Definition page2 : str := page1 ++ lit "?page=2".

Definition jane : Commit :=
  {| commit_hash := lit "c1";
     commit_message := lit "Fix checkout. testcase: [A, B]";
     author_raw := lit "Jane Doe <jane@x.com>" |}.

Definition readme : Commit :=
  {| commit_hash := lit "c2";
     commit_message := lit "Update the readme";
     author_raw := lit "Raj <raj@x.com>" |}.

Definition omar : Commit :=
  {| commit_hash := lit "c3";
     commit_message := lit "  tidy up, TestCase : [ C ,D]  ";
     author_raw := lit "Omar <omar@x.com>" |}.

Definition bot : Commit :=
  {| commit_hash := lit "c4";
     commit_message := lit "testcase: [B]";
     author_raw := lit "build-bot" |}.

Definition only_b : Commit :=
  {| commit_hash := lit "c5";
     commit_message := lit "testcase: [B]";
     author_raw := lit "Ann <ann@x.com>" |}.

(** Authors that are not in the form of name, blank and bracketed
    email: two blanks, and two closing brackets. *)
Definition two_blanks : Commit :=
  {| commit_hash := lit "c6";
     commit_message := lit "testcase: [B]";
     author_raw := lit "Jane Doe  <jane@x.com>" |}.

Definition two_brackets : Commit :=
  {| commit_hash := lit "c7";
     commit_message := lit "testcase: [B]";
     author_raw := lit "Jane Doe <jane@x.com>>" |}.

Definition ok (commits : list Commit) (nxt : option str) : Response :=
  {| status_code := 200; json := {| values := commits; next := nxt |};
     text := [] |}.

Definition failed (status : Z) : Response :=
  {| status_code := status; json := {| values := []; next := None |};
     text := [] |}.

Definition diff (body : str) : Response :=
  {| status_code := 200; json := {| values := []; next := None |};
     text := body |}.

(** A source given by a table of URLs; any other URL is not found, but
    for the diff of [c1]. *)
Definition serve (table : list (str * Response)) (url token : str)
  : Response :=
  match find (fun entry => str_eqb (fst entry) url) table with
  | Some entry => snd entry
  | None =>
      if str_eqb url (diff_url_of repo_slug workspace jane)
      then diff (lit "+ total += price")
      else failed 404
  end.

(** Two pages, the second being the last. *)
Definition two_pages : str -> str -> Response :=
  serve [(page1, ok [jane; readme] (Some page2)); (page2, ok [omar] None)].



(** A first page that fails. *)
Definition first_page_down (status : Z) : str -> str -> Response :=
  serve [(page1, failed status)].

(** One page with nothing that matches. *)
Definition nothing_matches : str -> str -> Response :=
  serve [(page1, ok [readme] None)].

(** A page with a commit whose author has no ["<"]. *)
Definition with_bot : str -> str -> Response :=
  serve [(page1, ok [jane; bot; readme] None)].

(** Two pages, the first with a commit whose author has no ["<"]. *)
Definition bot_then_more : str -> str -> Response :=
  serve [(page1, ok [jane; bot] (Some page2)); (page2, ok [omar] None)].

(** A page with a commit all of whose tags are requested. *)
Definition with_only_b : str -> str -> Response :=
  serve [(page1, ok [only_b] None)].

(** The documents of [jane], [omar] and [only_b] when ["B"] is among the
    requested ids. *)
Definition jane_doc : CommitDocument :=
  {| hash := lit "c1";
     message := lit "Fix checkout. testcase: [A, B]";
     author_username := lit "Jane Doe";
     author_email := lit "jane@x.com";
     function_id := lit "B";
     code_diff := Some (lit "+ total += price") |}.

Definition omar_doc : CommitDocument :=
  {| hash := lit "c3";
     message := lit "tidy up, TestCase : [ C ,D]";
     author_username := lit "Omar";
     author_email := lit "omar@x.com";
     function_id := lit "C";
     code_diff := None |}.

Definition only_b_doc : CommitDocument :=
  {| hash := lit "c5";
     message := lit "testcase: [B]";
     author_username := lit "Ann";
     author_email := lit "ann@x.com";
     function_id := lit "B";
     code_diff := None |}.

(** The requests of a run. *)
Definition requests_of (run : option outcome) : list request :=
  match run with
  | Some (trace, _) => trace
  | None => []
  end.

End Scenario.

(** * The verdict extractor: properties *)

Section VerdictProperties.

Import Llm LlmFacts StrFacts.

Variable generate_content : str -> judge_result.
Variable filtered_commits : list CommitDocument.
Variable description : str.

Local Abbreviation prompt := (build_prompt filtered_commits description).
Local Abbreviation verdict :=
  (call_llm generate_content filtered_commits description).

Lemma first_yes_no_none (tokens : list str) :
  first_yes_no tokens = lit "None" -> find is_yes_no tokens = None.
Proof.
  unfold first_yes_no. destruct (find is_yes_no tokens) as [t|] eqn:E;
    [|reflexivity].
  apply find_some in E. destruct E as [_ E]. unfold is_yes_no in E.
  apply mem_In in E. intros H. rewrite H in E.
  destruct E as [E|[E|[]]]; discriminate.
Qed.

Lemma no_token_found (tokens : list str) :
  Forall (fun t => is_yes_no t = false /\ is_number t = false) tokens ->
  find is_yes_no tokens = None /\ numeric_tokens tokens = [].
Proof.
  unfold numeric_tokens.
  induction 1 as [|t ts [Hy Hn] _ [IH1 IH2]]; simpl; [auto|].
  now rewrite Hy, Hn.
Qed.

(** C1, as amended: for a text the judge returns, the hours are 0
    whenever the text has no numeric token; when the alignment is the
    failure value ["None"], the hours are 0 or the text has no yes/no
    token and the hours are its first numeric token; and a text with no
    yes/no token whose second numeric token, if any, is a finite float,
    yields status 200, alignment ["None"] and its first numeric token (0
    without one) as hours. *)
Theorem hours_of_failed_alignment (text : str) :
  generate_content prompt = Returned text ->
  let '(status, alignment, hours) := verdict in
  (numeric_tokens (numbers text) = [] -> hours = PyInt 0) /\
  (alignment = lit "None" ->
   hours = PyInt 0 \/
   (status = 200%Z /\ find is_yes_no (numbers text) = None /\
    hours = first_number (numbers text))) /\
  (find is_yes_no (numbers text) = None ->
   second_overflows (numbers text) = false ->
   (status, alignment, hours) =
   (200%Z, lit "None", first_number (numbers text))).
Proof.
  intros Hj. destruct (second_overflows (numbers text)) eqn:Hs.
  - rewrite (call_llm_overflow _ _ _ _ Hj Hs).
    repeat split; auto; discriminate.
  - rewrite (call_llm_returned _ _ _ _ Hj Hs). repeat split.
    + unfold first_number. now intros ->.
    + intros H. right. repeat split. now apply first_yes_no_none.
    + intros H _. unfold first_yes_no. now rewrite H.
Qed.

(** C6, as amended: when the judge raises an error, the verdict is
    (413, ["None"], 0) if the error text contains ["context window"] or
    ["token"], and (500, ["None"], 0) for any other error; a text that
    contains ["token"] gives 413. *)
Theorem judge_error_verdict (msg : str) :
  generate_content prompt = Raised msg ->
  (verdict = (413%Z, lit "None", PyInt 0) \/
   verdict = (500%Z, lit "None", PyInt 0)) /\
  (verdict = (413%Z, lit "None", PyInt 0) <->
   contains (lit "context window") msg || contains (lit "token") msg = true) /\
  (contains (lit "token") msg = true ->
   verdict = (413%Z, lit "None", PyInt 0)).
Proof.
  intros Hj. rewrite (call_llm_raised _ _ _ _ Hj).
  unfold limit_indicator, exn_str.
  destruct (contains (lit "context window") msg);
    destruct (contains (lit "token") msg); simpl;
    repeat split; auto; try discriminate; intros [=].
Qed.

(** C7, as amended: a returned text in which the scan finds no yes/no
    token and no numeric token gives status 200, alignment ["None"] and
    0 hours. *)
Theorem parse_miss_verdict (text : str) :
  generate_content prompt = Returned text ->
  Forall (fun t => is_yes_no t = false /\ is_number t = false)
    (numbers text) ->
  verdict = (200%Z, lit "None", PyInt 0).
Proof.
  intros Hj Hn.
  destruct (no_token_found _ Hn) as [Hy Hf].
  assert (Hs : second_overflows (numbers text) = false).
  { unfold second_overflows. now rewrite Hf. }
  rewrite (call_llm_returned _ _ _ _ Hj Hs).
  unfold first_yes_no, first_number. now rewrite Hy, Hf.
Qed.

(** A returned text whose second numeric token, if any, is a finite
    float gives status 200, its first yes/no token (lowered, ["None"]
    without one) and its first numeric token (0 without one), wherever
    the two stand in the text. *)
Theorem verdict_of_returned_text (text : str) :
  generate_content prompt = Returned text ->
  second_overflows (numbers text) = false ->
  verdict = (200%Z, first_yes_no (numbers text), first_number (numbers text)).
Proof. apply call_llm_returned. Qed.

End VerdictProperties.

Import Llm LlmFacts.

(** [hours_of_failed_alignment] on the text ["about 8 hours"]. *)
Lemma hours_of_failed_alignment_witness :
  let '(status, alignment, hours) :=
    call_llm (fun _ => Returned (lit "about 8 hours")) [] [] in
  (numeric_tokens (numbers (lit "about 8 hours")) = [] -> hours = PyInt 0) /\
  (alignment = lit "None" ->
   hours = PyInt 0 \/
   (status = 200%Z /\ find is_yes_no (numbers (lit "about 8 hours")) = None /\
    hours = first_number (numbers (lit "about 8 hours")))) /\
  (find is_yes_no (numbers (lit "about 8 hours")) = None ->
   second_overflows (numbers (lit "about 8 hours")) = false ->
   (status, alignment, hours) =
   (200%Z, lit "None", first_number (numbers (lit "about 8 hours")))).
Proof.
  exact (hours_of_failed_alignment
           (fun _ => Returned (lit "about 8 hours")) [] []
           (lit "about 8 hours") eq_refl).
Defined.

(** C1, as stated, fails: the text ["about 8 hours"] has a numeric token
    and no yes/no token; the alignment is ["None"] and the hours are 8. *)
Lemma alignment_none_with_hours :
  call_llm (fun _ => Returned (lit "about 8 hours")) [] [] =
  (200%Z, lit "None", PyFloat (FFinite 8)) /\
  is_zero (PyFloat (FFinite 8)) = false.
Proof. split; vm_compute; reflexivity. Qed.

(** C3, a text the claim is wrong on: the second numeric token is 1
    followed by 309 zeros, [float] makes it [inf], [int] raises inside
    the [try] block and the handler returns (500, ["None"], 0); with 450
    in its place the same text gives (200, ["yes"], 5). The texts of the
    claim give (200, ["no"], 8) in either order. *)
Theorem huge_second_number_fails_the_parse :
  call_llm
    (fun _ => Returned (lit "yes, 5, 1" ++ repeat "0"%char 309)) [] [] =
  (500%Z, lit "None", PyInt 0) /\
  call_llm (fun _ => Returned (lit "yes, 5, 450")) [] [] =
  (200%Z, lit "yes", PyFloat (FFinite 5)) /\
  call_llm (fun _ => Returned (lit "no, 8, 450")) [] [] =
  (200%Z, lit "no", PyFloat (FFinite 8)) /\
  call_llm (fun _ => Returned (lit "8, no, 450")) [] [] =
  (200%Z, lit "no", PyFloat (FFinite 8)).
Proof. repeat split; vm_compute; reflexivity. Qed.

(** [judge_error_verdict] on an error about the token limit. *)
Lemma judge_error_verdict_witness :
  call_llm (fun _ => Raised (lit "input exceeds the token limit")) [] [] =
  (413%Z, lit "None", PyInt 0).
Proof.
  apply (judge_error_verdict
           (fun _ => Raised (lit "input exceeds the token limit")) [] []
           (lit "input exceeds the token limit") eq_refl).
  vm_compute. reflexivity.
Defined.

(** [parse_miss_verdict] on the text ["I cannot tell."]. *)
Lemma parse_miss_verdict_witness :
  call_llm (fun _ => Returned (lit "I cannot tell.")) [] [] =
  (200%Z, lit "None", PyInt 0).
Proof.
  apply (parse_miss_verdict
           (fun _ => Returned (lit "I cannot tell.")) [] []
           (lit "I cannot tell.") eq_refl).
  vm_compute. constructor.
Defined.

(** [verdict_of_returned_text] on the text ["8, no, 450"]. *)
Lemma verdict_of_returned_text_witness :
  call_llm (fun _ => Returned (lit "8, no, 450")) [] [] =
  (200%Z, first_yes_no (numbers (lit "8, no, 450")),
   first_number (numbers (lit "8, no, 450"))).
Proof.
  apply (verdict_of_returned_text
           (fun _ => Returned (lit "8, no, 450")) [] []
           (lit "8, no, 450") eq_refl).
  vm_compute. reflexivity.
Defined.

(** * The evidence collector: properties *)

Section CollectorProperties.

Import Collector StrFacts CollectorFacts.

Variable requests_get : str -> str -> Response.
Variables function_id repo_slug repo_token workspace : str.

Local Abbreviation commit_body :=
  (commit_body requests_get function_id repo_slug repo_token workspace).
Local Abbreviation get_commits :=
  (get_commits requests_get function_id repo_slug repo_token workspace).
Local Abbreviation API_URL := (API_URL repo_slug workspace).
Local Abbreviation follow := (follow requests_get repo_token).
Local Abbreviation commits_of := (commits_of requests_get repo_token).
Local Abbreviation emits :=
  (emits requests_get function_id repo_slug repo_token workspace).
Local Abbreviation is_match := (is_match function_id).
Local Abbreviation aborts := (aborts function_id).
Local Abbreviation requested := (split_ids function_id).

Lemma is_match_false_skips (commit : Commit) (st : state) :
  is_match commit = false -> commit_body commit st = (st, Ok tt).
Proof.
  intros H. destruct st as [trace filtered_commits].
  rewrite commit_body_frame. unfold CollectorFacts.aborts, diffs.
  rewrite (emits_skip _ _ _ _ _ _ H), H. simpl. now rewrite !app_nil_r.
Qed.

Lemma any_in_false (tags : list str) :
  (forall id, In id tags -> ~ In id requested) ->
  any_in requested tags = false.
Proof.
  intros H. unfold any_in.
  destruct (existsb (fun fid => mem fid tags) requested) eqn:E;
    [|reflexivity].
  apply existsb_exists in E. destruct E as [fid [Hr Ht]].
  apply mem_In in Ht. now destruct (H fid Ht).
Qed.

(** C2, as amended: every document [get_commits] returns comes from a
    message with a tag block; its [function_id] is the tag ids of the
    block that are requested, in the block's order, joined with [", "];
    one id at least is in both; and it is the joined full tag list
    exactly when every tag id of the block is requested. A commit whose
    message has no tag block, or none of whose tag ids is requested,
    leaves the documents and the requests as they are. A block
    ["A, B"] with ["B"] and ["C"] requested gives ["B"]. *)
Theorem function_id_of_emitted :
  (forall fuel trace status docs doc,
     get_commits fuel = Some (trace, Ok (status, docs)) ->
     In doc docs ->
     exists group1,
       tag_block (message doc) = Some group1 /\
       Data.function_id doc =
       join (lit ", ")
         (filter (fun id => mem id requested) (split_ids group1)) /\
       (exists id, In id (split_ids group1) /\ In id requested) /\
       (Data.function_id doc = join (lit ", ") (split_ids group1) <->
        forall id, In id (split_ids group1) -> In id requested)) /\
  (forall commit st,
     tag_block (strip (commit_message commit)) = None ->
     commit_body commit st = (st, Ok tt)) /\
  (forall commit st group1,
     tag_block (strip (commit_message commit)) = Some group1 ->
     (forall id, In id (split_ids group1) -> ~ In id requested) ->
     commit_body commit st = (st, Ok tt)) /\
  (forall commit doc,
     tag_block (strip (commit_message commit)) = Some (lit "A, B") ->
     requested = [lit "B"; lit "C"] ->
     In doc (emits commit) ->
     Data.function_id doc = lit "B").
Proof.
  repeat split.
  - intros fuel trace status docs doc Hrun Hin.
    pose proof (while_tagged requests_get function_id repo_slug repo_token
                  workspace fuel (Some API_URL) true ([], []) trace status
                  docs (Forall_nil _) Hrun) as Hall.
    rewrite Forall_forall in Hall.
    destruct (Hall doc Hin) as [group1 [Hb [Ha Hf]]].
    exists group1. split; [exact Hb|]. split; [exact Hf|]. split.
    + unfold any_in in Ha. apply existsb_exists in Ha.
      destruct Ha as [id [Hr Ht]]. apply mem_In in Ht. now exists id.
    + rewrite Hf.
      rewrite (join_common_full _ _ (any_in_common _ _ Ha)).
      rewrite forallb_forall. split.
      * intros H id Hi. apply mem_In. now apply H.
      * intros H id Hi. apply mem_In. now apply H.
  - intros commit st H. apply is_match_false_skips.
    unfold CollectorFacts.is_match. now rewrite H.
  - intros commit st group1 H Hd. apply is_match_false_skips.
    unfold CollectorFacts.is_match. rewrite H. now apply any_in_false.
  - intros commit doc Hb Hr Hin.
    destruct (emits_tagged _ _ _ _ _ _ _ Hin) as [g [Hg [_ Hf]]].
    rewrite Hf, Hr.
    assert (Hd : message doc = strip (commit_message commit)).
    { revert Hin. unfold CollectorFacts.emits, Collector.commit_body.
      fold (tag_block (strip (commit_message commit))). rewrite Hb.
      destruct (any_in (split_ids function_id) (split_ids (lit "A, B")));
        [|intros []].
      destruct (username_of (author_raw commit)); [|intros []].
      destruct (email_of (author_raw commit)); [|intros []].
      simpl. intros [<-|[]]. reflexivity. }
    rewrite Hd, Hb in Hg. injection Hg as <-. reflexivity.
Qed.

(** C5, as amended: when the source serves N pages one after the other,
    each with status 200, each but the last naming the next, and no
    commit that passes the filter has an author without ["<"],
    [get_commits] ends on any fuel of N or more, makes exactly the N page
    requests, in order, and returns the documents of the commits of all
    the pages that pass the filter, in the order of the pages and of the
    commits in them (with 200; 404 and no document when there is
    none). *)
Theorem pagination_complete (urls : list str) (nxt : option str)
    (fuel : nat) :
  follow (Some API_URL) urls = Some nxt ->
  truthy nxt = None ->
  existsb aborts (commits_of urls) = false ->
  length urls <= fuel ->
  exists trace,
    get_commits fuel =
    Some (trace, Ok (finish (flat_map emits (commits_of urls)))) /\
    filter is_page_request trace = map PageRequest urls.
Proof.
  intros Hf Hn Ha Hl. eexists. split.
  - apply (get_commits_complete _ _ _ _ _ _ _ _ Hf Hn Ha Hl).
  - apply page_requests_of_trace.
Qed.

(** C9: when a commit of a page the run reaches passes the filter and
    its raw author has no ["<"], the email expression raises the
    [IndexError] and the whole call ends with it, whatever was
    collected before. *)
Theorem author_without_bracket_aborts (urls : list str) (nxt : option str)
    (commit : Commit) (fuel : nat) :
  follow (Some API_URL) urls = Some nxt ->
  In commit (commits_of urls) ->
  is_match commit = true ->
  has_char "<"%char (author_raw commit) = false ->
  length urls <= fuel ->
  email_of (author_raw commit) = Raise IndexError /\
  exists trace, get_commits fuel = Some (trace, Raise IndexError).
Proof.
  intros Hf Hin Hm Hc Hl. split; [now apply email_of_without|].
  assert (Ha : existsb aborts (commits_of urls) = true).
  { apply existsb_exists. exists commit. split; [exact Hin|].
    unfold CollectorFacts.aborts. now rewrite Hm, Hc. }
  apply (while_abort _ _ _ _ _ _ _ _ _ _ _ Hf Ha Hl).
Qed.


(** A first page that fails: one request is made and the status comes
    back with no document; it differs from the (404, []) of a run that
    matches nothing exactly when the status is not 404. *)
Theorem first_page_failure_status (fuel : nat) :
  (status_code (requests_get API_URL repo_token) =? 200)%Z = false ->
  get_commits (S fuel) =
  Some ([PageRequest API_URL],
        Ok (status_code (requests_get API_URL repo_token), [])) /\
  ((status_code (requests_get API_URL repo_token), @nil CommitDocument) =
   (404%Z, []) <->
   status_code (requests_get API_URL repo_token) = 404%Z).
Proof.
  intros H. split.
  - now apply first_page_failure.
  - split; [intros [=]; assumption | intros ->; reflexivity].
Qed.

End CollectorProperties.

Import Collector StrFacts CollectorFacts Scenario.

(** [function_id_of_emitted] on the first document of the two pages. *)
Lemma function_id_of_emitted_witness :
  exists group1,
    tag_block (message jane_doc) = Some group1 /\
    Data.function_id jane_doc =
    join (lit ", ")
      (filter (fun id => mem id (split_ids (lit "B, C"))) (split_ids group1)) /\
    (exists id, In id (split_ids group1) /\ In id (split_ids (lit "B, C"))) /\
    (Data.function_id jane_doc = join (lit ", ") (split_ids group1) <->
     forall id, In id (split_ids group1) -> In id (split_ids (lit "B, C"))).
Proof.
  apply (proj1 (function_id_of_emitted two_pages (lit "B, C") repo_slug
                  repo_token workspace)
           2
           (requests_of (get_commits two_pages (lit "B, C") repo_slug
                           repo_token workspace 2))
           200%Z [jane_doc; omar_doc] jane_doc).
  - vm_compute. reflexivity.
  - simpl. left. reflexivity.
Defined.

(** C2, as stated, fails: with ["B"] requested, the commit tagged
    [testcase: [B]] gets the [function_id] ["B"], which is its full tag
    list joined. *)
Lemma function_id_equal_to_full_tag_list :
  get_commits with_only_b (lit "B") repo_slug repo_token workspace 1 =
  Some ([PageRequest page1;
         DiffRequest (diff_url_of repo_slug workspace only_b)],
        Ok (200%Z, [only_b_doc])) /\
  tag_block (message only_b_doc) = Some (lit "B") /\
  Data.function_id only_b_doc = join (lit ", ") (split_ids (lit "B")).
Proof. repeat split; vm_compute; reflexivity. Qed.

(** C4, a status the claim is wrong on: a first page that fails with 404
    gives (404, []) after one request, the pair a run over a page with
    no matching commit gives; a first page that fails with 503 gives
    (503, []). *)
Theorem first_page_404_looks_like_no_match :
  get_commits (first_page_down 404) (lit "B, C") repo_slug repo_token
    workspace 1 =
  Some ([PageRequest page1], Ok (404%Z, [])) /\
  get_commits nothing_matches (lit "B, C") repo_slug repo_token workspace 1 =
  Some ([PageRequest page1], Ok (404%Z, [])) /\
  get_commits (first_page_down 503) (lit "B, C") repo_slug repo_token
    workspace 1 =
  Some ([PageRequest page1], Ok (503%Z, [])).
Proof. repeat split; vm_compute; reflexivity. Qed.

(** [pagination_complete] on the two pages. *)
Lemma pagination_complete_witness :
  exists trace,
    get_commits two_pages (lit "B, C") repo_slug repo_token workspace 2 =
    Some (trace,
          Ok (finish
                (flat_map
                   (emits two_pages (lit "B, C") repo_slug repo_token
                      workspace)
                   (commits_of two_pages repo_token [page1; page2])))) /\
    filter is_page_request trace = map PageRequest [page1; page2].
Proof.
  apply (pagination_complete two_pages (lit "B, C") repo_slug repo_token
           workspace [page1; page2] None 2).
  - vm_compute. reflexivity.
  - reflexivity.
  - vm_compute. reflexivity.
  - simpl. lia.
Defined.

(** [author_without_bracket_aborts] on the page with [bot]. *)
Lemma author_without_bracket_aborts_witness :
  email_of (author_raw bot) = Raise IndexError /\
  exists trace,
    get_commits with_bot (lit "B, C") repo_slug repo_token workspace 1 =
    Some (trace, Raise IndexError).
Proof.
  apply (author_without_bracket_aborts with_bot (lit "B, C") repo_slug
           repo_token workspace [page1] None bot 1).
  - vm_compute. reflexivity.
  - vm_compute. right. left. reflexivity.
  - vm_compute. reflexivity.
  - vm_compute. reflexivity.
  - simpl. lia.
Defined.



(** [first_page_failure_status] on a first page that fails with 503. *)
Lemma first_page_failure_status_witness :
  get_commits (first_page_down 503) (lit "B, C") repo_slug repo_token
    workspace 1 =
  Some ([PageRequest (API_URL repo_slug workspace)],
        Ok (status_code
              (first_page_down 503 (API_URL repo_slug workspace) repo_token),
            [])) /\
  ((status_code
      (first_page_down 503 (API_URL repo_slug workspace) repo_token),
    @nil CommitDocument) = (404%Z, []) <->
   status_code
     (first_page_down 503 (API_URL repo_slug workspace) repo_token) = 404%Z).
Proof.
  apply (first_page_failure_status (first_page_down 503) (lit "B, C")
           repo_slug repo_token workspace 0).
  vm_compute. reflexivity.
Defined.

(** C5, as stated, fails: the source serves two pages, the first naming
    the second and the second the last, and the call makes one page
    request and ends with the [IndexError] of a commit of the first
    page. *)
Lemma pagination_aborted_by_author :
  follow bot_then_more repo_token (Some page1) [page1; page2] = Some None /\
  get_commits bot_then_more (lit "B, C") repo_slug repo_token workspace 2 =
  Some ([PageRequest page1;
         DiffRequest (diff_url_of repo_slug workspace jane);
         DiffRequest (diff_url_of repo_slug workspace bot)],
        Raise IndexError).
Proof. split; vm_compute; reflexivity. Qed.

(** C6, as stated, fails: the alignment of the verdict on an error is the
    string ["None"], not ["none"]. *)
Lemma judge_error_alignment_is_capitalised :
  call_llm (fun _ => Raised (lit "input exceeds the token limit")) [] [] <>
  (413%Z, lit "none", PyInt 0) /\
  call_llm (fun _ => Raised (lit "connection reset")) [] [] <>
  (500%Z, lit "none", PyInt 0).
Proof. split; vm_compute; discriminate. Qed.

(** C7, as stated, fails: the alignment of a parse miss is the string
    ["None"], not ["none"]. *)
Lemma parse_miss_alignment_is_capitalised :
  numbers (lit "I cannot tell.") = [] /\
  call_llm (fun _ => Returned (lit "I cannot tell.")) [] [] <>
  (200%Z, lit "none", PyInt 0).
Proof. split; [vm_compute; reflexivity | vm_compute; discriminate]. Qed.

(** * More on the verdict extractor *)

Module VerdictFacts.

Import Llm LlmFacts StrFacts.

(** A float that is not negative. *)
Definition float_nonneg (f : pyfloat) : Prop :=
  match f with
  | FInf => True
  | FFinite q => (0 <= q)%Q
  end.

(** The hours a verdict may hold: the integer 0 or a float that is not
    negative. *)
Definition hours_ok (h : pynum) : Prop :=
  match h with
  | PyInt z => z = 0%Z
  | PyFloat f => float_nonneg f
  end.

Lemma digits_val_nonneg (s : str) : (0 <= digits_val s)%Z.
Proof.
  unfold digits_val.
  assert (H : forall acc, (0 <= acc)%Z ->
            (0 <= fold_left (fun acc c => 10 * acc + digit_val c) s acc)%Z).
  { induction s as [|c s IH]; intros acc Ha; cbn [fold_left]; [exact Ha|].
    apply IH. unfold digit_val. lia. }
  apply H. lia.
Qed.

Lemma decimal_of_sign (tok : str) :
  (0 <= fst (decimal_of tok))%Z /\ (0 < snd (decimal_of tok))%Z.
Proof.
  unfold decimal_of. destruct (split "."%char tok) as [|i [|f l]]; simpl.
  - lia.
  - split; [apply digits_val_nonneg | lia].
  - split; [apply digits_val_nonneg|]. apply Z.pow_pos_nonneg; lia.
Qed.

Lemma round_binary64_nonneg (n d : Z) :
  (0 <= n)%Z -> (0 < d)%Z -> float_nonneg (round_binary64 n d).
Proof.
  intros Hn Hd. unfold round_binary64.
  destruct (n =? 0)%Z; [simpl; apply Qle_refl|].
  cbv zeta.
  match goal with |- context [Z.max ?a ?b] => generalize (Z.max a b) end.
  intros p.
  set (num := if (0 <=? p)%Z then n else (n * 2 ^ (- p))%Z).
  set (den := if (0 <=? p)%Z then (d * 2 ^ p)%Z else d).
  assert (Hnum : (0 <= num)%Z).
  { unfold num. destruct (0 <=? p)%Z eqn:E; [exact Hn|].
    apply Z.mul_nonneg_nonneg; [exact Hn|]. apply Z.pow_nonneg. lia. }
  assert (Hden : (0 < den)%Z).
  { unfold den. destruct (0 <=? p)%Z eqn:E; [|exact Hd].
    apply Z.mul_pos_pos; [exact Hd|]. apply Z.pow_pos_nonneg; lia. }
  assert (Hm : (0 <= num / den)%Z) by (apply Z.div_pos; assumption).
  set (m' := match (2 * (num mod den) ?= den)%Z with
             | Eq => if Z.odd (num / den) then (num / den + 1)%Z
                     else (num / den)%Z
             | Lt => (num / den)%Z
             | Gt => (num / den + 1)%Z
             end).
  assert (Hm' : (0 <= m')%Z).
  { unfold m'. destruct (2 * (num mod den) ?= den)%Z;
      [destruct (Z.odd (num / den))| |]; lia. }
  destruct (0 <=? p)%Z eqn:Ep.
  - destruct (2 ^ 1024 <=? m' * 2 ^ p)%Z; simpl; [exact I|].
    unfold Qle. simpl.
    assert (0 <= m' * 2 ^ p)%Z
      by (apply Z.mul_nonneg_nonneg; [exact Hm' | apply Z.pow_nonneg; lia]).
    lia.
  - unfold float_nonneg. rewrite Qred_correct. unfold Qle. simpl. lia.
Qed.

Lemma float_is_nonneg (tok : str) : float_nonneg (float tok).
Proof.
  unfold float. destruct (decimal_of_sign tok) as [Hn Hd].
  destruct (decimal_of tok) as [n d]. now apply round_binary64_nonneg.
Qed.

Lemma first_yes_no_range (tokens : list str) :
  In (first_yes_no tokens) [lit "yes"; lit "no"; lit "None"].
Proof.
  unfold first_yes_no. destruct (find is_yes_no tokens) as [t|] eqn:E.
  - apply find_some in E. destruct E as [_ E]. unfold is_yes_no in E.
    apply mem_In in E. simpl in *. tauto.
  - simpl. tauto.
Qed.

Lemma first_number_ok (tokens : list str) : hours_ok (first_number tokens).
Proof.
  unfold first_number. destruct (numeric_tokens tokens); simpl;
    [reflexivity | apply float_is_nonneg].
Qed.

Lemma call_llm_range (generate_content : str -> judge_result)
    (filtered_commits : list CommitDocument) (description : str) :
  let '(status, alignment, hours) :=
    call_llm generate_content filtered_commits description in
  (status = 200%Z \/ status = 413%Z \/ status = 500%Z) /\
  In alignment [lit "yes"; lit "no"; lit "None"] /\
  hours_ok hours /\
  (status <> 200%Z -> alignment = lit "None" /\ hours = PyInt 0).
Proof.
  destruct (generate_content (build_prompt filtered_commits description))
    as [text|msg] eqn:Hj.
  - destruct (second_overflows (numbers text)) eqn:Hs.
    + rewrite (call_llm_overflow _ _ _ _ Hj Hs). simpl. intuition.
    + rewrite (call_llm_returned _ _ _ _ Hj Hs).
      split; [auto|]. split; [apply first_yes_no_range|].
      split; [apply first_number_ok | congruence].
  - rewrite (call_llm_raised _ _ _ _ Hj).
    destruct (limit_indicator (JudgeError msg)); simpl; intuition.
Qed.

(** Whatever the judge does, the status of the verdict is 200, 413 or
    500, the alignment is ["yes"], ["no"] or ["None"], the hours are the
    integer 0 or a float that is not negative, and a status other than
    200 comes with ["None"] and 0. *)
Theorem verdict_range (generate_content : str -> judge_result)
    (filtered_commits : list CommitDocument) (description : str) :
  let '(status, alignment, hours) :=
    call_llm generate_content filtered_commits description in
  (status = 200%Z \/ status = 413%Z \/ status = 500%Z) /\
  In alignment [lit "yes"; lit "no"; lit "None"] /\
  hours_ok hours /\
  (status <> 200%Z -> alignment = lit "None" /\ hours = PyInt 0).
Proof. apply call_llm_range. Qed.

(** ** Whole numbers *)

Lemma decimal_of_digits (ds : str) :
  forallb is_digit ds = true -> decimal_of ds = (digits_val ds, 1%Z).
Proof.
  intros H. unfold decimal_of.
  assert (Hp : has_char "."%char ds = false).
  { unfold has_char. induction ds as [|c ds IH]; [reflexivity|].
    cbn [forallb existsb] in *. apply andb_true_iff in H.
    destruct H as [Hc Hd]. rewrite (IH Hd), orb_false_r.
    destruct (Ascii.eqb "."%char c) eqn:E; [|reflexivity].
    apply Ascii.eqb_eq in E. subst c. discriminate Hc. }
  now rewrite (split_without _ _ Hp).
Qed.

Lemma Qred_inject_Z (n : Z) : Qred (inject_Z n) = inject_Z n.
Proof.
  pose proof (Qred_correct (inject_Z n)) as C.
  pose proof (gcd_Qred (inject_Z n)) as G.
  destruct (Qred (inject_Z n)) as [a b]. unfold Qeq, inject_Z in *.
  simpl in *. rewrite Z.mul_1_r in C. subst a.
  rewrite Z.gcd_comm, Z.mul_comm, Z.gcd_mul_diag_l in G by lia.
  injection G as ->. now rewrite Z.mul_1_r.
Qed.

Lemma round_binary64_exact (n : Z) :
  (0 <= n < 2 ^ 53)%Z -> round_binary64 n 1 = FFinite (inject_Z n).
Proof.
  intros [Hn Hb]. unfold round_binary64.
  destruct (n =? 0)%Z eqn:E0.
  { apply Z.eqb_eq in E0. now subst n. }
  apply Z.eqb_neq in E0. assert (Hpos : (0 < n)%Z) by lia.
  cbv zeta. change (Z.log2 1) with 0%Z. rewrite Z.sub_0_r.
  pose proof (Z.log2_nonneg n) as Hl0.
  destruct (Z.log2_spec n Hpos) as [Hlo Hhi].
  assert (Hl : (Z.log2 n < 53)%Z) by (apply Z.log2_lt_pow2; lia).
  replace (0 <=? Z.log2 n)%Z with true by (symmetry; apply Z.leb_le; lia).
  replace (1 * 2 ^ Z.log2 n <=? n)%Z with true
    by (symmetry; apply Z.leb_le; lia).
  replace (Z.max (Z.log2 n - 52) (-1074)) with (Z.log2 n - 52)%Z by lia.
  set (p := (Z.log2 n - 52)%Z).
  destruct (0 <=? p)%Z eqn:Ep.
  - apply Z.leb_le in Ep. assert (p = 0%Z) by lia.
    replace p with 0%Z. rewrite Z.pow_0_r, !Z.mul_1_r.
    rewrite Z.div_1_r, Z.mod_1_r. simpl Z.compare. cbv iota.
    replace (2 ^ 1024 <=? n)%Z with false; [reflexivity|].
    symmetry. apply Z.leb_gt.
    apply Z.lt_trans with (2 ^ 53)%Z; [exact Hb | reflexivity].
  - apply Z.leb_gt in Ep.
    rewrite Z.div_1_r, Z.mod_1_r. simpl Z.compare. cbv iota. f_equal.
    assert (H2 : (0 < 2 ^ (- p))%Z) by (apply Z.pow_pos_nonneg; lia).
    transitivity (Qred (inject_Z n)).
    + apply Qred_complete. unfold Qeq, inject_Z. simpl.
      rewrite Z2Pos.id by exact H2. lia.
    + apply Qred_inject_Z.
Qed.

(** A token of digits whose value is below [2^53] becomes the float of
    that very value: the hours come back as written. *)
Lemma float_of_whole_number (ds : str) :
  forallb is_digit ds = true ->
  (digits_val ds < 2 ^ 53)%Z ->
  float ds = FFinite (inject_Z (digits_val ds)).
Proof.
  intros Hd Hb. unfold float. rewrite (decimal_of_digits _ Hd).
  apply round_binary64_exact. split; [apply digits_val_nonneg | exact Hb].
Qed.

End VerdictFacts.

(** * More on the scan *)

Module ScanFacts.

Import Llm LlmFacts StrFacts.

(** A character that starts no token: no digit and none of [y], [Y],
    [n], [N]. *)
Definition inert (c : ascii) : bool :=
  negb (is_digit c) && negb (existsb (Ascii.eqb c) (lit "yYnN")).

Lemma inert_spec (c : ascii) :
  inert c = true ->
  is_digit c = false /\
  Re.chr_eqb true "y"%char c = false /\
  Re.chr_eqb true "n"%char c = false.
Proof.
  destruct c as [[] [] [] [] [] [] [] []]; vm_compute;
    intros H; try discriminate H; repeat split.
Qed.

Lemma forallb_lstrip_by (f p : ascii -> bool) (s : str) :
  forallb f s = true -> forallb f (lstrip_by p s) = true.
Proof.
  induction s as [|c s IH]; simpl; [auto|].
  intros H. destruct (p c); [|exact H].
  apply andb_true_iff in H. now apply IH.
Qed.

Lemma forallb_rev_true (f : ascii -> bool) (s : str) :
  forallb f s = true -> forallb f (rev s) = true.
Proof.
  rewrite !forallb_forall. intros H x Hx. apply H. now apply in_rev.
Qed.

Lemma forallb_strip (f : ascii -> bool) (s : str) :
  forallb f s = true -> forallb f (strip s) = true.
Proof.
  intros H. unfold strip, strip_by, rstrip_by.
  now apply forallb_rev_true, forallb_lstrip_by, forallb_rev_true,
    forallb_lstrip_by.
Qed.

Section Inert.

Local Opaque Re.chr_eqb is_digit Re.at_boundary.

(** No token starts at an inert character, nor at the end. *)
Lemma match_at_inert (p : Re.pos) :
  match Re.rest p with
  | [] => True
  | c :: _ => inert c = true
  end ->
  Re.match_at true token_pattern p = None.
Proof.
  destruct p as [b r]. destruct r as [|c s]; simpl Re.rest; intros H.
  - unfold Re.match_at, token_pattern. simpl.
    destruct (Re.at_boundary _); reflexivity.
  - destruct (inert_spec _ H) as [Hd [Hy Hn]].
    unfold Re.match_at, token_pattern. simpl.
    destruct (Re.at_boundary _); [|reflexivity].
    now rewrite Hy, Hn, Hd.
Qed.

End Inert.

Lemma findall_from_inert (fuel : nat) :
  forall p,
  forallb inert (Re.rest p) = true ->
  Re.findall_from true token_pattern fuel p = [].
Proof.
  induction fuel as [|fuel IH]; intros p H; [reflexivity|].
  cbn [Re.findall_from]. rewrite match_at_inert.
  - destruct p as [b [|c s]]; [reflexivity|].
    unfold Re.advance. cbn [Re.rest Re.before]. apply IH.
    simpl in H. now apply andb_true_iff in H.
  - destruct (Re.rest p) as [|c s]; [exact I|].
    simpl in H. now apply andb_true_iff in H.
Qed.

(** The scan finds nothing in a text of inert characters. *)
Lemma numbers_inert (text : str) :
  forallb inert text = true -> numbers text = [].
Proof.
  intros H. unfold numbers, Re.findall. apply findall_from_inert.
  now apply forallb_strip.
Qed.

(** A text the judge returns that has no digit and no letter [y] or [n],
    in either case, is a parse miss: status 200, alignment ["None"],
    0 hours. *)
Theorem inert_text_is_parse_miss (generate_content : str -> judge_result)
    (filtered_commits : list CommitDocument) (description text : str) :
  generate_content (build_prompt filtered_commits description) =
  Returned text ->
  forallb inert text = true ->
  call_llm generate_content filtered_commits description =
  (200%Z, lit "None", PyInt 0).
Proof.
  intros Hj Hi.
  assert (Hs : second_overflows (numbers text) = false)
    by now rewrite (numbers_inert _ Hi).
  rewrite (call_llm_returned _ _ _ _ Hj Hs).
  now rewrite (numbers_inert _ Hi).
Qed.

(** [inert_text_is_parse_miss] on the text ["I am lost here."]. *)
Lemma inert_text_is_parse_miss_witness :
  call_llm (fun _ => Returned (lit "I am lost here.")) [] [] =
  (200%Z, lit "None", PyInt 0).
Proof.
  apply (inert_text_is_parse_miss
           (fun _ => Returned (lit "I am lost here.")) [] []
           (lit "I am lost here.") eq_refl).
  vm_compute. reflexivity.
Defined.

End ScanFacts.

(** * The matcher and the words it accepts *)

Module ReFacts.

Import StrFacts.

(** [derive ic r g w g']: the regular expression [r] accepts the word
    [w], the group being [g] before and [g'] after; [\b] is taken to
    accept the empty word anywhere. *)
Inductive derive (ic : bool)
  : Re.regex -> option str -> str -> option str -> Prop :=
| derive_chr c x g :
    Re.chr_eqb ic c x = true -> derive ic (Re.Chr c) g [x] g
| derive_class f x g :
    f x = true -> derive ic (Re.Class f) g [x] g
| derive_seq r1 r2 g w1 g1 w2 g2 :
    derive ic r1 g w1 g1 -> derive ic r2 g1 w2 g2 ->
    derive ic (Re.Seq r1 r2) g (w1 ++ w2) g2
| derive_alt_l r1 r2 g w g' :
    derive ic r1 g w g' -> derive ic (Re.Alt r1 r2) g w g'
| derive_alt_r r1 r2 g w g' :
    derive ic r2 g w g' -> derive ic (Re.Alt r1 r2) g w g'
| derive_star_nil r g : derive ic (Re.Star r) g [] g
| derive_star_cons r g w1 g1 w2 g2 :
    derive ic r g w1 g1 -> derive ic (Re.Star r) g1 w2 g2 ->
    derive ic (Re.Star r) g (w1 ++ w2) g2
| derive_opt_some r g w g' :
    derive ic r g w g' -> derive ic (Re.Opt r) g w g'
| derive_opt_none r g : derive ic (Re.Opt r) g [] g
| derive_group r g w g' :
    derive ic r g w g' -> derive ic (Re.Group r) g w (Some w)
| derive_wordb g : derive ic Re.WordB g [] g.

(** [p'] is [p] moved over the word [w]. *)
Definition moved (p : Re.pos) (w : str) (p' : Re.pos) : Prop :=
  Re.rest p = w ++ Re.rest p' /\ Re.before p' = rev w ++ Re.before p.

Lemma moved_refl (p : Re.pos) : moved p [] p.
Proof. split; reflexivity. Qed.

Lemma moved_trans (p p1 p2 : Re.pos) (w1 w2 : str) :
  moved p w1 p1 -> moved p1 w2 p2 -> moved p (w1 ++ w2) p2.
Proof.
  intros [R1 B1] [R2 B2]. split.
  - now rewrite R1, R2, app_assoc.
  - now rewrite B2, B1, rev_app_distr, app_assoc.
Qed.

Lemma moved_advance (p p' : Re.pos) (x : ascii) :
  Re.advance p = Some (x, p') -> moved p [x] p'.
Proof.
  unfold Re.advance. destruct p as [b [|c s]]; simpl; [discriminate|].
  intros [= <- <-]. split; reflexivity.
Qed.

Lemma moved_between (p p' : Re.pos) (w : str) :
  moved p w p' -> Re.between p p' = w.
Proof.
  intros [R _]. unfold Re.between. rewrite R, length_app.
  replace (length w + length (Re.rest p') - length (Re.rest p'))
    with (length w) by lia.
  rewrite firstn_app, firstn_all, Nat.sub_diag. simpl. apply app_nil_r.
Qed.

(** What the matcher accepts, the expression accepts: when [step] ends
    with a result, the continuation got a position moved over a word of
    the expression. *)
Lemma step_sound (ic : bool) (R : Type) (r : Re.regex) :
  forall p g (k : Re.pos -> option str -> option R) x,
  Re.step ic r p g k = Some x ->
  exists w p' g',
    derive ic r g w g' /\ moved p w p' /\ k p' g' = Some x.
Proof.
  induction r as [c|f|r1 IH1 r2 IH2|r1 IH1 r2 IH2|r1 IH1|r1 IH1|r1 IH1|];
    intros p g k x H; cbn [Re.step] in H.
  - destruct (Re.advance p) as [[y p']|] eqn:A; [|discriminate].
    destruct (Re.chr_eqb ic c y) eqn:E; [|discriminate].
    exists [y], p', g. split; [now constructor|].
    split; [now apply moved_advance | exact H].
  - destruct (Re.advance p) as [[y p']|] eqn:A; [|discriminate].
    destruct (f y) eqn:E; [|discriminate].
    exists [y], p', g. split; [now constructor|].
    split; [now apply moved_advance | exact H].
  - apply IH1 in H. destruct H as [w1 [p1 [g1 [D1 [M1 H]]]]].
    apply IH2 in H. destruct H as [w2 [p2 [g2 [D2 [M2 H]]]]].
    exists (w1 ++ w2), p2, g2. split; [econstructor; eassumption|].
    split; [eapply moved_trans; eassumption | exact H].
  - destruct (Re.step ic r1 p g k) as [y|] eqn:E.
    + injection H as ->. apply IH1 in E.
      destruct E as [w [p' [g' [D [M E]]]]].
      exists w, p', g'. split; [now apply derive_alt_l | auto].
    + apply IH2 in H. destruct H as [w [p' [g' [D [M H]]]]].
      exists w, p', g'. split; [now apply derive_alt_r | auto].
  - remember (length (Re.rest p)) as fuel eqn:Ef in H. clear Ef.
    revert p g H. induction fuel as [|fuel IHf]; intros p g H.
    + exists [], p, g. split; [apply derive_star_nil|].
      split; [apply moved_refl | exact H].
    + match type of H with
      | match ?s with _ => _ end = _ => destruct s as [y|] eqn:E
      end.
      * injection H as ->. apply IH1 in E.
        destruct E as [w1 [p1 [g1 [D1 [M1 E]]]]].
        destruct (length (Re.rest p1) <? length (Re.rest p));
          [|discriminate].
        apply IHf in E. destruct E as [w2 [p2 [g2 [D2 [M2 E]]]]].
        exists (w1 ++ w2), p2, g2. split; [econstructor; eassumption|].
        split; [eapply moved_trans; eassumption | exact E].
      * exists [], p, g. split; [apply derive_star_nil|].
        split; [apply moved_refl | exact H].
  - destruct (Re.step ic r1 p g k) as [y|] eqn:E.
    + injection H as ->. apply IH1 in E.
      destruct E as [w [p' [g' [D [M E]]]]].
      exists w, p', g'. split; [now apply derive_opt_some | auto].
    + exists [], p, g. split; [apply derive_opt_none|].
      split; [apply moved_refl | exact H].
  - apply IH1 in H. destruct H as [w [p' [g' [D [M H]]]]].
    rewrite (moved_between _ _ _ M) in H.
    exists w, p', (Some w). split; [econstructor; eassumption | auto].
  - destruct (Re.at_boundary p); [|discriminate].
    exists [], p, g. split; [constructor|].
    split; [apply moved_refl | exact H].
Qed.

Lemma derive_star_class (ic : bool) (f : ascii -> bool) (r : Re.regex)
    (g g' : option str) (w : str) :
  derive ic r g w g' -> r = Re.Star (Re.Class f) ->
  forallb f w = true /\ g' = g.
Proof.
  induction 1 as [| | | | | |r0 g0 w1 g1 w2 g2 D1 _ D2 IH2| | | |];
    intros E; try discriminate E.
  - auto.
  - injection E as ->. destruct (IH2 eq_refl) as [F ->].
    inversion D1; subst. simpl. rewrite F.
    match goal with H : f _ = true |- _ => rewrite H end. auto.
Qed.

(** A word of [r+] for a class [r]: not empty, all in the class. *)
Lemma derive_plus_class (ic : bool) (f : ascii -> bool)
    (g g' : option str) (w : str) :
  derive ic (Re.Plus (Re.Class f)) g w g' ->
  w <> [] /\ forallb f w = true /\ g' = g.
Proof.
  unfold Re.Plus. intros H. inversion H; subst.
  match goal with H : derive _ (Re.Class _) _ _ _ |- _ =>
    inversion H; subst end.
  match goal with H : derive _ (Re.Star _) _ _ _ |- _ =>
    destruct (derive_star_class _ _ _ _ _ _ H eq_refl) as [F ->] end.
  simpl. split; [discriminate|]. split; [|reflexivity].
  match goal with H : f _ = true |- _ => now rewrite H end.
Qed.

(** A word of a literal, case ignored, is the literal up to case. *)
Lemma derive_word (s : str) :
  s <> [] ->
  forall g w g',
  derive true (Re.Word s) g w g' -> lower w = lower s /\ g' = g.
Proof.
  induction s as [|c s IH]; [congruence|]. intros _ g w g' H.
  destruct s as [|c' s].
  - simpl in H. inversion H; subst. split; [|reflexivity].
    cbn [Re.chr_eqb] in *. simpl.
    match goal with H : Ascii.eqb _ _ = true |- _ =>
      apply Ascii.eqb_eq in H; now rewrite H end.
  - change (Re.Word (c :: c' :: s))
      with (Re.Seq (Re.Chr c) (Re.Word (c' :: s))) in H.
    inversion H; subst.
    match goal with H : derive _ (Re.Chr _) _ _ _ |- _ =>
      inversion H; subst end.
    match goal with
    | H : derive true ?r _ _ _ |- _ =>
        lazymatch r with
        | Re.Seq _ _ => fail
        | Re.Chr _ => fail
        | _ => apply (IH ltac:(discriminate)) in H; destruct H as [L ->]
        end
    end.
    split; [|reflexivity].
    cbn [Re.chr_eqb app lower map] in *.
    match goal with H : Ascii.eqb _ _ = true |- _ =>
      apply Ascii.eqb_eq in H; rewrite H end.
    f_equal. exact L.
Qed.

Lemma derive_seq_inv (ic : bool) (r1 r2 : Re.regex) (g g2 : option str)
    (w : str) :
  derive ic (Re.Seq r1 r2) g w g2 ->
  exists w1 g1 w2,
    w = w1 ++ w2 /\ derive ic r1 g w1 g1 /\ derive ic r2 g1 w2 g2.
Proof. intros H. inversion H; subst. now exists w1, g1, w2. Qed.

Lemma derive_chr_inv (ic : bool) (c : ascii) (g g' : option str) (w : str) :
  derive ic (Re.Chr c) g w g' ->
  exists x, w = [x] /\ Re.chr_eqb ic c x = true /\ g' = g.
Proof. intros H. inversion H; subst. now exists x. Qed.

Lemma derive_group_inv (ic : bool) (r : Re.regex) (g g' : option str)
    (w : str) :
  derive ic (Re.Group r) g w g' ->
  g' = Some w /\ exists g1, derive ic r g w g1.
Proof. intros H. inversion H; subst. split; [reflexivity|]. now exists g'0. Qed.

(** A literal word matches the texts that are the same once lowered. *)
Lemma word_eqb_lower (s w : str) :
  Re.word_eqb true s w = true <-> lower w = lower s.
Proof.
  revert w. induction s as [|c s IH]; intros [|x w]; cbn [Re.word_eqb lower map];
    try (split; [discriminate | intros H; discriminate H]).
  - split; reflexivity.
  - rewrite andb_true_iff, IH. unfold Re.chr_eqb. rewrite Ascii.eqb_eq.
    split.
    + intros [-> E]. unfold lower in E. now rewrite E.
    + intros [= -> E]. split; [reflexivity | exact E].
Qed.

(** A literal that is no letter is matched by itself only. *)
Lemma chr_eqb_punct (c x : ascii) :
  In c [":"; "["; "]"; "."]%char ->
  Re.chr_eqb true c x = true -> x = c.
Proof.
  intros [<-|[<-|[<-|[<-|[]]]]];
    destruct x as [[] [] [] [] [] [] [] []]; vm_compute;
    intros H; try discriminate H; reflexivity.
Qed.

(** What [match_at], [search] and [findall] return comes from a word of
    the expression. *)
Lemma match_at_sound (ic : bool) (r : Re.regex) (p : Re.pos)
    (m : Re.match_) :
  Re.match_at ic r p = Some m ->
  exists w, derive ic r None w (Re.m_group m) /\ moved p w (Re.m_end m).
Proof.
  unfold Re.match_at. intros H. apply step_sound in H.
  destruct H as [w [p' [g' [D [M [= <-]]]]]]. now exists w.
Qed.

Lemma search_from_sound (ic : bool) (r : Re.regex) (fuel : nat) :
  forall p m,
  Re.search_from ic r fuel p = Some m ->
  exists pre p0 w,
    moved p pre p0 /\ derive ic r None w (Re.m_group m) /\
    moved p0 w (Re.m_end m).
Proof.
  induction fuel as [|fuel IH]; intros p m H; cbn [Re.search_from] in H;
    destruct (Re.match_at ic r p) as [m0|] eqn:E.
  - injection H as ->. apply match_at_sound in E. destruct E as [w [D M]].
    exists [], p, w. split; [apply moved_refl | auto].
  - discriminate.
  - injection H as ->. apply match_at_sound in E. destruct E as [w [D M]].
    exists [], p, w. split; [apply moved_refl | auto].
  - destruct (Re.advance p) as [[x p1]|] eqn:A; [|discriminate].
    apply IH in H. destruct H as [pre [p0 [w [M0 [D M]]]]].
    exists ([x] ++ pre), p0, w. split; [|auto].
    exact (moved_trans _ _ _ _ _ (moved_advance _ _ _ A) M0).
Qed.

Lemma search_sound (ic : bool) (r : Re.regex) (s group1 : str) :
  Re.search ic r s = Some group1 ->
  exists pre w post g',
    s = pre ++ w ++ post /\ derive ic r None w g' /\
    group1 = match g' with Some g => g | None => [] end.
Proof.
  unfold Re.search.
  destruct (Re.search_from ic r (length s) (Re.start_of s)) as [m|] eqn:E;
    [|discriminate].
  intros [= <-]. apply search_from_sound in E.
  destruct E as [pre [p0 [w [[R0 _] [D [R1 _]]]]]].
  exists pre, w, (Re.rest (Re.m_end m)), (Re.m_group m).
  split; [|auto]. simpl in R0. now rewrite R0, R1.
Qed.

Lemma findall_from_sound (ic : bool) (r : Re.regex) (P : str -> Prop) :
  (forall w g', derive ic r None w g' ->
                P match g' with Some g => g | None => [] end) ->
  forall fuel p, Forall P (Re.findall_from ic r fuel p).
Proof.
  intros HP. induction fuel as [|fuel IH]; intros p; cbn [Re.findall_from];
    [constructor|].
  destruct (Re.match_at ic r p) as [m|] eqn:E.
  - apply match_at_sound in E. destruct E as [w [D _]].
    apply HP in D.
    destruct (length (Re.rest (Re.m_end m)) <? length (Re.rest p)).
    + constructor; [exact D | apply IH].
    + constructor; [exact D|].
      destruct (Re.advance p) as [[x p1]|]; [apply IH | constructor].
  - destruct (Re.advance p) as [[x p1]|]; [apply IH | constructor].
Qed.

End ReFacts.

(** * The tokens of a response *)

Module TokenFacts.

Import Llm LlmFacts StrFacts ReFacts.

(** A run of decimal digits that is not empty: a word of [\d+]. *)
Definition is_digits (s : str) : bool :=
  match s with
  | [] => false
  | _ => forallb is_digit s
  end.

(** A decimal numeral: digits, or digits, a point and digits. *)
Definition is_decimal (t : str) : bool :=
  match split "."%char t with
  | [i] => is_digits i
  | [i; f] => is_digits i && is_digits f
  | _ => false
  end.

Ltac inv H := inversion H; subst; clear H.

Lemma digit_no_point (c : ascii) :
  is_digit c = true -> Ascii.eqb "."%char c = false.
Proof.
  intros H. destruct (Ascii.eqb "."%char c) eqn:E; [|reflexivity].
  apply Ascii.eqb_eq in E. subst c. discriminate H.
Qed.

Lemma digits_no_point (ds : str) :
  forallb is_digit ds = true -> has_char "."%char ds = false.
Proof.
  induction ds as [|c ds IH]; [reflexivity|].
  unfold has_char in *. cbn [forallb existsb].
  intros H. apply andb_true_iff in H. destruct H as [Hc Hd].
  now rewrite (digit_no_point _ Hc), (IH Hd).
Qed.

Lemma is_digits_intro (ds : str) :
  ds <> [] -> forallb is_digit ds = true -> is_digits ds = true.
Proof. destruct ds; [congruence | auto]. Qed.

Lemma is_digits_inv (ds : str) :
  is_digits ds = true -> ds <> [] /\ forallb is_digit ds = true.
Proof.
  destruct ds; [discriminate|]. intros H. split; [discriminate | exact H].
Qed.

(** [str.isdigit] accepts a run of decimal digits. *)
Lemma isdigit_digits (ds : str) :
  ds <> [] -> forallb is_digit ds = true -> isdigit ds = true.
Proof.
  destruct ds as [|c ds]; [congruence|]. intros _ H. unfold isdigit.
  rewrite forallb_forall in *. intros x Hx. unfold isdigit_char.
  now rewrite (H x Hx).
Qed.

(** Splitting and joining again gives the string back. *)
Lemma join_split (sep : ascii) (s : str) : join [sep] (split sep s) = s.
Proof.
  induction s as [|c s IH]; [reflexivity|]. cbn [split].
  destruct (Ascii.eqb c sep) eqn:E.
  - apply Ascii.eqb_eq in E. subst c.
    destruct (split sep s) as [|w ws] eqn:S.
    + now apply split_nonempty in S.
    + change (join [sep] ([] :: w :: ws)) with ([sep] ++ join [sep] (w :: ws)).
      now rewrite IH.
  - destruct (split sep s) as [|w ws] eqn:S.
    + now apply split_nonempty in S.
    + destruct ws as [|w' ws].
      * simpl in *. now rewrite IH.
      * change (join [sep] ((c :: w) :: w' :: ws))
          with (c :: (w ++ [sep] ++ join [sep] (w' :: ws))).
        change (join [sep] (w :: w' :: ws))
          with (w ++ [sep] ++ join [sep] (w' :: ws)) in IH.
        now rewrite IH.
Qed.

Lemma split_no_sep (sep : ascii) (s : str) :
  Forall (fun w => has_char sep w = false) (split sep s).
Proof.
  induction s as [|c s IH]; cbn [split]; [repeat constructor|].
  destruct (Ascii.eqb c sep) eqn:E.
  - constructor; [reflexivity | exact IH].
  - destruct (split sep s) as [|w ws]; [repeat constructor; simpl|].
    + now rewrite Ascii.eqb_sym, E.
    + inv IH. constructor; [|assumption]. simpl.
      rewrite Ascii.eqb_sym, E. assumption.
Qed.

Lemma remove_first_app (c : ascii) (a b : str) :
  has_char c a = false -> remove_first c (a ++ c :: b) = a ++ b.
Proof.
  induction a as [|x a IH]; simpl.
  - intros _. now rewrite Ascii.eqb_refl.
  - rewrite Ascii.eqb_sym. destruct (Ascii.eqb x c); simpl; [discriminate|].
    intros H. now rewrite IH.
Qed.

Lemma remove_first_without (c : ascii) (a : str) :
  has_char c a = false -> remove_first c a = a.
Proof.
  induction a as [|x a IH]; simpl; [reflexivity|].
  rewrite Ascii.eqb_sym. destruct (Ascii.eqb x c); simpl; [discriminate|].
  intros H. now rewrite IH.
Qed.

(** A decimal numeral passes the filter of the numbers. *)
Lemma is_decimal_number (t : str) : is_decimal t = true -> is_number t = true.
Proof.
  unfold is_decimal, is_number. intros H.
  pose proof (join_split "."%char t) as J.
  destruct (split "."%char t) as [|i [|f [|x l]]]; try discriminate.
  - simpl in J. subst i. destruct (is_digits_inv _ H) as [N F].
    rewrite remove_first_without by now apply digits_no_point.
    now apply isdigit_digits.
  - apply andb_true_iff in H. destruct H as [Hi Hf].
    destruct (is_digits_inv _ Hi) as [Ni Fi].
    destruct (is_digits_inv _ Hf) as [Nf Ff].
    change (join ["."%char] [i; f]) with (i ++ "."%char :: f) in J.
    rewrite <- J. rewrite remove_first_app by now apply digits_no_point.
    apply isdigit_digits.
    + destruct i; [congruence | discriminate].
    + now rewrite forallb_app, Fi, Ff.
Qed.

Lemma yes_no_head (c : ascii) :
  In (lower_char c) ["y"; "n"]%char ->
  isdigit_char c = false /\ Ascii.eqb c "."%char = false.
Proof.
  destruct c as [[] [] [] [] [] [] [] []]; vm_compute;
    intros [H|[H|[]]]; try discriminate H; auto.
Qed.

(** A yes/no token is no number, and a decimal numeral no yes/no
    token. *)
Lemma is_yes_no_not_number (t : str) :
  is_yes_no t = true -> is_number t = false.
Proof.
  unfold is_yes_no, is_number. intros H. apply mem_In in H.
  assert (Hh : exists c t', t = c :: t' /\ In (lower_char c) ["y"; "n"]%char).
  { destruct t as [|c t']; [destruct H as [H|[H|[]]]; discriminate H|].
    exists c, t'. split; [reflexivity|]. simpl in H.
    destruct H as [H|[H|[]]]; injection H as H _; rewrite <- H; simpl; auto. }
  destruct Hh as [c [t' [-> Hc]]]. destruct (yes_no_head _ Hc) as [Hd Hp].
  simpl. rewrite Hp. simpl. now rewrite Hd.
Qed.

Ltac inv_derive :=
  repeat match goal with
  | H : derive _ (Re.Seq _ _) _ _ _ |- _ => inv H
  | H : derive _ (Re.Group _) _ _ _ |- _ => inv H
  | H : derive _ Re.WordB _ _ _ |- _ => inv H
  | H : derive _ (Re.Alt _ _) _ _ _ |- _ => inv H
  | H : derive _ (Re.Opt _) _ _ _ |- _ => inv H
  | H : derive _ (Re.Chr _) _ _ _ |- _ => inv H
  end.

(** The words of the pattern of the tokens. *)
Lemma token_derive (w : str) (g' : option str) :
  derive true token_pattern None w g' ->
  exists t, g' = Some t /\ (is_yes_no t = true \/ is_decimal t = true).
Proof.
  unfold token_pattern. intros H. inv_derive.
  - eexists. split; [reflexivity|]. left.
    cbn [Re.chr_eqb] in *. apply Ascii.eqb_eq in H0, H2, H3.
    unfold is_yes_no. cbn [app lower map]. rewrite <- H0, <- H2, <- H3.
    reflexivity.
  - eexists. split; [reflexivity|]. left.
    cbn [Re.chr_eqb] in *. apply Ascii.eqb_eq in H0, H2.
    unfold is_yes_no. cbn [app lower map]. rewrite <- H0, <- H2.
    reflexivity.
  - eexists. split; [reflexivity|]. right.
    apply chr_eqb_punct in H0; [subst x | simpl; tauto].
    apply derive_plus_class in H1, H7.
    destruct H1 as [N1 [F1 _]]. destruct H7 as [N3 [F3 _]].
    unfold is_decimal.
    change (w1 ++ ["."%char] ++ w3) with (w1 ++ "."%char :: w3).
    rewrite split_app by now apply digits_no_point.
    rewrite split_without by now apply digits_no_point.
    now rewrite !is_digits_intro.
  - eexists. split; [reflexivity|]. right.
    match goal with H : derive _ (Re.Plus _) _ _ _ |- _ =>
      apply derive_plus_class in H; destruct H as [N1 [F1 _]] end.
    unfold is_decimal. rewrite app_nil_r.
    rewrite split_without by now apply digits_no_point.
    now apply is_digits_intro.
Qed.

(** Every token the scan finds in a response is either a text that
    the word [yes] or the word [no] of the pattern matches, which the
    filter of the numbers drops, or a decimal numeral, digits with at
    most one point between them, which the filter of the numbers keeps
    and which is no yes/no answer: [float] gets decimal numerals
    only. *)
Theorem tokens_are_answers_or_numerals (text t : str) :
  In t (numbers text) ->
  (Re.word_eqb true (lit "yes") t || Re.word_eqb true (lit "no") t = true /\
   is_number t = false) \/
  (is_decimal t = true /\ is_number t = true /\ is_yes_no t = false).
Proof.
  intros Hin.
  assert (H : Forall (fun t => is_yes_no t = true \/ is_decimal t = true)
                (numbers text)).
  { unfold numbers, Re.findall. apply findall_from_sound.
    intros w g' D. apply token_derive in D.
    destruct D as [t0 [-> D]]. exact D. }
  rewrite Forall_forall in H. destruct (H t Hin) as [Hy|Hd].
  - left. split; [|now apply is_yes_no_not_number].
    unfold is_yes_no in Hy. apply mem_In in Hy. apply orb_true_iff.
    destruct Hy as [Hy|[Hy|[]]]; [left | right];
      apply word_eqb_lower; now rewrite <- Hy.
  - right. split; [exact Hd|]. pose proof (is_decimal_number _ Hd) as Hn.
    split; [exact Hn|].
    destruct (is_yes_no t) eqn:E; [|reflexivity].
    apply is_yes_no_not_number in E. congruence.
Qed.

(** [tokens_are_answers_or_numerals] on the token ["12.5"] of a
    response. *)
Lemma tokens_are_answers_or_numerals_witness :
  (Re.word_eqb true (lit "yes") (lit "12.5")
   || Re.word_eqb true (lit "no") (lit "12.5") = true /\
   is_number (lit "12.5") = false) \/
  (is_decimal (lit "12.5") = true /\ is_number (lit "12.5") = true /\
   is_yes_no (lit "12.5") = false).
Proof.
  apply (tokens_are_answers_or_numerals (lit "Yes, about 12.5 hours.")).
  vm_compute. right. left. reflexivity.
Defined.

End TokenFacts.

(** * More on stripping and splitting *)

Module StripFacts.

Import StrFacts TokenFacts.

(** What [lstrip_by] drops is in the set, and what it keeps does not
    start in the set. *)
Lemma lstrip_by_split (p : ascii -> bool) (s : str) :
  exists d, s = d ++ lstrip_by p s /\ forallb p d = true.
Proof.
  induction s as [|c s [d [E F]]]; [now exists []|]. simpl.
  destruct (p c) eqn:Pc.
  - exists (c :: d). simpl. rewrite Pc, F. now rewrite <- E.
  - now exists [].
Qed.

Lemma lstrip_by_head (p : ascii -> bool) (s : str) :
  match lstrip_by p s with
  | [] => True
  | c :: _ => p c = false
  end.
Proof.
  induction s as [|c s IH]; simpl; [exact I|].
  destruct (p c) eqn:Pc; [exact IH | exact Pc].
Qed.

Lemma lstrip_by_keep (p : ascii -> bool) (s : str) :
  match s with
  | [] => True
  | c :: _ => p c = false
  end ->
  lstrip_by p s = s.
Proof. destruct s as [|c s]; simpl; [auto|]. now intros ->. Qed.

Lemma lstrip_by_idem (p : ascii -> bool) (s : str) :
  lstrip_by p (lstrip_by p s) = lstrip_by p s.
Proof. apply lstrip_by_keep, lstrip_by_head. Qed.

(** A stripped string is left alone by each side, hence by [strip_by]. *)
Lemma strip_by_stripped (p : ascii -> bool) (s : str) :
  lstrip_by p (strip_by p s) = strip_by p s /\
  rstrip_by p (strip_by p s) = strip_by p s.
Proof.
  unfold strip_by, rstrip_by. set (t := lstrip_by p s).
  set (u := lstrip_by p (rev t)). split.
  - destruct (lstrip_by_split p (rev t)) as [d [E _]]. fold u in E.
    assert (Et : t = rev u ++ rev d).
    { rewrite <- (rev_involutive t), E. apply rev_app_distr. }
    apply lstrip_by_keep. pose proof (lstrip_by_head p s) as Hh. fold t in Hh.
    destruct (rev u) as [|c r]; [exact I|].
    rewrite Et in Hh. exact Hh.
  - rewrite rev_involutive. unfold u. now rewrite lstrip_by_idem.
Qed.

Lemma strip_by_idem (p : ascii -> bool) (s : str) :
  strip_by p (strip_by p s) = strip_by p s.
Proof.
  destruct (strip_by_stripped p s) as [L R].
  unfold strip_by at 1. now rewrite L, R.
Qed.

(** Stripping keeps a part of the string. *)
Lemma strip_by_part (p : ascii -> bool) (s : str) :
  exists a b, s = a ++ strip_by p s ++ b.
Proof.
  unfold strip_by, rstrip_by.
  destruct (lstrip_by_split p s) as [a [Ea _]].
  destruct (lstrip_by_split p (rev (lstrip_by p s))) as [b [Eb _]].
  exists a, (rev b). rewrite Ea at 1. f_equal.
  rewrite <- (rev_involutive (lstrip_by p s)) at 1. rewrite Eb at 1.
  apply rev_app_distr.
Qed.

Lemma strip_by_without (p : ascii -> bool) (c : ascii) (s : str) :
  has_char c s = false -> has_char c (strip_by p s) = false.
Proof.
  destruct (strip_by_part p s) as [a [b E]]. intros H. rewrite E in H.
  rewrite !has_char_app in H. apply orb_false_iff in H.
  destruct H as [_ H]. apply orb_false_iff in H. tauto.
Qed.

(** The ids of a comma-separated list: stripped, without a comma, and at
    least one. *)
Lemma split_ids_stripped (s : str) :
  Forall (fun id => strip id = id /\ has_char ","%char id = false)
    (Collector.split_ids s).
Proof.
  unfold Collector.split_ids. apply Forall_map.
  eapply Forall_impl; [|apply (split_no_sep ","%char s)].
  intros w H. split; [apply strip_by_idem | now apply strip_by_without].
Qed.

Lemma split_ids_nonempty (s : str) : Collector.split_ids s <> [].
Proof.
  unfold Collector.split_ids. intros E. apply map_eq_nil in E.
  now apply split_nonempty in E.
Qed.

(** Joining ids with [", "] and splitting again gives the ids back. *)
Lemma split_join_ids (ids : list str) :
  ids <> [] ->
  Forall (fun id => strip id = id /\ has_char ","%char id = false) ids ->
  Collector.split_ids (join (lit ", ") ids) = ids.
Proof.
  unfold Collector.split_ids.
  assert (G : forall ids pre,
            ids <> [] ->
            Forall (fun id => strip id = id /\ has_char ","%char id = false)
              ids ->
            has_char ","%char pre = false ->
            map strip (split ","%char (pre ++ join (lit ", ") ids)) =
            strip (pre ++ hd [] ids) :: tl ids).
  { induction ids0 as [|x l IH]; intros pre Hne Hall Hp; [congruence|].
    inversion Hall as [|? ? [Sx Cx] Hl]; subst.
    destruct l as [|y l].
    - simpl. rewrite split_without; [reflexivity|].
      now rewrite has_char_app, Hp, Cx.
    - change (join (lit ", ") (x :: y :: l))
        with (x ++ ","%char :: (lit " " ++ join (lit ", ") (y :: l))).
      rewrite app_assoc, split_app by now rewrite has_char_app, Hp, Cx.
      cbn [map hd tl]. f_equal.
      rewrite (IH (lit " ")); [|discriminate | exact Hl | reflexivity].
      cbn [hd tl]. f_equal.
      inversion Hl as [|? ? [Sy _] _]; subst. exact Sy. }
  intros Hne Hall. rewrite <- (app_nil_l (join _ _)).
  rewrite (G ids [] Hne Hall eq_refl). destruct ids as [|x l]; [congruence|].
  simpl. inversion Hall as [|? ? [Sx _] _]; subst. now rewrite Sx.
Qed.

End StripFacts.

(** * A judge that answers as asked *)

Module AnswerFacts.

Import Llm LlmFacts StrFacts VerdictFacts ScanFacts TokenFacts StripFacts.

(** A text that does not start with a word character. *)
Definition starts_clear (s : str) : bool :=
  negb (Re.word_at (hd_error s)).

(** A text that does not end with a word character. *)
Definition ends_clear (s : str) : bool :=
  negb (Re.word_at (hd_error (rev s))).

(** ** Characters *)

Lemma digit_facts (c : ascii) :
  is_digit c = true ->
  is_word c = true /\ is_space c = false /\
  Re.chr_eqb true "y"%char c = false /\
  Re.chr_eqb true "n"%char c = false.
Proof.
  destruct c as [[] [] [] [] [] [] [] []]; vm_compute;
    intros H; try discriminate H; repeat split.
Qed.

Lemma answer_letter (c : ascii) :
  existsb (Ascii.eqb (lower_char c)) (lit "yesno") = true ->
  is_word c = true /\ is_space c = false.
Proof.
  destruct c as [[] [] [] [] [] [] [] []]; vm_compute;
    intros H; try discriminate H; repeat split.
Qed.

Lemma chr_eqb_lower (c x : ascii) :
  lower_char x = lower_char c -> Re.chr_eqb true c x = true.
Proof.
  intros H. unfold Re.chr_eqb. rewrite H. apply Ascii.eqb_refl.
Qed.

(** ** The equations of the matcher *)

Section Steps.

Variable R : Type.
Variable k : Re.pos -> option str -> option R.

Lemma step_seq (r1 r2 : Re.regex) (p : Re.pos) (g : option str) :
  Re.step true (Re.Seq r1 r2) p g k =
  Re.step true r1 p g (fun p' g' => Re.step true r2 p' g' k).
Proof. reflexivity. Qed.

Lemma step_chr (c x : ascii) (b r : str) (g : option str) :
  Re.step true (Re.Chr c) {| Re.before := b; Re.rest := x :: r |} g k =
  if Re.chr_eqb true c x
  then k {| Re.before := x :: b; Re.rest := r |} g
  else None.
Proof. reflexivity. Qed.

Lemma step_class (f : ascii -> bool) (x : ascii) (b r : str)
    (g : option str) :
  Re.step true (Re.Class f) {| Re.before := b; Re.rest := x :: r |} g k =
  if f x then k {| Re.before := x :: b; Re.rest := r |} g else None.
Proof. reflexivity. Qed.

Lemma step_alt (r1 r2 : Re.regex) (p : Re.pos) (g : option str) :
  Re.step true (Re.Alt r1 r2) p g k =
  match Re.step true r1 p g k with
  | Some x => Some x
  | None => Re.step true r2 p g k
  end.
Proof. reflexivity. Qed.

Lemma step_opt (r1 : Re.regex) (p : Re.pos) (g : option str) :
  Re.step true (Re.Opt r1) p g k =
  match Re.step true r1 p g k with
  | Some x => Some x
  | None => k p g
  end.
Proof. reflexivity. Qed.

Lemma step_group (r1 : Re.regex) (p : Re.pos) (g : option str) :
  Re.step true (Re.Group r1) p g k =
  Re.step true r1 p g (fun p' _ => k p' (Some (Re.between p p'))).
Proof. reflexivity. Qed.

Lemma step_wordb (b r : str) (g : option str) :
  Re.step true Re.WordB {| Re.before := b; Re.rest := r |} g k =
  if xorb (Re.word_at (hd_error b)) (Re.word_at (hd_error r))
  then k {| Re.before := b; Re.rest := r |} g
  else None.
Proof. reflexivity. Qed.

End Steps.

(** The greedy star takes a whole run of a class when what follows the
    run then matches. *)
Lemma step_star_class (R : Type) (k : Re.pos -> option str -> option R)
    (f : ascii -> bool) (r : str) (x : R) :
  match r with
  | [] => True
  | c :: _ => f c = false
  end ->
  forall ds b g,
  forallb f ds = true ->
  k {| Re.before := rev ds ++ b; Re.rest := r |} g = Some x ->
  Re.step true (Re.Star (Re.Class f))
    {| Re.before := b; Re.rest := ds ++ r |} g k = Some x.
Proof.
  intros Hr. induction ds as [|d ds IH]; intros b g Hd Hk.
  - simpl in Hk. simpl app. destruct r as [|c r'].
    + exact Hk.
    + cbn [Re.step Re.rest length Re.advance Re.before]. now rewrite Hr.
  - simpl in Hd. apply andb_true_iff in Hd. destruct Hd as [Hd Hds].
    simpl in Hk. rewrite <- app_assoc in Hk.
    pose proof (IH (d :: b) g Hds Hk) as E.
    cbn [Re.step Re.rest] in E.
    change ((d :: ds) ++ r) with (d :: (ds ++ r)).
    cbn [Re.step Re.rest length Re.advance Re.before]. rewrite Hd.
    replace (length (ds ++ r) <? S (length (ds ++ r))) with true
      by (symmetry; apply Nat.ltb_lt; lia).
    now rewrite E.
Qed.

(** A word of the pattern matches a text that is the same once
    lowered. *)
Lemma step_word (R : Type) (k : Re.pos -> option str -> option R)
    (s : str) :
  s <> [] ->
  forall w b r g,
  lower w = lower s ->
  Re.step true (Re.Word s) {| Re.before := b; Re.rest := w ++ r |} g k =
  k {| Re.before := rev w ++ b; Re.rest := r |} g.
Proof.
  induction s as [|c s IH]; [congruence|]. intros _ w b r g E.
  destruct w as [|x w]; [discriminate E|].
  cbn [lower map] in E. injection E as Ex Ew.
  destruct s as [|c' s'].
  - destruct w; [|discriminate Ew].
    cbn [Re.Word app]. rewrite step_chr, (chr_eqb_lower c x Ex).
    reflexivity.
  - change (Re.Word (c :: c' :: s'))
      with (Re.Seq (Re.Chr c) (Re.Word (c' :: s'))).
    change ((x :: w) ++ r) with (x :: (w ++ r)).
    rewrite step_seq, step_chr, (chr_eqb_lower c x Ex).
    cbn [rev]. rewrite <- app_assoc. apply IH; [discriminate | exact Ew].
Qed.


Lemma between_app (b b' w r : str) :
  Re.between {| Re.before := b; Re.rest := w ++ r |}
    {| Re.before := b'; Re.rest := r |} = w.
Proof.
  unfold Re.between. cbn [Re.rest]. rewrite length_app, Nat.add_sub.
  rewrite firstn_app, Nat.sub_diag, firstn_all. simpl. apply app_nil_r.
Qed.

Lemma yes_no_cases (answer : str) :
  is_yes_no answer = true ->
  lower answer = lit "yes" \/ lower answer = lit "no".
Proof.
  unfold is_yes_no. intros H. apply mem_In in H.
  destruct H as [H|[H|[]]]; auto.
Qed.

(** ** Tokens that stand alone *)

(** A yes/no word between two places that hold no word character is
    the token found there. *)
Lemma match_at_answer (b r answer : str) :
  is_yes_no answer = true ->
  Re.word_at (hd_error b) = false ->
  Re.word_at (hd_error r) = false ->
  Re.match_at true token_pattern
    {| Re.before := b; Re.rest := answer ++ r |} =
  Some {| Re.m_end := {| Re.before := rev answer ++ b; Re.rest := r |};
          Re.m_group := Some answer |}.
Proof.
  intros Hy Hb Hr. destruct (yes_no_cases _ Hy) as [E|E].
  - destruct answer as [|c1 [|c2 [|c3 [|]]]]; try discriminate E.
    change (lit "yes") with ["y"; "e"; "s"]%char in E.
    cbn [lower map] in E. injection E as E1 E2 E3.
    unfold Re.match_at, token_pattern.
    change (Re.Word (lit "yes"))
      with (Re.Seq (Re.Chr "y") (Re.Seq (Re.Chr "e") (Re.Chr "s"))).
    rewrite step_seq, step_wordb. cbn [app hd_error Re.word_at].
    destruct (answer_letter c1) as [W1 _]; [now rewrite E1|].
    destruct (answer_letter c3) as [W3 _]; [now rewrite E3|].
    rewrite Hb, W1. cbn [xorb].
    rewrite step_seq, step_group, step_alt, step_seq.
    rewrite step_chr, (chr_eqb_lower "y" c1 E1). cbv beta.
    rewrite step_seq, step_chr, (chr_eqb_lower "e" c2 E2). cbv beta.
    rewrite step_chr, (chr_eqb_lower "s" c3 E3). cbv beta.
    rewrite step_wordb. cbn [hd_error Re.word_at]. rewrite W3, Hr.
    cbn [xorb].
    change (c1 :: c2 :: c3 :: r) with ([c1; c2; c3] ++ r).
    now rewrite between_app.
  - destruct answer as [|c1 [|c2 [|]]]; try discriminate E.
    change (lit "no") with ["n"; "o"]%char in E.
    cbn [lower map] in E. injection E as E1 E2.
    unfold Re.match_at, token_pattern.
    change (Re.Word (lit "yes"))
      with (Re.Seq (Re.Chr "y") (Re.Seq (Re.Chr "e") (Re.Chr "s"))).
    change (Re.Word (lit "no")) with (Re.Seq (Re.Chr "n") (Re.Chr "o")).
    rewrite step_seq, step_wordb. cbn [app hd_error Re.word_at].
    destruct (answer_letter c1) as [W1 _]; [now rewrite E1|].
    destruct (answer_letter c2) as [W2 _]; [now rewrite E2|].
    rewrite Hb, W1. cbn [xorb].
    rewrite step_seq, step_group, step_alt, step_seq, step_chr.
    replace (Re.chr_eqb true "y" c1) with false
      by (unfold Re.chr_eqb; now rewrite E1).
    rewrite step_alt, step_seq.
    rewrite step_chr, (chr_eqb_lower "n" c1 E1). cbv beta.
    rewrite step_chr, (chr_eqb_lower "o" c2 E2). cbv beta.
    rewrite step_wordb. cbn [hd_error Re.word_at]. rewrite W2, Hr.
    cbn [xorb].
    change (c1 :: c2 :: r) with ([c1; c2] ++ r).
    now rewrite between_app.
Qed.

Lemma last_digit (ds b : str) :
  is_digits ds = true ->
  Re.word_at (hd_error (rev ds ++ b)) = true.
Proof.
  intros H. apply is_digits_inv in H. destruct H as [Hne Hd].
  apply forallb_rev_true in Hd.
  destruct (rev ds) as [|c s] eqn:E.
  - apply (f_equal (@rev ascii)) in E. rewrite rev_involutive in E.
    simpl in E. congruence.
  - cbn [forallb] in Hd. apply andb_true_iff in Hd.
    cbn [app hd_error Re.word_at]. now apply digit_facts.
Qed.

(** No fraction starts where an inert text starts. *)
Lemma no_fraction (R : Type) (k : Re.pos -> option str -> option R)
    (b r : str) (g : option str) :
  forallb inert r = true ->
  Re.step true (Re.Seq (Re.Chr ".") (Re.Plus (Re.Class is_digit)))
    {| Re.before := b; Re.rest := r |} g k = None.
Proof.
  intros Hi. rewrite step_seq. destruct r as [|c [|c' r']].
  - reflexivity.
  - rewrite step_chr. destruct (Re.chr_eqb true "." c); reflexivity.
  - rewrite step_chr. destruct (Re.chr_eqb true "." c); [|reflexivity].
    unfold Re.Plus. rewrite step_seq, step_class.
    cbn [forallb] in Hi. apply andb_true_iff in Hi. destruct Hi as [_ Hi].
    apply andb_true_iff in Hi. destruct Hi as [Hi _].
    apply inert_spec in Hi. destruct Hi as [Hi _]. now rewrite Hi.
Qed.

Lemma inert_head (r : str) :
  forallb inert r = true ->
  match r with
  | [] => True
  | c :: _ => is_digit c = false
  end.
Proof.
  destruct r as [|c r]; [auto|]. cbn [forallb]. intros H.
  apply andb_true_iff in H. destruct H as [H _].
  now apply inert_spec in H.
Qed.

(** A run of digits between two places that hold no word character,
    with no digit after it, is the token found there. *)
Lemma match_at_digits (b r ds : str) :
  is_digits ds = true ->
  Re.word_at (hd_error b) = false ->
  forallb inert r = true ->
  Re.word_at (hd_error r) = false ->
  Re.match_at true token_pattern
    {| Re.before := b; Re.rest := ds ++ r |} =
  Some {| Re.m_end := {| Re.before := rev ds ++ b; Re.rest := r |};
          Re.m_group := Some ds |}.
Proof.
  intros Hd Hb Hi Hr. apply is_digits_inv in Hd. destruct Hd as [Hne Hd].
  destruct ds as [|d ds]; [congruence|]. clear Hne.
  cbn [forallb] in Hd. apply andb_true_iff in Hd. destruct Hd as [Hd Hds].
  destruct (digit_facts _ Hd) as [Wd [_ [Ny Nn]]].
  unfold Re.match_at, token_pattern.
  change (Re.Word (lit "yes"))
    with (Re.Seq (Re.Chr "y") (Re.Seq (Re.Chr "e") (Re.Chr "s"))).
  change (Re.Word (lit "no")) with (Re.Seq (Re.Chr "n") (Re.Chr "o")).
  change ((d :: ds) ++ r) with (d :: (ds ++ r)).
  rewrite step_seq, step_wordb. cbn [hd_error Re.word_at].
  rewrite Hb, Wd. cbn [xorb].
  rewrite step_seq, step_group, step_alt, step_seq, step_chr, Ny.
  rewrite step_alt, step_seq, step_chr, Nn.
  rewrite step_seq. unfold Re.Plus at 1. rewrite step_seq, step_class, Hd.
  apply step_star_class; [now apply inert_head | exact Hds |].
  rewrite step_opt, no_fraction by exact Hi.
  rewrite step_wordb.
  change (rev ds ++ d :: b) with (rev ds ++ [d] ++ b).
  rewrite app_assoc. change (rev ds ++ [d]) with (rev (d :: ds)).
  rewrite last_digit, Hr.
  - cbn [xorb]. change (d :: ds ++ r) with ((d :: ds) ++ r).
    now rewrite between_app.
  - apply is_digits_intro; [discriminate|]. cbn [forallb].
    now rewrite Hd, Hds.
Qed.

(** ** The scan of a text with two tokens *)

Lemma hd_error_app (s t : str) : s <> [] -> hd_error (s ++ t) = hd_error s.
Proof. destruct s; [congruence | reflexivity]. Qed.

(** The scan walks over an inert text. *)
Lemma findall_skip (gap : str) :
  forall b r fuel,
  forallb inert gap = true ->
  Re.findall_from true token_pattern (length gap + fuel)
    {| Re.before := b; Re.rest := gap ++ r |} =
  Re.findall_from true token_pattern fuel
    {| Re.before := rev gap ++ b; Re.rest := r |}.
Proof.
  induction gap as [|c gap IH]; intros b r fuel H; [reflexivity|].
  cbn [forallb] in H. apply andb_true_iff in H. destruct H as [Hc Hg].
  cbn [length Nat.add app Re.findall_from].
  rewrite match_at_inert by exact Hc.
  cbn [Re.advance Re.rest Re.before]. rewrite IH by exact Hg.
  cbn [rev]. now rewrite <- app_assoc.
Qed.

(** The scan takes a token and resumes after it. *)
Lemma findall_token (w b r : str) (fuel : nat) :
  w <> [] ->
  Re.match_at true token_pattern
    {| Re.before := b; Re.rest := w ++ r |} =
  Some {| Re.m_end := {| Re.before := rev w ++ b; Re.rest := r |};
          Re.m_group := Some w |} ->
  Re.findall_from true token_pattern (S fuel)
    {| Re.before := b; Re.rest := w ++ r |} =
  w :: Re.findall_from true token_pattern fuel
         {| Re.before := rev w ++ b; Re.rest := r |}.
Proof.
  intros Hw H. cbn [Re.findall_from]. rewrite H.
  cbn [Re.m_end Re.m_group Re.rest].
  replace (length r <? length (w ++ r)) with true; [reflexivity|].
  symmetry. apply Nat.ltb_lt. rewrite length_app.
  destruct w; [congruence | simpl; lia].
Qed.

Lemma yes_no_nonempty (answer : str) :
  is_yes_no answer = true -> answer <> [].
Proof. intros H ->. discriminate H. Qed.

(** A text that holds a yes/no word and then a run of digits, each
    standing alone, and inert text around them, has these two tokens. *)
Lemma findall_answer (pre answer sep ds post : str) :
  is_yes_no answer = true ->
  is_digits ds = true ->
  forallb inert pre = true -> ends_clear pre = true ->
  forallb inert sep = true -> sep <> [] ->
  starts_clear sep = true -> ends_clear sep = true ->
  forallb inert post = true -> starts_clear post = true ->
  Re.findall true token_pattern (pre ++ answer ++ sep ++ ds ++ post) =
  [answer; ds].
Proof.
  unfold starts_clear, ends_clear.
  intros Hy Hd Ip Ep Is Ns Ss Es Io So.
  apply negb_true_iff in Ep, Ss, Es, So.
  pose proof (yes_no_nonempty _ Hy) as Na.
  assert (Nd : ds <> []) by now apply is_digits_inv in Hd.
  unfold Re.findall, Re.start_of.
  replace (S (length (pre ++ answer ++ sep ++ ds ++ post)))
    with (length pre +
          S (length sep +
             S (length answer + pred (length ds) + length post))).
  2: { rewrite !length_app.
       destruct answer; [congruence|]. destruct ds; [congruence|].
       simpl. lia. }
  rewrite findall_skip by exact Ip.
  rewrite findall_token; [|exact Na|].
  2: { apply match_at_answer; [exact Hy | now rewrite app_nil_r |].
       now rewrite hd_error_app. }
  rewrite findall_skip by exact Is.
  rewrite findall_token; [|exact Nd|].
  2: { apply match_at_digits; [exact Hd | | exact Io | exact So].
       rewrite hd_error_app; [exact Es|].
       intros E. apply (f_equal (@rev ascii)) in E.
       rewrite rev_involutive in E. now apply Ns. }
  now rewrite findall_from_inert.
Qed.

(** ** Stripping around a core *)

Lemma lstrip_by_core (p : ascii -> bool) (pre core : str) :
  match core with
  | [] => False
  | c :: _ => p c = false
  end ->
  lstrip_by p (pre ++ core) = lstrip_by p pre ++ core.
Proof.
  intros H. induction pre as [|a pre IH].
  - simpl. destruct core as [|c core]; [destruct H|].
    simpl. now rewrite H.
  - simpl. destruct (p a); [exact IH | reflexivity].
Qed.

Lemma rstrip_by_core (p : ascii -> bool) (core post : str) :
  match rev core with
  | [] => False
  | c :: _ => p c = false
  end ->
  rstrip_by p (core ++ post) = core ++ rstrip_by p post.
Proof.
  intros H. unfold rstrip_by. rewrite rev_app_distr.
  rewrite lstrip_by_core by exact H.
  now rewrite rev_app_distr, rev_involutive.
Qed.

Lemma ends_clear_lstrip (p : ascii -> bool) (s : str) :
  ends_clear s = true -> ends_clear (lstrip_by p s) = true.
Proof.
  unfold ends_clear. destruct (lstrip_by_split p s) as [d [E _]].
  intros H. destruct (lstrip_by p s) as [|c t] eqn:L; [reflexivity|].
  rewrite E, rev_app_distr, hd_error_app in H; [exact H|].
  intros N. apply (f_equal (@rev ascii)) in N.
  rewrite rev_involutive in N. discriminate N.
Qed.

Lemma rstrip_by_split (p : ascii -> bool) (s : str) :
  exists d, s = rstrip_by p s ++ d.
Proof.
  unfold rstrip_by. destruct (lstrip_by_split p (rev s)) as [d [E _]].
  exists (rev d). rewrite <- rev_app_distr, <- E.
  now rewrite rev_involutive.
Qed.

Lemma starts_clear_rstrip (p : ascii -> bool) (s : str) :
  starts_clear s = true -> starts_clear (rstrip_by p s) = true.
Proof.
  unfold starts_clear. destruct (rstrip_by_split p s) as [d E].
  intros H. destruct (rstrip_by p s) as [|c t] eqn:L; [reflexivity|].
  rewrite E in H. exact H.
Qed.

Lemma forallb_rstrip_by (f p : ascii -> bool) (s : str) :
  forallb f s = true -> forallb f (rstrip_by p s) = true.
Proof.
  intros H. unfold rstrip_by.
  now apply forallb_rev_true, forallb_lstrip_by, forallb_rev_true.
Qed.

Lemma answer_head (answer : str) :
  is_yes_no answer = true ->
  match answer with
  | [] => False
  | c :: _ => is_space c = false
  end.
Proof.
  intros Hy. destruct (yes_no_cases _ Hy) as [E|E];
    destruct answer as [|c t]; try discriminate E;
    cbn [lower map] in E; injection E as E _;
    apply answer_letter; now rewrite E.
Qed.

Lemma digits_last (ds : str) :
  is_digits ds = true ->
  match rev ds with
  | [] => False
  | c :: _ => is_space c = false
  end.
Proof.
  intros H. apply is_digits_inv in H. destruct H as [Hne Hd].
  apply forallb_rev_true in Hd. destruct (rev ds) as [|c s] eqn:E.
  - apply (f_equal (@rev ascii)) in E. rewrite rev_involutive in E.
    simpl in E. congruence.
  - cbn [forallb] in Hd. apply andb_true_iff in Hd.
    now apply digit_facts.
Qed.

(** ** The verdict of an answer as asked *)

(** The tokens of such a response, once stripped. *)
Lemma numbers_answer (pre answer sep ds post : str) :
  is_yes_no answer = true ->
  is_digits ds = true ->
  forallb inert pre = true -> ends_clear pre = true ->
  forallb inert sep = true -> sep <> [] ->
  starts_clear sep = true -> ends_clear sep = true ->
  forallb inert post = true -> starts_clear post = true ->
  numbers (pre ++ answer ++ sep ++ ds ++ post) = [answer; ds].
Proof.
  intros Hy Hd Ip Ep Is Ns Ss Es Io So.
  unfold numbers, strip, strip_by.
  rewrite lstrip_by_core.
  2: { pose proof (answer_head _ Hy) as H.
       destruct answer; [destruct H | exact H]. }
  replace (lstrip_by is_space pre ++ answer ++ sep ++ ds ++ post)
    with ((lstrip_by is_space pre ++ answer ++ sep ++ ds) ++ post)
    by now rewrite <- !app_assoc.
  rewrite rstrip_by_core.
  2: { rewrite !rev_app_distr. pose proof (digits_last _ Hd) as H.
       destruct (rev ds); [destruct H | exact H]. }
  rewrite <- !app_assoc.
  apply findall_answer; auto.
  - now apply forallb_lstrip_by.
  - now apply ends_clear_lstrip.
  - now apply forallb_rstrip_by.
  - now apply starts_clear_rstrip.
Qed.

(** When the judge answers as the prompt asks, a yes/no word and then
    a whole number below [2^53], each standing alone in a text that
    holds no other digit and no [y] or [n], the verdict is status 200,
    the word lowered and the number as a float of that very value. *)
Theorem answer_as_asked (generate_content : str -> judge_result)
    (filtered_commits : list CommitDocument)
    (description pre answer sep ds post : str) :
  generate_content (build_prompt filtered_commits description) =
  Returned (pre ++ answer ++ sep ++ ds ++ post) ->
  is_yes_no answer = true ->
  is_digits ds = true ->
  (digits_val ds < 2 ^ 53)%Z ->
  forallb inert pre = true -> ends_clear pre = true ->
  forallb inert sep = true -> sep <> [] ->
  starts_clear sep = true -> ends_clear sep = true ->
  forallb inert post = true -> starts_clear post = true ->
  call_llm generate_content filtered_commits description =
  (200%Z, lower answer, PyFloat (FFinite (inject_Z (digits_val ds)))).
Proof.
  intros Hj Hy Hd Hb Ip Ep Is Ns Ss Es Io So.
  pose proof (numbers_answer pre answer sep ds post
                Hy Hd Ip Ep Is Ns Ss Es Io So) as Hn.
  pose proof (is_yes_no_not_number _ Hy) as Ny.
  pose proof Hd as Hd'. apply is_digits_inv in Hd'. destruct Hd' as [_ Hdd].
  assert (Nd : is_number ds = true).
  { unfold is_number.
    rewrite remove_first_without by now apply digits_no_point.
    apply isdigit_digits; [now apply is_digits_inv in Hd | exact Hdd]. }
  assert (Hs : second_overflows
                 (numbers (pre ++ answer ++ sep ++ ds ++ post)) = false).
  { rewrite Hn. unfold second_overflows, numeric_tokens.
    cbn [filter]. now rewrite Ny, Nd. }
  rewrite (call_llm_returned _ _ _ _ Hj Hs), Hn.
  unfold first_yes_no, first_number, numeric_tokens.
  cbn [find filter]. rewrite Hy, Ny, Nd.
  now rewrite float_of_whole_number.
Qed.

(** [answer_as_asked] on the response ["Yes, about 40 hours."]. *)
Lemma answer_as_asked_witness :
  call_llm (fun _ => Returned (lit "Yes, about 40 hours.")) [] [] =
  (200%Z, lit "yes", PyFloat (FFinite (inject_Z 40))).
Proof.
  apply (answer_as_asked (fun _ => Returned (lit "Yes, about 40 hours."))
           [] [] [] (lit "Yes") (lit ", about ") (lit "40")
           (lit " hours."));
    try reflexivity; discriminate.
Defined.

End AnswerFacts.

(** * More on the collector *)

Module CollectorMore.

Import Collector StrFacts CollectorFacts StripFacts TokenFacts ReFacts.

Lemma not_bracket_without (g : str) :
  forallb (fun c => negb (Ascii.eqb c "]"%char)) g = true ->
  has_char "]"%char g = false.
Proof.
  unfold has_char. induction g as [|c g IH]; [reflexivity|].
  cbn [forallb existsb]. intros H. apply andb_true_iff in H.
  destruct H as [Hc Hg]. rewrite (IH Hg), Ascii.eqb_sym.
  now destruct (Ascii.eqb c "]"%char).
Qed.

(** The words of the pattern of the tag block: the keyword in any case,
    whitespace, a colon, whitespace, and the bracketed group, which is
    not empty and has no ["]"]. *)
Lemma tag_derive (w : str) (g' : option str) :
  derive true function_id_pattern None w g' ->
  exists kw sp1 sp2 group1,
    w = kw ++ sp1 ++ lit ":" ++ sp2 ++ lit "[" ++ group1 ++ lit "]" /\
    g' = Some group1 /\
    lower kw = lit "testcase" /\
    forallb is_space sp1 = true /\ forallb is_space sp2 = true /\
    group1 <> [] /\ has_char "]"%char group1 = false.
Proof.
  unfold function_id_pattern. intros H.
  apply derive_seq_inv in H. destruct H as [kw [g1 [w1 [-> [Hk H]]]]].
  apply derive_word in Hk; [|discriminate]. destruct Hk as [L ->].
  apply derive_seq_inv in H. destruct H as [sp1 [g2 [w2 [-> [Hs H]]]]].
  apply derive_star_class with (f := is_space) in Hs; [|reflexivity].
  destruct Hs as [F1 ->].
  apply derive_seq_inv in H. destruct H as [c1 [g3 [w3 [-> [Hc H]]]]].
  apply derive_chr_inv in Hc. destruct Hc as [x [-> [Hx ->]]].
  apply chr_eqb_punct in Hx; [subst x | simpl; tauto].
  apply derive_seq_inv in H. destruct H as [sp2 [g4 [w4 [-> [Hs H]]]]].
  apply derive_star_class with (f := is_space) in Hs; [|reflexivity].
  destruct Hs as [F2 ->].
  apply derive_seq_inv in H. destruct H as [c2 [g5 [w5 [-> [Hc H]]]]].
  apply derive_chr_inv in Hc. destruct Hc as [x [-> [Hx ->]]].
  apply chr_eqb_punct in Hx; [subst x | simpl; tauto].
  apply derive_seq_inv in H. destruct H as [grp [g6 [w6 [-> [Hg H]]]]].
  apply derive_group_inv in Hg. destruct Hg as [-> [g7 Hp]].
  apply derive_plus_class in Hp. destruct Hp as [N [F _]].
  apply derive_chr_inv in H. destruct H as [x [-> [Hx ->]]].
  apply chr_eqb_punct in Hx; [subst x | simpl; tauto].
  exists kw, sp1, sp2, grp. split; [reflexivity|]. split; [reflexivity|].
  split; [exact L|]. split; [exact F1|]. split; [exact F2|].
  split; [exact N | now apply not_bracket_without].
Qed.

(** The tag block of a message stands in the message. *)
Lemma tag_block_shape (message group1 : str) :
  tag_block message = Some group1 ->
  exists pre kw sp1 sp2 post,
    message =
    pre ++ kw ++ sp1 ++ lit ":" ++ sp2 ++ lit "[" ++ group1 ++ lit "]" ++ post /\
    lower kw = lit "testcase" /\
    forallb is_space sp1 = true /\ forallb is_space sp2 = true /\
    group1 <> [] /\ has_char "]"%char group1 = false.
Proof.
  unfold tag_block. intros H. apply search_sound in H.
  destruct H as [pre [w [post [g' [E [D G]]]]]].
  apply tag_derive in D.
  destruct D as [kw [sp1 [sp2 [g1 [Ew [-> [L [F1 [F2 [N B]]]]]]]]]].
  subst group1 w. exists pre, kw, sp1, sp2, post.
  split; [|auto]. rewrite E. now rewrite <- !app_assoc.
Qed.

Section More.

Variable requests_get : str -> str -> Response.
Variables function_id repo_slug repo_token workspace : str.

Local Abbreviation commit_body :=
  (commit_body requests_get function_id repo_slug repo_token workspace).
Local Abbreviation for_commits :=
  (for_commits requests_get function_id repo_slug repo_token workspace).
Local Abbreviation while_next_url :=
  (while_next_url requests_get function_id repo_slug repo_token workspace).
Local Abbreviation get_commits :=
  (get_commits requests_get function_id repo_slug repo_token workspace).
Local Abbreviation API_URL := (API_URL repo_slug workspace).
Local Abbreviation diff_url_of := (diff_url_of repo_slug workspace).
Local Abbreviation emits :=
  (emits requests_get function_id repo_slug repo_token workspace).
Local Abbreviation diffs := (diffs function_id repo_slug workspace).
Local Abbreviation is_match := (is_match function_id).
Local Abbreviation aborts := (aborts function_id).
Local Abbreviation follow := (follow requests_get repo_token).
Local Abbreviation commits_of := (commits_of requests_get repo_token).

(** The diff a document is given: the text of the diff response, or
    nothing when the response is not a 200. *)
Definition diff_of (commit : Commit) : option str :=
  let diff_response := requests_get (diff_url_of commit) repo_token in
  if (status_code diff_response =? 200)%Z then Some (text diff_response)
  else None.

(** What a commit adds, by cases. *)
Lemma emits_cases (commit : Commit) :
  (is_match commit = false /\ emits commit = [] /\ diffs commit = []) \/
  (is_match commit = true /\
   has_char "<"%char (author_raw commit) = false /\
   emits commit = [] /\ diffs commit = [DiffRequest (diff_url_of commit)]) \/
  (is_match commit = true /\
   has_char "<"%char (author_raw commit) = true /\
   exists doc,
     emits commit = [doc] /\
     diffs commit = [DiffRequest (diff_url_of commit)] /\
     hash doc = commit_hash commit /\
     message doc = strip (commit_message commit) /\
     code_diff doc = diff_of commit /\
     username_of (author_raw commit) = Ok (author_username doc) /\
     email_of (author_raw commit) = Ok (author_email doc)).
Proof.
  unfold CollectorFacts.emits, CollectorFacts.diffs, CollectorFacts.is_match,
    tag_block, Collector.commit_body, diff_of.
  destruct (Re.search true function_id_pattern (strip (commit_message commit)))
    as [group1|]; [|now left].
  destruct (any_in (split_ids function_id) (split_ids group1));
    [|now left].
  right. destruct (username_of_ok (author_raw commit)) as [name Hn].
  rewrite Hn. destruct (has_char "<"%char (author_raw commit)) eqn:Hc.
  - right. destruct (email_of_with _ Hc) as [email He]. rewrite He.
    split; [reflexivity|]. split; [reflexivity|].
    eexists. simpl. repeat split.
  - left. rewrite (email_of_without _ Hc). simpl. auto.
Qed.

Lemma aborts_false_cases (commit : Commit) :
  aborts commit = false ->
  (emits commit = [] /\ diffs commit = []) \/
  (exists doc,
     emits commit = [doc] /\
     diffs commit = [DiffRequest (diff_url_of commit)] /\
     hash doc = commit_hash commit /\
     message doc = strip (commit_message commit) /\
     code_diff doc = diff_of commit /\
     username_of (author_raw commit) = Ok (author_username doc) /\
     email_of (author_raw commit) = Ok (author_email doc)).
Proof.
  unfold CollectorFacts.aborts.
  destruct (emits_cases commit) as [[_ H]|[[Hm [Hc _]]|[_ [_ H]]]].
  - now left.
  - rewrite Hm, Hc. discriminate.
  - now right.
Qed.

(** ** An invariant of the loops *)

Section Invariant.

Variable Inv : state -> Prop.

Hypothesis Inv_page :
  forall url st, Inv st -> Inv (fst st ++ [PageRequest url], snd st).

Hypothesis Inv_commit :
  forall commit st,
  Inv st -> aborts commit = false ->
  Inv (fst st ++ diffs commit, snd st ++ emits commit).

Lemma for_commits_keeps (commits : list Commit) :
  forall st st',
  Inv st -> for_commits commits st = (st', Ok tt) -> Inv st'.
Proof.
  induction commits as [|c cs IH]; intros [trace filtered_commits] st' Hi H.
  - injection H as <-. exact Hi.
  - rewrite for_commits_cons, commit_body_frame in H.
    destruct (aborts c) eqn:Ha; [discriminate|].
    apply (IH _ _ (Inv_commit c _ Hi Ha) H).
Qed.

Lemma while_keeps (fuel : nat) :
  forall next_url st trace status docs,
  Inv st ->
  while_next_url fuel next_url false st = Some (trace, Ok (status, docs)) ->
  exists filtered_commits,
    Inv (trace, filtered_commits) /\ (status, docs) = finish filtered_commits.
Proof.
  induction fuel as [|fuel IH]; intros next_url st trace status docs Hi H.
  - simpl in H. destruct (truthy next_url); [discriminate|].
    destruct st as [tr acc]. exists acc. unfold finish. simpl in H.
    destruct acc; injection H as <- <- <-; auto.
  - destruct (truthy next_url) as [url|] eqn:Hu.
    + rewrite (while_step _ _ _ _ _ _ _ _ _ _ Hu) in H. cbv zeta in H.
      rewrite andb_false_l in H.
      destruct (status_code (requests_get url repo_token) =? 200)%Z.
      * destruct (for_commits (values (json (requests_get url repo_token)))
                    (fst st ++ [PageRequest url], snd st))
          as [st' [[]|e]] eqn:E; [|discriminate].
        apply (IH _ _ _ _ _ (for_commits_keeps _ _ _ (Inv_page url _ Hi) E) H).
      * apply (IH _ _ _ _ _ (Inv_page url _ Hi) H).
    + rewrite (while_stop _ _ _ _ _ _ _ _ _ Hu) in H.
      injection H as <- <-. destruct st as [tr acc]. now exists acc.
Qed.

(** A call that returns either stopped at the first page, or went
    through the loop and kept the invariant. *)
Lemma get_commits_keeps (fuel : nat) (trace : list request) (status : Z)
    (docs : list CommitDocument) :
  Inv ([], []) ->
  get_commits fuel = Some (trace, Ok (status, docs)) ->
  ((status =? 200)%Z = false /\
   status = status_code (requests_get API_URL repo_token) /\
   docs = [] /\ trace = [PageRequest API_URL]) \/
  (exists filtered_commits,
     Inv (trace, filtered_commits) /\
     (status, docs) = finish filtered_commits).
Proof.
  intros Hi H. unfold Collector.get_commits in H.
  destruct fuel as [|fuel]; [discriminate|].
  rewrite (while_step _ _ _ _ _ _ _ _ _ _
             (API_URL_truthy repo_slug workspace)) in H.
  cbv zeta in H. rewrite andb_true_l in H.
  destruct (status_code (requests_get API_URL repo_token) =? 200)%Z eqn:Es.
  - right. simpl negb in H. cbv iota in H.
    destruct (for_commits (values (json (requests_get API_URL repo_token)))
                (fst ([], []) ++ [PageRequest API_URL], snd ([], [])))
      as [st' [[]|e]] eqn:E; [|discriminate].
    apply (while_keeps _ _ _ _ _ _
             (for_commits_keeps _ _ _ (Inv_page API_URL _ Hi) E) H).
  - left. simpl in H. injection H as <- <- <-. auto.
Qed.

End Invariant.

(** ** Properties *)

(** The URL of the diff of a hash. *)
Definition diff_url_for (hash : str) : str :=
  lit "https://api.bitbucket.org/2.0/repositories/" ++ workspace ++
  lit "/" ++ repo_slug ++ lit "/diff/" ++ hash.

(** The diff requests of a run, in order. *)
Definition diff_requests (trace : list request) : list request :=
  filter (fun r => negb (is_page_request r)) trace.

(** A commit that passes the filter and whose author has a ["<"] adds
    one diff request and one document, whatever the diff request
    answers: the document has the hash and the stripped message of the
    commit, and the text of the diff when its status is 200, no diff
    otherwise. *)
Theorem document_of_matching_commit (commit : Commit) (st : state) :
  is_match commit = true ->
  has_char "<"%char (author_raw commit) = true ->
  exists doc,
    commit_body commit st =
    ((fst st ++ [DiffRequest (diff_url_of commit)], snd st ++ [doc]),
     Ok tt) /\
    hash doc = commit_hash commit /\
    message doc = strip (commit_message commit) /\
    code_diff doc =
    (if (status_code (requests_get (diff_url_of commit) repo_token) =? 200)%Z
     then Some (text (requests_get (diff_url_of commit) repo_token))
     else None).
Proof.
  intros Hm Hc. destruct st as [trace filtered_commits].
  rewrite commit_body_frame. unfold CollectorFacts.aborts.
  rewrite Hm, Hc. simpl andb. cbv iota.
  destruct (emits_cases commit) as [[E _]|[[_ [E _]]|[_ [_ [doc H]]]]];
    [congruence | congruence |].
  destruct H as [He [Hd [Hh [Hmsg [Hdiff _]]]]].
  exists doc. rewrite He, Hd. auto.
Qed.

(** A call that returns gives 200 with at least one document, or 404
    with none, or the status of a first page that is not 200 with none
    after that one request: there are documents exactly when the status
    is 200. *)
Theorem get_commits_result_shape (fuel : nat) (trace : list request)
    (status : Z) (docs : list CommitDocument) :
  get_commits fuel = Some (trace, Ok (status, docs)) ->
  (status = 200%Z /\ docs <> []) \/
  (status = 404%Z /\ docs = []) \/
  (status <> 200%Z /\ docs = [] /\
   status = status_code (requests_get API_URL repo_token) /\
   trace = [PageRequest API_URL]).
Proof.
  intros H.
  destruct (get_commits_keeps (fun _ => True) (fun _ _ _ => I)
              (fun _ _ _ _ => I) _ _ _ _ I H)
    as [[Hs [E [Hd Ht]]]|[filtered_commits [_ E]]].
  - right. right. apply Z.eqb_neq in Hs. auto.
  - unfold finish in E. destruct filtered_commits; injection E as -> ->.
    + right. left. auto.
    + left. split; [reflexivity | discriminate].
Qed.

(** In a call that returns, the diff requests are those of the returned
    documents, one for the hash of each, in order: no diff is asked for
    a commit that is not returned. *)
Theorem diff_requests_of_documents (fuel : nat) (trace : list request)
    (status : Z) (docs : list CommitDocument) :
  get_commits fuel = Some (trace, Ok (status, docs)) ->
  diff_requests trace =
  map (fun doc => DiffRequest (diff_url_for (hash doc))) docs.
Proof.
  intros H.
  set (Inv := fun st : state =>
         diff_requests (fst st) =
         map (fun doc => DiffRequest (diff_url_for (hash doc))) (snd st)).
  assert (Hp : forall url st, Inv st ->
               Inv (fst st ++ [PageRequest url], snd st)).
  { intros url [tr acc]. unfold Inv, diff_requests. simpl.
    rewrite filter_app. simpl. now rewrite app_nil_r. }
  assert (Hc : forall commit st, Inv st -> aborts commit = false ->
               Inv (fst st ++ diffs commit, snd st ++ emits commit)).
  { intros commit [tr acc]. unfold Inv, diff_requests. simpl. intros Hi Ha.
    destruct (aborts_false_cases commit Ha)
      as [[-> ->]|[doc [-> [-> [Hh _]]]]].
    - now rewrite !app_nil_r.
    - rewrite filter_app, map_app, Hi. simpl. rewrite Hh. reflexivity. }
  destruct (get_commits_keeps Inv Hp Hc _ _ _ _ eq_refl H)
    as [[_ [_ [-> ->]]]|[filtered_commits [Hi E]]].
  - reflexivity.
  - unfold Inv in Hi. simpl in Hi. unfold finish in E.
    destruct filtered_commits; injection E as -> ->; exact Hi.
Qed.

(** The fields of a document that is returned. *)
Definition well_kept (doc : CommitDocument) : Prop :=
  strip (message doc) = message doc /\
  strip (author_username doc) = author_username doc /\
  has_char "<"%char (author_username doc) = false /\
  has_char "<"%char (author_email doc) = false /\
  strip_char ">"%char (author_email doc) = author_email doc.

Lemma item_In {A : Type} (l : list A) (i : nat) (a : A) :
  item l i = Ok a -> In a l.
Proof.
  unfold item, index. destruct (nth_error l i) as [x|] eqn:E; [|discriminate].
  intros [= <-]. eapply nth_error_In. exact E.
Qed.

Lemma emits_well_kept (commit : Commit) (doc : CommitDocument) :
  In doc (emits commit) -> well_kept doc.
Proof.
  intros Hin.
  destruct (emits_cases commit)
    as [[_ [E _]]|[[_ [_ [E _]]]|[_ [_ [d [E H]]]]]];
    rewrite E in Hin; try (destruct Hin; fail).
  destruct Hin as [<-|[]]. destruct H as [_ [_ [Hm [_ [Hu He]]]]].
  pose proof (split_no_sep "<"%char (author_raw commit)) as Hs.
  rewrite Forall_forall in Hs.
  unfold username_of in Hu. unfold email_of in He.
  destruct (item (split "<"%char (author_raw commit)) 0) as [name|] eqn:E0;
    [|discriminate].
  destruct (item (split "<"%char (author_raw commit)) 1) as [email|] eqn:E1;
    [|discriminate].
  simpl in Hu, He. injection Hu as Hu. injection He as He.
  apply item_In in E0, E1. apply Hs in E0, E1.
  unfold well_kept. rewrite Hm, <- Hu, <- He. unfold strip, strip_char.
  repeat split.
  - apply strip_by_idem.
  - apply strip_by_idem.
  - now apply strip_by_without.
  - now apply strip_by_without, strip_by_without.
  - apply strip_by_idem.
Qed.

(** Every document a call returns has a stripped message, a stripped
    user name without ["<"], and an email without ["<"] that neither
    starts nor ends with [">"]. *)
Theorem documents_well_kept (fuel : nat) (trace : list request)
    (status : Z) (docs : list CommitDocument) :
  get_commits fuel = Some (trace, Ok (status, docs)) ->
  Forall well_kept docs.
Proof.
  intros H.
  set (Inv := fun st : state => Forall well_kept (snd st)).
  assert (Hp : forall url st, Inv st ->
               Inv (fst st ++ [PageRequest url], snd st)) by auto.
  assert (Hc : forall commit st, Inv st -> aborts commit = false ->
               Inv (fst st ++ diffs commit, snd st ++ emits commit)).
  { intros commit st Hi _. unfold Inv. simpl. apply Forall_app.
    split; [exact Hi|]. apply Forall_forall. intros doc.
    apply emits_well_kept. }
  destruct (get_commits_keeps Inv Hp Hc _ _ _ _ (Forall_nil _) H)
    as [[_ [_ [-> _]]]|[filtered_commits [Hi E]]]; [constructor|].
  unfold finish in E.
  destruct filtered_commits; injection E as -> ->; [constructor | exact Hi].
Qed.

(** The message of every document a call returns holds a tag block: a
    keyword that the word [testcase] of the pattern matches, whitespace
    or none, a colon, whitespace or none, and between brackets a text
    that is not empty and has no ["]"], one of whose ids is requested. *)
Theorem documents_hold_a_tag_block (fuel : nat) (trace : list request)
    (status : Z) (docs : list CommitDocument) (doc : CommitDocument) :
  get_commits fuel = Some (trace, Ok (status, docs)) ->
  In doc docs ->
  exists pre kw sp1 sp2 group1 post,
    message doc =
    pre ++ kw ++ sp1 ++ lit ":" ++ sp2 ++ lit "[" ++ group1 ++ lit "]" ++ post /\
    Re.word_eqb true (lit "testcase") kw = true /\
    forallb is_space sp1 = true /\ forallb is_space sp2 = true /\
    group1 <> [] /\ has_char "]"%char group1 = false /\
    exists id, In id (split_ids group1) /\ In id (split_ids function_id).
Proof.
  intros Hrun Hin.
  pose proof (while_tagged requests_get function_id repo_slug repo_token
                workspace fuel (Some API_URL) true ([], []) trace status
                docs (Forall_nil _) Hrun) as Hall.
  rewrite Forall_forall in Hall.
  destruct (Hall doc Hin) as [group1 [Hb [Ha _]]].
  destruct (tag_block_shape _ _ Hb)
    as [pre [kw [sp1 [sp2 [post [E [L [F1 [F2 [N B]]]]]]]]]].
  exists pre, kw, sp1, sp2, group1, post.
  apply (proj2 (word_eqb_lower (lit "testcase") kw)) in L.
  repeat split; auto.
  unfold any_in in Ha. apply existsb_exists in Ha.
  destruct Ha as [id [Hr Ht]]. apply mem_In in Ht. now exists id.
Qed.

Lemma common_ids_idem (tags requested : list str) :
  common_ids tags (common_ids tags requested) = common_ids tags requested.
Proof.
  unfold common_ids. apply filter_ext_in. intros id Hin.
  destruct (mem id requested) eqn:E.
  - apply mem_In. apply filter_In. split; [exact Hin | exact E].
  - destruct (mem id (filter (fun fid => mem fid requested) tags)) eqn:F;
      [|reflexivity].
    apply mem_In, filter_In in F. destruct F as [_ F]. congruence.
Qed.

(** The [function_id] of a document a call returns reads back as the
    ids it was joined from; requested in its turn, it selects the same
    ids of the tag block. *)
Theorem function_id_reads_back (fuel : nat) (trace : list request)
    (status : Z) (docs : list CommitDocument) (doc : CommitDocument) :
  get_commits fuel = Some (trace, Ok (status, docs)) ->
  In doc docs ->
  exists group1,
    tag_block (message doc) = Some group1 /\
    split_ids (Data.function_id doc) =
    common_ids (split_ids group1) (split_ids function_id) /\
    common_ids (split_ids group1) (split_ids (Data.function_id doc)) =
    split_ids (Data.function_id doc).
Proof.
  intros Hrun Hin.
  pose proof (while_tagged requests_get function_id repo_slug repo_token
                workspace fuel (Some API_URL) true ([], []) trace status
                docs (Forall_nil _) Hrun) as Hall.
  rewrite Forall_forall in Hall.
  destruct (Hall doc Hin) as [group1 [Hb [Ha Hf]]].
  exists group1. split; [exact Hb|].
  assert (E : split_ids (Data.function_id doc) =
              common_ids (split_ids group1) (split_ids function_id)).
  { rewrite Hf. apply split_join_ids.
    - now apply any_in_common.
    - unfold common_ids. apply Forall_forall. intros id Hid.
      apply filter_In in Hid. destruct Hid as [Hid _].
      pose proof (split_ids_stripped group1) as Hs.
      rewrite Forall_forall in Hs. now apply Hs. }
  split; [exact E|]. rewrite E. apply common_ids_idem.
Qed.

(** ** A source that never ends *)

Lemma follow_truthy (urls : list str) (a b : option str) :
  urls <> [] -> truthy a = truthy b -> follow a urls = follow b urls.
Proof. destruct urls; [congruence|]. intros _ E. simpl. now rewrite E. Qed.

(** The fuel runs out inside the pages when there is less of it than
    pages. *)
Lemma while_short (urls : list str) :
  forall next_url nxt first st fuel,
  follow next_url urls = Some nxt ->
  existsb aborts (commits_of urls) = false ->
  fuel < length urls ->
  while_next_url fuel next_url first st = None.
Proof.
  induction urls as [|url urls IH];
    intros next_url nxt first [trace filtered_commits] fuel Hf Ha Hl.
  - simpl in Hl. lia.
  - apply follow_cons in Hf. destruct Hf as [Hu [Hs Hf]].
    unfold CollectorFacts.commits_of in Ha. simpl in Ha.
    rewrite existsb_app in Ha. apply orb_false_iff in Ha.
    destruct Ha as [Ha1 Ha2].
    destruct fuel as [|fuel]; [simpl; now rewrite Hu|].
    rewrite (while_step _ _ _ _ _ _ _ _ _ _ Hu). cbv zeta. rewrite Hs.
    rewrite andb_false_r. simpl fst. simpl snd.
    fold (page_of requests_get repo_token url).
    rewrite (for_commits_ok _ _ _ _ _ _ _ _ Ha1).
    apply (IH _ _ _ _ _ Hf Ha2). simpl in Hl. lia.
Qed.

(** When the pages name one another in a circle that comes back to the
    first URL, and no commit of them aborts the call, the loop does not
    end: no fuel is enough. *)
Theorem circular_pages_never_end (urls : list str) (nxt : option str)
    (fuel : nat) :
  follow (Some API_URL) urls = Some nxt ->
  truthy nxt = Some API_URL ->
  1 <= length urls ->
  existsb aborts (commits_of urls) = false ->
  get_commits fuel = None.
Proof.
  intros Hf Hn Hl Ha. unfold Collector.get_commits.
  assert (Hne : urls <> []) by (destruct urls; [simpl in Hl; lia | discriminate]).
  assert (G : forall n next_url first st,
            truthy next_url = Some API_URL ->
            while_next_url n next_url first st = None).
  { induction n as [n IH] using lt_wf_ind. intros next_url first st Ht.
    assert (Hf' : follow next_url urls = Some nxt).
    { rewrite <- Hf. apply follow_truthy; [exact Hne|].
      rewrite Ht. symmetry. apply API_URL_truthy. }
    destruct (Nat.lt_ge_cases n (length urls)) as [Hlt|Hge].
    - apply (while_short _ _ _ _ _ _ Hf' Ha Hlt).
    - replace n with (length urls + (n - length urls)) by lia.
      destruct st as [trace filtered_commits].
      rewrite (while_follow _ _ _ _ _ _ _ _ _ _ _ _ Hf' Ha).
      apply IH; [lia | exact Hn]. }
  apply G. apply API_URL_truthy.
Qed.

End More.

End CollectorMore.

(** * The search of the tag block *)

Module TagFacts.

Import Collector StrFacts CollectorFacts StripFacts TokenFacts ReFacts
  ScanFacts CollectorMore AnswerFacts.

(** ** Characters and strings *)

Lemma lower_space (c : ascii) : is_space (lower_char c) = is_space c.
Proof. destruct c as [[] [] [] [] [] [] [] []]; reflexivity. Qed.

Lemma has_char_lower (c : ascii) (s : str) :
  has_char c s = true -> has_char (lower_char c) (lower s) = true.
Proof.
  unfold has_char. induction s as [|x s IH]; [discriminate|].
  cbn [lower map existsb]. intros H. apply orb_true_iff in H.
  destruct H as [H|H].
  - apply Ascii.eqb_eq in H. subst x. now rewrite Ascii.eqb_refl.
  - unfold lower in IH. rewrite (IH H). apply orb_true_r.
Qed.

Lemma has_char_class (f : ascii -> bool) (c : ascii) (s : str) :
  forallb f s = true -> f c = false -> has_char c s = false.
Proof.
  unfold has_char. intros H Hc. induction s as [|x s IH]; [reflexivity|].
  cbn [forallb existsb] in *. apply andb_true_iff in H.
  destruct H as [Hx Hs]. rewrite (IH Hs), orb_false_r.
  destruct (Ascii.eqb c x) eqn:E; [|reflexivity].
  apply Ascii.eqb_eq in E. congruence.
Qed.

Lemma without_not (c : ascii) (s : str) :
  has_char c s = false ->
  forallb (fun x => negb (Ascii.eqb x c)) s = true.
Proof.
  unfold has_char. induction s as [|x s IH]; [reflexivity|].
  cbn [forallb existsb]. intros H. apply orb_false_iff in H.
  destruct H as [Hx Hs]. rewrite (IH Hs), Ascii.eqb_sym, Hx. reflexivity.
Qed.

(** Two ways to cut a text at the first occurrence of a character are
    the same. *)
Lemma first_cut (c : ascii) (a b x y : str) :
  has_char c a = false -> has_char c b = false ->
  a ++ c :: x = b ++ c :: y -> a = b /\ x = y.
Proof.
  unfold has_char. revert b. induction a as [|u a IH]; intros b Ha Hb E.
  - destruct b as [|v b].
    + simpl in E. injection E as ->. auto.
    + simpl in E. injection E as <- _. cbn [existsb] in Hb.
      now rewrite Ascii.eqb_refl in Hb.
  - destruct b as [|v b].
    + simpl in E. injection E as -> _. cbn [existsb] in Ha.
      now rewrite Ascii.eqb_refl in Ha.
    + simpl in E. injection E as -> E. cbn [existsb] in Ha, Hb.
      apply orb_false_iff in Ha, Hb.
      destruct (IH b (proj2 Ha) (proj2 Hb) E) as [-> ->]. auto.
Qed.

Lemma lstrip_by_spaces (p : ascii -> bool) (s : str) :
  forallb p s = true -> lstrip_by p s = [].
Proof.
  induction s as [|c s IH]; [reflexivity|]. cbn [forallb lstrip_by].
  intros H. apply andb_true_iff in H. destruct H as [-> H]. now apply IH.
Qed.

(** The keyword has eight characters, none of them a space, a colon or a
    bracket. *)
Lemma keyword_facts (kw : str) :
  lower kw = lit "testcase" ->
  length kw = 8 /\
  has_char "["%char kw = false /\
  match rev kw with
  | [] => False
  | c :: _ => is_space c = false
  end.
Proof.
  intros L. split; [|split].
  - apply (f_equal (@length ascii)) in L. unfold lower in L.
    now rewrite length_map in L.
  - destruct (has_char "["%char kw) eqn:E; [|reflexivity].
    apply has_char_lower in E. rewrite L in E. discriminate E.
  - destruct kw as [|c1 [|c2 [|c3 [|c4 [|c5 [|c6 [|c7 [|c8 [|]]]]]]]]];
      try discriminate L.
    cbn [rev app]. rewrite <- lower_space.
    cbn [lower map] in L.
    change (lit "testcase")
      with ["t"; "e"; "s"; "t"; "c"; "a"; "s"; "e"]%char in L.
    injection L as _ _ _ _ _ _ _ L. now rewrite L.
Qed.

(** ** A tag block in a message *)

Section Tag.

Variables kw sp1 sp2 group1 : str.

Hypothesis Hkw : lower kw = lit "testcase".
Hypothesis Hsp1 : forallb is_space sp1 = true.
Hypothesis Hsp2 : forallb is_space sp2 = true.
Hypothesis Hne : group1 <> [].
Hypothesis Hgr : has_char "]"%char group1 = false.

(** The pattern matches where a tag block starts, and the group holds
    what stands between the brackets. *)
Lemma match_at_tag (b post : str) :
  exists e,
    Re.match_at true function_id_pattern
      {| Re.before := b;
         Re.rest := kw ++ sp1 ++ lit ":" ++ sp2 ++ lit "[" ++ group1 ++
                    lit "]" ++ post |} =
    Some {| Re.m_end := e; Re.m_group := Some group1 |}.
Proof.
  assert (Eg : exists c g, group1 = c :: g).
  { destruct group1 as [|c g] eqn:E; [congruence|]. now exists c, g. }
  destruct Eg as [c [g Eg]].
  pose proof (without_not _ _ Hgr) as Hg. rewrite Eg in Hg.
  cbn [forallb] in Hg. apply andb_true_iff in Hg. destruct Hg as [Hc Hg].
  eexists. unfold Re.match_at, function_id_pattern.
  rewrite step_seq, (step_word _ _ (lit "testcase")); [|discriminate|exact Hkw].
  rewrite step_seq.
  apply step_star_class; [reflexivity | exact Hsp1 |].
  change (lit ":" ++ sp2 ++ lit "[" ++ group1 ++ lit "]" ++ post)
    with (":"%char :: (sp2 ++ lit "[" ++ group1 ++ lit "]" ++ post)).
  rewrite step_seq, step_chr.
  change (Re.chr_eqb true ":" ":") with true. cbv iota beta.
  rewrite step_seq.
  apply step_star_class; [reflexivity | exact Hsp2 |].
  rewrite Eg.
  change (lit "[" ++ (c :: g) ++ lit "]" ++ post)
    with ("["%char :: c :: (g ++ "]"%char :: post)).
  rewrite step_seq, step_chr.
  change (Re.chr_eqb true "[" "[") with true. cbv iota beta.
  rewrite step_seq, step_group. unfold Re.Plus.
  rewrite step_seq, step_class. cbv beta. rewrite Hc.
  apply step_star_class; [reflexivity | exact Hg |].
  rewrite step_chr.
  change (Re.chr_eqb true "]" "]") with true. cbv iota beta.
  change (c :: g ++ "]"%char :: post) with ((c :: g) ++ "]"%char :: post).
  rewrite between_app. reflexivity.
Qed.

(** No match starts before the tag block in a text that has no ["["]
    there. *)
Lemma no_early_match (b pre post : str) :
  pre <> [] ->
  has_char "["%char pre = false ->
  Re.match_at true function_id_pattern
    {| Re.before := b;
       Re.rest := pre ++ kw ++ sp1 ++ lit ":" ++ sp2 ++ lit "[" ++
                  group1 ++ lit "]" ++ post |} = None.
Proof.
  intros Hp Hb.
  match goal with |- ?t = None => destruct t as [m|] eqn:E end;
    [exfalso | reflexivity].
  apply match_at_sound in E. destruct E as [w [D [M _]]].
  cbn [Re.rest] in M. apply tag_derive in D.
  destruct D as [kw' [s1 [s2 [g1 [Ew [_ [L' [F1 [F2 _]]]]]]]]]. subst w.
  destruct (keyword_facts _ Hkw) as [K1 [K2 K3]].
  destruct (keyword_facts _ L') as [K1' [K2' K3']].
  assert (A : (pre ++ kw ++ sp1 ++ lit ":" ++ sp2) ++
              "["%char :: (group1 ++ lit "]" ++ post) =
              (kw' ++ s1 ++ lit ":" ++ s2) ++
              "["%char :: (g1 ++ lit "]" ++ Re.rest (Re.m_end m))).
  { rewrite <- !app_assoc. rewrite <- !app_assoc in M. exact M. }
  apply first_cut in A.
  2: { rewrite !has_char_app, Hb, K2.
       rewrite (has_char_class is_space "["%char sp1 Hsp1 eq_refl).
       now rewrite (has_char_class is_space "["%char sp2 Hsp2 eq_refl). }
  2: { rewrite !has_char_app, K2'.
       rewrite (has_char_class is_space "["%char s1 F1 eq_refl).
       now rewrite (has_char_class is_space "["%char s2 F2 eq_refl). }
  destruct A as [A _].
  apply (f_equal (@rev ascii)) in A. rewrite !rev_app_distr in A.
  change (rev (lit ":")) with [":"%char] in A.
  rewrite <- !app_assoc in A. cbn [app] in A.
  apply first_cut in A.
  2: { apply (has_char_class is_space); [|reflexivity].
       now apply forallb_rev_true. }
  2: { apply (has_char_class is_space); [|reflexivity].
       now apply forallb_rev_true. }
  destruct A as [_ A].
  apply (f_equal (lstrip_by is_space)) in A.
  rewrite !lstrip_by_core in A.
  2: { destruct (rev kw'); [destruct K3' | exact K3']. }
  2: { destruct (rev kw); [destruct K3 | exact K3]. }
  rewrite !lstrip_by_spaces in A by now apply forallb_rev_true.
  apply (f_equal (@length ascii)) in A.
  rewrite !length_app, !length_rev in A. cbn [length] in A.
  destruct pre; [congruence | simpl in A; lia].
Qed.

(** The search walks over the text before the tag block. *)
Lemma search_skip (post pre : str) :
  forall b fuel,
  has_char "["%char pre = false ->
  Re.search_from true function_id_pattern (length pre + fuel)
    {| Re.before := b;
       Re.rest := pre ++ kw ++ sp1 ++ lit ":" ++ sp2 ++ lit "[" ++
                  group1 ++ lit "]" ++ post |} =
  Re.search_from true function_id_pattern fuel
    {| Re.before := rev pre ++ b;
       Re.rest := kw ++ sp1 ++ lit ":" ++ sp2 ++ lit "[" ++
                  group1 ++ lit "]" ++ post |}.
Proof.
  induction pre as [|c pre IH]; intros b fuel Hb; [reflexivity|].
  cbn [length Nat.add Re.search_from].
  rewrite no_early_match by (exact Hb || discriminate).
  cbn [app Re.advance Re.rest Re.before].
  unfold has_char in Hb. cbn [existsb] in Hb. apply orb_false_iff in Hb.
  rewrite IH by exact (proj2 Hb).
  cbn [rev]. now rewrite <- app_assoc.
Qed.

(** The search finds the first tag block of a message. *)
Lemma tag_block_found (pre post : str) :
  has_char "["%char pre = false ->
  tag_block (pre ++ kw ++ sp1 ++ lit ":" ++ sp2 ++ lit "[" ++ group1 ++
             lit "]" ++ post) = Some group1.
Proof.
  intros Hb. unfold tag_block, Re.search, Re.start_of.
  replace (length (pre ++ kw ++ sp1 ++ lit ":" ++ sp2 ++ lit "[" ++
                   group1 ++ lit "]" ++ post))
    with (length pre +
          length (kw ++ sp1 ++ lit ":" ++ sp2 ++ lit "[" ++ group1 ++
                  lit "]" ++ post))
    by now rewrite <- length_app.
  rewrite search_skip by exact Hb.
  destruct (match_at_tag (rev pre ++ []) post) as [e E].
  destruct (length _); cbn [Re.search_from]; now rewrite E.
Qed.

End Tag.

(** ** A commit with a tag block *)

Section Kept.

Variable requests_get : str -> str -> Response.
Variables function_id repo_slug repo_token workspace : str.

(** A commit is kept when its stripped message holds, after a text
    with no ["["], a tag block (a keyword that the word [testcase] of
    the pattern matches, whitespace or none, a colon, whitespace or
    none, and a bracketed list that is not empty and has no ["]"]), one
    id of the list is requested and its author has a ["<"]: it causes
    one diff request and adds one document, whose [function_id] joins
    the ids of the list that are requested. *)
Theorem tagged_commit_is_kept (commit : Commit) (st : state)
    (pre kw sp1 sp2 group1 post : str) :
  strip (commit_message commit) =
  pre ++ kw ++ sp1 ++ lit ":" ++ sp2 ++ lit "[" ++ group1 ++ lit "]" ++
  post ->
  has_char "["%char pre = false ->
  Re.word_eqb true (lit "testcase") kw = true ->
  forallb is_space sp1 = true ->
  forallb is_space sp2 = true ->
  group1 <> [] ->
  has_char "]"%char group1 = false ->
  (exists id, In id (split_ids function_id) /\ In id (split_ids group1)) ->
  has_char "<"%char (author_raw commit) = true ->
  exists doc,
    commit_body requests_get function_id repo_slug repo_token workspace
      commit st =
    ((fst st ++ [DiffRequest (diff_url_of repo_slug workspace commit)],
      snd st ++ [doc]), Ok tt) /\
    message doc = strip (commit_message commit) /\
    Data.function_id doc =
    join (lit ", ")
      (common_ids (split_ids group1) (split_ids function_id)).
Proof.
  intros Hm Hb Hk H1 H2 Hn Hg [id [Hf Ht]] Ha.
  apply (proj1 (word_eqb_lower (lit "testcase") kw)) in Hk.
  destruct st as [trace filtered_commits].
  assert (Hs : Re.search true function_id_pattern
                 (strip (commit_message commit)) = Some group1).
  { rewrite Hm.
    exact (tag_block_found kw sp1 sp2 group1 Hk H1 H2 Hn Hg pre post Hb). }
  unfold Collector.commit_body. cbv zeta. rewrite Hs.
  assert (Hany : any_in (split_ids function_id) (split_ids group1) = true).
  { unfold any_in. apply existsb_exists. exists id.
    split; [exact Hf | now apply mem_In]. }
  rewrite Hany.
  destruct (username_of_ok (author_raw commit)) as [name En].
  destruct (email_of_with _ Ha) as [email Ee].
  rewrite En, Ee. eexists. cbn [bind fst snd]. repeat split.
Qed.

End Kept.

End TagFacts.

(** * The prompt *)

Module PromptFacts.

Import Llm StrFacts.

Lemma starts_with_app (p b : str) : starts_with p (p ++ b) = true.
Proof.
  induction p as [|c p IH]; [reflexivity|]. simpl.
  now rewrite Ascii.eqb_refl, IH.
Qed.

Lemma contains_here (p b : str) : contains p (p ++ b) = true.
Proof.
  destruct (p ++ b) as [|c s] eqn:E; simpl; rewrite <- E;
    now rewrite starts_with_app.
Qed.

Lemma contains_skip (p a s : str) :
  contains p s = true -> contains p (a ++ s) = true.
Proof.
  intros H. induction a as [|c a IH]; [exact H|]. simpl.
  rewrite IH. apply orb_true_r.
Qed.

(** A string holds each of its parts. *)
Lemma contains_part (p a b : str) : contains p (a ++ p ++ b) = true.
Proof. apply contains_skip, contains_here. Qed.

Lemma join_part (sep x : str) (l : list str) :
  In x l -> exists a b, join sep l = a ++ x ++ b.
Proof.
  induction l as [|y l IH]; [intros []|]. intros [->|Hin].
  - destruct l as [|z l].
    + exists [], []. simpl. now rewrite app_nil_r.
    + exists [], (sep ++ join sep (z :: l)). reflexivity.
  - destruct (IH Hin) as [a [b E]]. destruct l as [|z l]; [destruct Hin|].
    exists (y ++ sep ++ a), b.
    change (join sep (y :: z :: l)) with (y ++ sep ++ join sep (z :: l)).
    rewrite E. now rewrite <- !app_assoc.
Qed.

(** The prompt holds the description and the block of every document,
    with its message, its author as ["name <email>"] and its diff, or the
    word [None] for a diff that is missing: nothing is cut. *)
Theorem prompt_holds_the_evidence (filtered_commits : list CommitDocument)
    (description : str) :
  contains description (build_prompt filtered_commits description) = true /\
  forall commit,
  In commit filtered_commits ->
  contains (commit_info commit) (build_prompt filtered_commits description)
  = true /\
  contains (message commit) (commit_info commit) = true /\
  contains (author_shown commit) (commit_info commit) = true /\
  contains match code_diff commit with Some d => d | None => lit "None" end
    (commit_info commit) = true.
Proof.
  unfold build_prompt. cbv zeta. split.
  - repeat (apply contains_here || apply contains_skip).
  - intros commit Hin. split; [|split; [|split]].
    + destruct (join_part [nl; nl] (commit_info commit)
                  (map commit_info filtered_commits)
                  (in_map commit_info _ _ Hin)) as [a [b E]].
      rewrite E. rewrite <- !app_assoc.
      repeat (apply contains_here || apply contains_skip).
    + unfold commit_info.
      repeat (apply contains_here || apply contains_skip).
    + unfold commit_info.
      repeat (apply contains_here || apply contains_skip).
    + unfold commit_info, fmt_opt.
      do 8 apply contains_skip.
      rewrite <- (app_nil_r (match code_diff commit with
                             | Some s => s | None => lit "None" end)) at 2.
      apply contains_here.
Qed.

(** The estimate is the length over four, rounded down: within four
    characters of the length, and no smaller for a longer text. *)
Lemma estimate_token_count_bounds (text more : str) :
  4 * estimate_token_count text <= length text /\
  length text < 4 * estimate_token_count text + 4 /\
  estimate_token_count text <= estimate_token_count (text ++ more).
Proof.
  unfold estimate_token_count. rewrite length_app.
  pose proof (Nat.div_mod_eq (length text) 4) as E.
  pose proof (Nat.mod_upper_bound (length text) 4) as U.
  repeat split; try lia.
  apply Nat.Div0.div_le_mono. lia.
Qed.

End PromptFacts.

(** * The author of a commit *)

Module AuthorTrip.

Import Llm Collector StrFacts CollectorFacts StripFacts TagFacts PromptFacts.

Lemma contains_here3 (x y z t : str) :
  contains (x ++ y ++ z) (x ++ y ++ z ++ t) = true.
Proof.
  replace (x ++ y ++ z ++ t) with ((x ++ y ++ z) ++ t)
    by now rewrite <- !app_assoc.
  apply contains_here.
Qed.

(** The prompt holds the author line of each of its documents. *)
Lemma author_line_in_prompt (doc : CommitDocument)
    (docs : list CommitDocument) (description : str) :
  In doc docs ->
  contains (lit "Author: " ++ author_shown doc ++ [nl])
    (build_prompt docs description) = true.
Proof.
  intros Hin. unfold build_prompt. cbv zeta.
  destruct (join_part [nl; nl] (commit_info doc) (map commit_info docs)
              (in_map commit_info _ _ Hin)) as [a [b E]].
  rewrite E. unfold commit_info. rewrite <- !app_assoc.
  repeat (apply contains_here3 || apply contains_skip).
Qed.

Section RoundTrip.

Variable requests_get : str -> str -> Response.
Variables function_id repo_slug repo_token workspace : str.

Local Abbreviation emits :=
  (emits requests_get function_id repo_slug repo_token workspace).

(** C8, as amended: for a raw author with exactly one ["<"], the text
    [left] before it and the text [right] after it, the split on ["<"]
    gives the two; the document of the commit has [left] stripped of
    whitespace as [author_username] and [right] stripped of whitespace,
    then of every [">"] at either end, as [author_email]; the prompt of
    any documents that hold this one shows the line
    ["Author: author_username <author_email>"]; and the author so shown
    is the raw author again exactly when [left] is the user name and one
    blank, and [right] the email and one [">"]. The raw author
    ["Jane Doe <jane@x.com>"] gives ["Jane Doe"] and ["jane@x.com"]. *)
Theorem author_round_trip (left right : str) (commit : Commit)
    (doc : CommitDocument) :
  has_char "<"%char left = false ->
  has_char "<"%char right = false ->
  author_raw commit = left ++ lit "<" ++ right ->
  In doc (emits commit) ->
  split "<"%char (author_raw commit) = [left; right] /\
  author_username doc = strip left /\
  author_email doc = strip_char ">"%char (strip right) /\
  (forall docs description,
     In doc docs ->
     contains
       (lit "Author: " ++ strip left ++ lit " <" ++
        strip_char ">"%char (strip right) ++ lit ">" ++ [nl])
       (build_prompt docs description) = true) /\
  (strip left ++ lit " <" ++ strip_char ">"%char (strip right) ++ lit ">" =
   author_raw commit <->
   left = strip left ++ lit " " /\
   right = strip_char ">"%char (strip right) ++ lit ">") /\
  (left = lit "Jane Doe " -> right = lit "jane@x.com>" ->
   author_username doc = lit "Jane Doe" /\
   author_email doc = lit "jane@x.com").
Proof.
  intros Hl Hr Hraw Hin.
  assert (Hs : split "<"%char (author_raw commit) = [left; right]).
  { rewrite Hraw. change (left ++ lit "<" ++ right)
      with (left ++ "<"%char :: right).
    rewrite (split_app _ _ _ Hl). now rewrite (split_without _ _ Hr). }
  destruct (emits_author _ _ _ _ _ _ _ Hin) as [Hu He].
  unfold username_of in Hu. unfold email_of in He. rewrite Hs in Hu, He.
  cbn [item index nth_error bind] in Hu, He.
  injection Hu as Hu. injection He as He.
  split; [exact Hs|]. split; [now symmetry|]. split; [now symmetry|].
  split; [|split].
  3: { intros El Er. rewrite <- Hu, <- He, El, Er. split; reflexivity. }
  - intros docs description Hd.
    pose proof (author_line_in_prompt doc docs description Hd) as H.
    unfold author_shown in H. rewrite <- Hu, <- He in H.
    rewrite <- !app_assoc in H. exact H.
  - rewrite Hraw. split.
    + intros H.
      assert (A : (strip left ++ lit " ") ++
                  "<"%char :: (strip_char ">"%char (strip right) ++ lit ">") =
                  left ++ "<"%char :: right).
      { rewrite <- app_assoc. exact H. }
      apply first_cut in A; [|
        rewrite has_char_app; unfold strip;
        now rewrite (strip_by_without _ _ _ Hl) | exact Hl].
      destruct A as [A1 A2]. now split.
    + intros [H1 H2]. rewrite H1 at 2. rewrite H2 at 2.
      now rewrite <- !app_assoc.
Qed.

End RoundTrip.

End AuthorTrip.

(** * The endpoint: properties *)

Module EndpointFacts.

Import Llm LlmFacts Collector StrFacts CollectorFacts CollectorMore
  VerdictFacts Endpoint.

Section Facts.

Variable requests_get : str -> str -> Response.
Variable generate_content : str -> judge_result.

Local Abbreviation analyze := (analyze requests_get generate_content).
Local Abbreviation collected req fuel :=
  (get_commits requests_get (function_id req) (repo_slug req)
     (repo_token req) (workspace req) fuel).

Lemma for_commits_raises (function_id repo_slug repo_token workspace : str)
    (commits : list Commit) :
  forall st st' e,
  for_commits requests_get function_id repo_slug repo_token workspace
    commits st = (st', Raise e) ->
  e = IndexError.
Proof.
  induction commits as [|c cs IH]; intros [trace filtered_commits] st' e H.
  - discriminate.
  - rewrite for_commits_cons, commit_body_frame in H.
    destruct (aborts function_id c).
    + now injection H as _ <-.
    + exact (IH _ _ _ H).
Qed.

(** The only exception a call of [get_commits] ends with is the
    [IndexError]. *)
Lemma while_raises (function_id repo_slug repo_token workspace : str)
    (fuel : nat) :
  forall next_url first st trace e,
  while_next_url requests_get function_id repo_slug repo_token workspace
    fuel next_url first st = Some (trace, Raise e) ->
  e = IndexError.
Proof.
  induction fuel as [|fuel IH]; intros next_url first st trace e H.
  - simpl in H. destruct (truthy next_url); [discriminate|].
    destruct (snd st); discriminate.
  - destruct (truthy next_url) as [url|] eqn:Hu.
    + rewrite (while_step _ _ _ _ _ _ _ _ _ _ Hu) in H. cbv zeta in H.
      destruct (first && negb (status_code (requests_get url repo_token) =? 200)%Z);
        [discriminate|].
      destruct (status_code (requests_get url repo_token) =? 200)%Z.
      * destruct (for_commits requests_get function_id repo_slug repo_token
                    workspace (values (json (requests_get url repo_token)))
                    (fst st ++ [PageRequest url], snd st))
          as [st' [[]|e']] eqn:E.
        -- exact (IH _ _ _ _ _ H).
        -- injection H as _ <-. exact (for_commits_raises _ _ _ _ _ _ _ _ E).
      * exact (IH _ _ _ _ _ H).
    + rewrite (while_stop _ _ _ _ _ _ _ _ _ Hu) in H. discriminate.
Qed.

(** What a call of [analyze] can end with: the [IndexError] of the
    collector; 404 with the text about no commits; the status of a first
    page that is neither 200 nor 404 with the text about the
    connection; 413 or 500 from the judge; or a success whose progress
    is ["yes"], ["no"] or ["None"] and whose hours are 0 or a float that
    is not negative. No [HTTPException] carries the status 200. *)
Theorem analyze_responses (fuel : nat) (req : AnalyzeRequest) (r : response) :
  analyze fuel req = Some r ->
  r = Uncaught IndexError \/
  r = HTTPException 404
        (lit "No commits found for the given function ID(s).") \/
  (exists status,
     r = HTTPException status (lit "Failed to connect to Bitbucket.") /\
     status <> 200%Z /\ status <> 404%Z /\
     status =
     status_code
       (requests_get (API_URL (repo_slug req) (workspace req))
          (repo_token req))) \/
  r = HTTPException 413 (lit "LLM input too large.") \/
  r = HTTPException 500 (lit "LLM processing failed.") \/
  (exists progress hours,
     r = Success progress hours /\
     In progress [lit "yes"; lit "no"; lit "None"] /\ hours_ok hours).
Proof.
  unfold Endpoint.analyze.
  destruct (collected req fuel) as [[trace [[code_status docs]|e]]|] eqn:Hc;
    [| |discriminate].
  - destruct (code_status =? 404)%Z eqn:E4.
    { intros [= <-]. auto. }
    destruct (code_status =? 200)%Z eqn:E2; simpl negb; cbv iota.
    + pose proof (call_llm_range generate_content docs (description req))
        as Hr.
      destruct (call_llm generate_content docs (description req))
        as [[llm_status progress] est_hours].
      destruct Hr as [Hs [Hp [Hh _]]].
      destruct Hs as [-> | [-> | ->]]; simpl; intros [= <-]; auto 10.
      right. right. right. right. right. now exists progress, est_hours.
    + intros [= <-]. right. right. left. exists code_status.
      apply Z.eqb_neq in E4, E2. split; [reflexivity|].
      split; [exact E2|]. split; [exact E4|].
      destruct (get_commits_keeps requests_get (function_id req)
                  (repo_slug req) (repo_token req) (workspace req)
                  (fun _ => True) (fun _ _ _ => I) (fun _ _ _ _ => I)
                  _ _ _ _ I Hc)
        as [[_ [E _]]|[filtered_commits [_ E]]]; [exact E|].
      unfold finish in E. destruct filtered_commits; injection E as E _;
        congruence.
  - intros [= <-]. left. f_equal. unfold Collector.get_commits in Hc.
    exact (while_raises _ _ _ _ _ _ _ _ _ _ Hc).
Qed.

(** When the collector does not return 200, the judge is not
    consulted: the response is the same whatever the judge would do. *)
Theorem analyze_skips_the_judge (fuel : nat) (req : AnalyzeRequest)
    (trace : list request) (out : result (Z * list CommitDocument))
    (generate_content' : str -> judge_result) :
  collected req fuel = Some (trace, out) ->
  (forall docs, out <> Ok (200%Z, docs)) ->
  analyze fuel req =
  Endpoint.analyze requests_get generate_content' fuel req.
Proof.
  intros Hc Hn. unfold Endpoint.analyze. rewrite Hc.
  destruct out as [[code_status docs]|e]; [|reflexivity].
  destruct (code_status =? 404)%Z; [reflexivity|].
  destruct (code_status =? 200)%Z eqn:E2; [|reflexivity].
  apply Z.eqb_eq in E2. subst. now destruct (Hn docs).
Qed.

(** A success is returned exactly when the collector returns 200, with
    at least one document, and the judge's verdict on these documents
    and the description of the request has status 200; the response
    carries the alignment and the hours of that verdict. *)
Theorem analyze_success (fuel : nat) (req : AnalyzeRequest)
    (progress : str) (hours : pynum) :
  analyze fuel req = Some (Success progress hours) <->
  exists trace docs,
    collected req fuel = Some (trace, Ok (200%Z, docs)) /\
    docs <> [] /\
    call_llm generate_content docs (description req) =
    (200%Z, progress, hours).
Proof.
  unfold Endpoint.analyze. split.
  - destruct (collected req fuel) as [[trace [[code_status docs]|e]]|] eqn:Hc;
      [| discriminate | discriminate].
    destruct (code_status =? 404)%Z; [discriminate|].
    destruct (code_status =? 200)%Z eqn:E2; [|discriminate].
    apply Z.eqb_eq in E2. subst code_status. simpl negb. cbv iota.
    pose proof (call_llm_range generate_content docs (description req)) as Hr.
    destruct (call_llm generate_content docs (description req))
      as [[llm_status p] h] eqn:Hv.
    destruct Hr as [Hs _].
    destruct Hs as [-> | [-> | ->]]; simpl; intros [= <- <-].
    exists trace, docs. split; [reflexivity|]. split; [|exact Hv].
    destruct (get_commits_keeps requests_get (function_id req)
                (repo_slug req) (repo_token req) (workspace req)
                (fun _ => True) (fun _ _ _ => I) (fun _ _ _ _ => I)
                _ _ _ _ I Hc)
      as [[E _]|[filtered_commits [_ E]]]; [discriminate|].
    unfold finish in E. destruct filtered_commits;
      [discriminate E | injection E as ->; discriminate].
  - intros [trace [docs [Hc [_ Hv]]]]. rewrite Hc, Hv. reflexivity.
Qed.

End Facts.

End EndpointFacts.

(** * The requested ids as a set *)

Module RequestedIds.

Import Collector StrFacts CollectorFacts.

Lemma any_in_spec (requested tags : list str) :
  any_in requested tags = true <->
  exists id, In id requested /\ In id tags.
Proof.
  unfold any_in. rewrite existsb_exists. split.
  - intros [id [Hr Ht]]. apply mem_In in Ht. now exists id.
  - intros [id [Hr Ht]]. exists id. split; [exact Hr | now apply mem_In].
Qed.

Section Same.

Variable requests_get : str -> str -> Response.
Variables function_id function_id' repo_slug repo_token workspace : str.

Hypothesis same_ids :
  forall id, In id (split_ids function_id) <-> In id (split_ids function_id').

Lemma any_in_same (tags : list str) :
  any_in (split_ids function_id) tags = any_in (split_ids function_id') tags.
Proof.
  apply Bool.eq_iff_eq_true. rewrite !any_in_spec.
  split; intros [id [Hr Ht]]; exists id; (split; [now apply same_ids | exact Ht]).
Qed.

Lemma common_ids_same (tags : list str) :
  common_ids tags (split_ids function_id) =
  common_ids tags (split_ids function_id').
Proof.
  unfold common_ids. apply filter_ext. intros id.
  apply Bool.eq_iff_eq_true. rewrite !mem_In. apply same_ids.
Qed.

Lemma commit_body_same (commit : Commit) (st : state) :
  commit_body requests_get function_id repo_slug repo_token workspace
    commit st =
  commit_body requests_get function_id' repo_slug repo_token workspace
    commit st.
Proof.
  unfold commit_body. destruct st as [trace filtered_commits].
  destruct (Re.search true function_id_pattern (strip (commit_message commit)))
    as [group1|]; [|reflexivity].
  now rewrite any_in_same, common_ids_same.
Qed.

Lemma for_commits_same (commits : list Commit) :
  forall st,
  for_commits requests_get function_id repo_slug repo_token workspace
    commits st =
  for_commits requests_get function_id' repo_slug repo_token workspace
    commits st.
Proof.
  induction commits as [|c cs IH]; intros st; [reflexivity|].
  rewrite !for_commits_cons, commit_body_same.
  destruct (commit_body requests_get function_id' repo_slug repo_token
              workspace c st) as [st' [u|e]]; [apply IH | reflexivity].
Qed.

Lemma while_same (fuel : nat) :
  forall next_url first st,
  while_next_url requests_get function_id repo_slug repo_token workspace
    fuel next_url first st =
  while_next_url requests_get function_id' repo_slug repo_token workspace
    fuel next_url first st.
Proof.
  induction fuel as [|fuel IH]; intros next_url first st; [reflexivity|].
  destruct (truthy next_url) as [url|] eqn:Hu.
  - rewrite !(while_step _ _ _ _ _ _ _ _ _ _ Hu). cbv zeta.
    rewrite for_commits_same.
    destruct (first && negb (status_code (requests_get url repo_token) =? 200)%Z);
      [reflexivity|].
    destruct (status_code (requests_get url repo_token) =? 200)%Z;
      [|apply IH].
    destruct (for_commits requests_get function_id' repo_slug repo_token
                workspace (values (json (requests_get url repo_token)))
                (fst st ++ [PageRequest url], snd st)) as [st' [u|e]];
      [apply IH | reflexivity].
  - now rewrite !(while_stop _ _ _ _ _ _ _ _ _ Hu).
Qed.

(** Two requests that name the same ids, in whatever order, spacing or
    repetition, get the same requests made and the same answer. *)
Theorem requested_ids_as_a_set (fuel : nat) :
  get_commits requests_get function_id repo_slug repo_token workspace fuel =
  get_commits requests_get function_id' repo_slug repo_token workspace fuel.
Proof. apply while_same. Qed.

End Same.

End RequestedIds.

(** * The added properties on the sample source *)

Module MoreSamples.

Import Llm LlmFacts Collector StrFacts CollectorFacts CollectorMore
  VerdictFacts Endpoint EndpointFacts Scenario.

(** Two pages that name each other. *)
Definition circular : str -> str -> Response :=
  serve [(page1, ok [jane; readme] (Some page2));
         (page2, ok [omar] (Some page1))].

Definition sample_request : AnalyzeRequest :=
  {| Endpoint.function_id := lit "B, C";
     Endpoint.repo_slug := Scenario.repo_slug;
     Endpoint.repo_token := Scenario.repo_token;
     Endpoint.workspace := Scenario.workspace;
     Endpoint.description := lit "Checkout totals include the price of each item." |}.

Definition judge_yes (prompt : str) : judge_result :=
  Returned (lit "yes, 3").

Definition judge_down (prompt : str) : judge_result :=
  Raised (lit "service unavailable").

Definition two_pages_run : option outcome :=
  get_commits two_pages (lit "B, C") Scenario.repo_slug Scenario.repo_token
    Scenario.workspace 2.

Lemma two_pages_returns :
  two_pages_run =
  Some (requests_of two_pages_run, Ok (200%Z, [jane_doc; omar_doc])).
Proof. vm_compute. reflexivity. Defined.

(** [document_of_matching_commit] on [omar], whose diff is not found. *)
Lemma document_of_matching_commit_witness :
  exists doc,
    commit_body two_pages (lit "B, C") Scenario.repo_slug Scenario.repo_token
      Scenario.workspace omar (([], []) : state) =
    ((fst (([], []) : state) ++
      [DiffRequest (diff_url_of Scenario.repo_slug Scenario.workspace omar)],
      snd (([], []) : state) ++ [doc]), Ok tt) /\
    hash doc = commit_hash omar /\
    message doc = strip (commit_message omar) /\
    code_diff doc =
    (if (status_code
           (two_pages
              (diff_url_of Scenario.repo_slug Scenario.workspace omar)
              Scenario.repo_token) =? 200)%Z
     then Some (text (two_pages
                        (diff_url_of Scenario.repo_slug Scenario.workspace
                           omar) Scenario.repo_token))
     else None).
Proof.
  apply (document_of_matching_commit two_pages (lit "B, C")
           Scenario.repo_slug Scenario.repo_token Scenario.workspace omar
           (([], []) : state)); vm_compute; reflexivity.
Defined.

(** [get_commits_result_shape] on the two pages. *)
Lemma get_commits_result_shape_witness :
  (200%Z = 200%Z /\ [jane_doc; omar_doc] <> []) \/
  (200%Z = 404%Z /\ [jane_doc; omar_doc] = []) \/
  (200%Z <> 200%Z /\ [jane_doc; omar_doc] = [] /\
   200%Z =
   status_code
     (two_pages (API_URL Scenario.repo_slug Scenario.workspace)
        Scenario.repo_token) /\
   requests_of two_pages_run =
   [PageRequest (API_URL Scenario.repo_slug Scenario.workspace)]).
Proof.
  exact (get_commits_result_shape two_pages (lit "B, C") Scenario.repo_slug
           Scenario.repo_token Scenario.workspace 2 _ _ _ two_pages_returns).
Defined.

(** [diff_requests_of_documents] on the two pages. *)
Lemma diff_requests_of_documents_witness :
  diff_requests (requests_of two_pages_run) =
  map (fun doc =>
         DiffRequest
           (diff_url_for Scenario.repo_slug Scenario.workspace (hash doc)))
    [jane_doc; omar_doc].
Proof.
  exact (diff_requests_of_documents two_pages (lit "B, C")
           Scenario.repo_slug Scenario.repo_token Scenario.workspace 2 _ _ _
           two_pages_returns).
Defined.

(** [documents_well_kept] on the two pages. *)
Lemma documents_well_kept_witness :
  Forall well_kept [jane_doc; omar_doc].
Proof.
  exact (documents_well_kept two_pages (lit "B, C") Scenario.repo_slug
           Scenario.repo_token Scenario.workspace 2 _ _ _ two_pages_returns).
Defined.

(** [documents_hold_a_tag_block] on the document of [omar]. *)
Lemma documents_hold_a_tag_block_witness :
  exists pre kw sp1 sp2 group1 post,
    message omar_doc =
    pre ++ kw ++ sp1 ++ lit ":" ++ sp2 ++ lit "[" ++ group1 ++ lit "]" ++ post /\
    Re.word_eqb true (lit "testcase") kw = true /\
    forallb is_space sp1 = true /\ forallb is_space sp2 = true /\
    group1 <> [] /\ has_char "]"%char group1 = false /\
    exists id, In id (split_ids group1) /\ In id (split_ids (lit "B, C")).
Proof.
  apply (documents_hold_a_tag_block two_pages (lit "B, C") Scenario.repo_slug
           Scenario.repo_token Scenario.workspace 2 _ _ _ omar_doc
           two_pages_returns).
  simpl. right. left. reflexivity.
Defined.

(** [function_id_reads_back] on the document of [jane]. *)
Lemma function_id_reads_back_witness :
  exists group1,
    tag_block (message jane_doc) = Some group1 /\
    split_ids (Data.function_id jane_doc) =
    common_ids (split_ids group1) (split_ids (lit "B, C")) /\
    common_ids (split_ids group1) (split_ids (Data.function_id jane_doc)) =
    split_ids (Data.function_id jane_doc).
Proof.
  apply (function_id_reads_back two_pages (lit "B, C") Scenario.repo_slug
           Scenario.repo_token Scenario.workspace 2 _ _ _ jane_doc
           two_pages_returns).
  simpl. left. reflexivity.
Defined.

(** [circular_pages_never_end] on the two pages that name each other,
    with a fuel of 40. *)
Lemma circular_pages_never_end_witness :
  get_commits circular (lit "B, C") Scenario.repo_slug Scenario.repo_token
    Scenario.workspace 40 = None.
Proof.
  apply (circular_pages_never_end circular (lit "B, C") Scenario.repo_slug
           Scenario.repo_token Scenario.workspace [page1; page2]
           (Some page1) 40).
  - vm_compute. reflexivity.
  - reflexivity.
  - simpl. lia.
  - vm_compute. reflexivity.
Defined.

Lemma analyze_two_pages :
  Endpoint.analyze two_pages judge_yes 2 sample_request =
  Some (Success (lit "yes") (PyFloat (FFinite 3))).
Proof. vm_compute. reflexivity. Defined.

(** [analyze_responses] on the two pages and a judge that says yes. *)
Lemma analyze_responses_witness :
  Success (lit "yes") (PyFloat (FFinite 3)) = Uncaught IndexError \/
  Success (lit "yes") (PyFloat (FFinite 3)) =
  HTTPException 404 (lit "No commits found for the given function ID(s).") \/
  (exists status,
     Success (lit "yes") (PyFloat (FFinite 3)) =
     HTTPException status (lit "Failed to connect to Bitbucket.") /\
     status <> 200%Z /\ status <> 404%Z /\
     status =
     status_code
       (two_pages
          (API_URL (Endpoint.repo_slug sample_request) (Endpoint.workspace sample_request))
          (Endpoint.repo_token sample_request))) \/
  Success (lit "yes") (PyFloat (FFinite 3)) =
  HTTPException 413 (lit "LLM input too large.") \/
  Success (lit "yes") (PyFloat (FFinite 3)) =
  HTTPException 500 (lit "LLM processing failed.") \/
  (exists progress hours,
     Success (lit "yes") (PyFloat (FFinite 3)) = Success progress hours /\
     In progress [lit "yes"; lit "no"; lit "None"] /\ hours_ok hours).
Proof.
  exact (analyze_responses two_pages judge_yes 2 sample_request _ analyze_two_pages).
Defined.

(** [analyze_skips_the_judge] on a first page that fails with 503. *)
Lemma analyze_skips_the_judge_witness :
  Endpoint.analyze (first_page_down 503) judge_yes 1 sample_request =
  Endpoint.analyze (first_page_down 503) judge_down 1 sample_request.
Proof.
  apply (analyze_skips_the_judge (first_page_down 503) judge_yes 1 sample_request
           [PageRequest page1] (Ok (503%Z, [])) judge_down).
  - vm_compute. reflexivity.
  - intros docs H. discriminate H.
Defined.

(** [requested_ids_as_a_set] on ["B, C"] and [" C,B ,C"]. *)
Lemma requested_ids_as_a_set_witness :
  get_commits two_pages (lit "B, C") Scenario.repo_slug Scenario.repo_token
    Scenario.workspace 2 =
  get_commits two_pages (lit " C,B ,C") Scenario.repo_slug
    Scenario.repo_token Scenario.workspace 2.
Proof.
  apply (RequestedIds.requested_ids_as_a_set two_pages (lit "B, C")
           (lit " C,B ,C") Scenario.repo_slug Scenario.repo_token
           Scenario.workspace).
  intros id.
  change (In id [lit "B"; lit "C"] <-> In id [lit "C"; lit "B"; lit "C"]).
  simpl. tauto.
Defined.

(** [tagged_commit_is_kept] on [omar], whose message has a [t] before
    the tag block. *)
Lemma tagged_commit_is_kept_witness :
  exists doc,
    commit_body two_pages (lit "B, C") Scenario.repo_slug Scenario.repo_token
      Scenario.workspace omar (([], []) : state) =
    (([DiffRequest (diff_url_of Scenario.repo_slug Scenario.workspace omar)],
      [doc]), Ok tt) /\
    message doc = strip (commit_message omar) /\
    Data.function_id doc =
    join (lit ", ")
      (common_ids (split_ids (lit " C ,D")) (split_ids (lit "B, C"))).
Proof.
  apply (TagFacts.tagged_commit_is_kept two_pages (lit "B, C")
           Scenario.repo_slug Scenario.repo_token Scenario.workspace omar
           (([], []) : state) (lit "tidy up, ") (lit "TestCase") (lit " ")
           (lit " ") (lit " C ,D") []);
    try reflexivity; try discriminate.
  exists (lit "C"). split; vm_compute; tauto.
Defined.

(** [author_round_trip] on ["Jane Doe <jane@x.com>"]. *)
Lemma author_round_trip_witness :
  split "<"%char (author_raw jane) = [lit "Jane Doe "; lit "jane@x.com>"] /\
  author_username jane_doc = lit "Jane Doe" /\
  author_email jane_doc = lit "jane@x.com" /\
  (forall docs description,
     In jane_doc docs ->
     contains (lit "Author: Jane Doe <jane@x.com>" ++ [nl])
       (build_prompt docs description) = true) /\
  (lit "Jane Doe <jane@x.com>" = author_raw jane <->
   lit "Jane Doe " = lit "Jane Doe" ++ lit " " /\
   lit "jane@x.com>" = lit "jane@x.com" ++ lit ">") /\
  (lit "Jane Doe " = lit "Jane Doe " -> lit "jane@x.com>" = lit "jane@x.com>" ->
   author_username jane_doc = lit "Jane Doe" /\
   author_email jane_doc = lit "jane@x.com").
Proof.
  apply (AuthorTrip.author_round_trip two_pages (lit "B, C")
           Scenario.repo_slug Scenario.repo_token Scenario.workspace
           (lit "Jane Doe ") (lit "jane@x.com>") jane jane_doc).
  - reflexivity.
  - reflexivity.
  - reflexivity.
  - vm_compute. left. reflexivity.
Defined.

(** C8, as stated, fails: with two blanks before the bracket the prompt
    shows the author with one, and does not hold the raw author; with
    two closing brackets the email loses both, not a single one, and
    the author shown has one. *)
Lemma author_not_reconstructed :
  (exists doc,
     emits two_pages (lit "B") Scenario.repo_slug Scenario.repo_token
       Scenario.workspace two_blanks = [doc] /\
     author_raw two_blanks = lit "Jane Doe  <jane@x.com>" /\
     author_shown doc = lit "Jane Doe <jane@x.com>" /\
     contains (author_raw two_blanks) (build_prompt [doc] []) = false) /\
  (exists doc,
     emits two_pages (lit "B") Scenario.repo_slug Scenario.repo_token
       Scenario.workspace two_brackets = [doc] /\
     author_raw two_brackets = lit "Jane Doe <jane@x.com>>" /\
     author_email doc = lit "jane@x.com" /\
     author_shown doc = lit "Jane Doe <jane@x.com>").
Proof.
  split; eexists; (split; [vm_compute; reflexivity|]);
    repeat split; vm_compute; reflexivity.
Qed.

End MoreSamples.
